(** * bcx: SHA-256 and Base58, a shallow embedding of the Go sources

    The development follows the repository file by file:
    - [sha2/sha2.go]      : [pad512], [conv8to32], [conv32to8], [Sha2.Sha2_256];
    - the second sha2 file: [Hash256.Bytes], [Hash256.Copy], [Hash256.Add512],
                            [Hash256.Sha2_256], [Hash256.FromString];
    - [block/block.go]    : [Block.New], [Block.Bytes], and the hashing steps
                            of [mine];
    - [base58/base58.go]  : [Base58.revChars], [Base58.Encode], [Base58.Decode];
    and adds [Spec], SHA-256 in the words of the specification, and [Mem],
    [pad512] and [Sha2_256] on a store of backing arrays.

    Go values are modelled as follows.  A [byte] is Rocq's [Byte.byte]; a
    [uint32], [uint64] or [int] is a [Z], and the wrap-around is written at
    the operations whose result can leave the range (the arithmetic on a
    loop counter that a slice length bounds is plain [Z]); a slice is a
    [list] and an index expression [s[i]] is a partial operation (Go
    panics outside the bounds), so every function that indexes lives in the
    [option] monad and [None] stands for a panic. *)

From Stdlib Require Import ZArith Lia Strings.Byte Ascii String.
From stdpp Require Import base tactics option list numbers gmap.

Local Open Scope Z_scope.

(** ** Machine integers *)

Definition uint32 (z : Z) : Z := z mod 2 ^ 32.
Definition uint64 (z : Z) : Z := z mod 2 ^ 64.

(** Go's [int] on the 64-bit targets: two's complement on 64 bits. *)
Definition int (z : Z) : Z := (z + 2 ^ 63) mod 2 ^ 64 - 2 ^ 63.

(** Go's [int8]: two's complement on 8 bits. *)
Definition int8 (z : Z) : Z := (z + 2 ^ 7) mod 2 ^ 8 - 2 ^ 7.

Definition byte_to_Z (b : byte) : Z := Z.of_N (Byte.to_N b).

(** The conversion [uint8(x)] keeps the low eight bits. *)
Definition uint8 (z : Z) : byte :=
  default x00 (Byte.of_N (Z.to_N (z mod 256))).

(** ** Slices: checked indexing *)

(** [s[i]] as an expression. *)
Definition index {A} (s : list A) (i : Z) : option A :=
  if decide (0 ≤ i) then s !! Z.to_nat i else None.

(** [s[i] = v] as a statement. *)
Definition store {A} (s : list A) (i : Z) (v : A) : option (list A) :=
  if decide (0 ≤ i < Z.of_nat (length s)) then Some (<[Z.to_nat i := v]> s) else None.

(** [for i := lo; i < lo + n; i++ { body }] over a state [St], the body
    being allowed to panic. *)
Fixpoint for_loop {St} (lo : Z) (n : nat) (body : Z → St → option St) (s : St) : option St :=
  match n with
  | O => Some s
  | S n' => s' ← body lo s; for_loop (lo + 1) n' body s'
  end.

(** [s[lo:hi]] as an expression.  The value-level model has no capacity, so
    the upper bound is checked against the length. *)
Definition slice {A} (s : list A) (lo hi : Z) : option (list A) :=
  if decide (0 ≤ lo ≤ hi ∧ hi ≤ Z.of_nat (length s))
  then Some (take (Z.to_nat (hi - lo)) (drop (Z.to_nat lo) s)) else None.

Definition len {A} (s : list A) : Z := Z.of_nat (length s).

(** The builtin [copy(dst, src)]: the first [min(len(dst), len(src))]
    elements of [src] replace those of [dst]. *)
Definition copy {A} (dst src : list A) : list A :=
  take (length dst) src ++ drop (length src) dst.

(** A call [f(x[lo:hi])] whose callee writes through its argument.  The
    slice shares the array of [x], so afterwards the cells [lo] to [hi] of
    [x] hold what the callee left there. *)
Definition on_slice {A} (x : list A) (lo hi : Z) (f : list A → option (list A))
  : option (list A) :=
  s ← slice x lo hi;
  s ← f s;
  Some (take (Z.to_nat lo) x ++ s ++ drop (Z.to_nat hi) x).

(** ** 32-bit words *)

Definition add32 (x y : Z) : Z := uint32 (x + y).
Definition not32 (x : Z) : Z := uint32 (Z.lnot x).
Infix "⊞" := add32 (at level 50, left associativity).
Infix "⊕" := Z.lxor (at level 50, left associativity).
Infix "&&&" := Z.land (at level 40, left associativity).
Infix "|||" := Z.lor (at level 50, left associativity).

(** [math/bits.RotateLeft32]: [s := uint(k) & (n - 1); x<<s | x>>(n-s)]. *)
Definition RotateLeft32 (x k : Z) : Z :=
  let s := uint64 k &&& (32 - 1) in
  uint32 (x ≪ s) ||| (x ≫ (32 - s)).

(** The 32-bit word at byte offset [j] of [src], big-endian. *)
Definition load32 (src : list byte) (j : Z) : option Z :=
  b0 ← index src (j + 0); b1 ← index src (j + 1);
  b2 ← index src (j + 2); b3 ← index src (j + 3);
  Some (uint32 (byte_to_Z b0 ≪ 24) ||| uint32 (byte_to_Z b1 ≪ 16)
        ||| uint32 (byte_to_Z b2 ≪ 8) ||| uint32 (byte_to_Z b3 ≪ 0)).

(** The four bytes of [x] written at byte offset [j] of [dst], big-endian. *)
Definition store32 (dst : list byte) (j : Z) (x : Z) : option (list byte) :=
  dst ← store dst (j + 0) (uint8 (x ≫ 24));
  dst ← store dst (j + 1) (uint8 (x ≫ 16));
  dst ← store dst (j + 2) (uint8 (x ≫ 8));
  store dst (j + 3) (uint8 (x ≫ 0)).

(** [conv8to32 converts a slice of byte to a slice of uint32]; it is
    [util.Conv8to32] as well. *)
Definition conv8to32 (dst : list Z) (src : list byte) : option (list Z) :=
  if decide (len src ≠ int (4 * len dst)) then None
  else for_loop 0 (length dst) (λ i dst, x ← load32 src (i * 4); store dst i x) dst.

(** [conv32to8 converts a slice of uint32 to a slice of byte]; it is
    [util.Conv32to8] as well. *)
Definition conv32to8 (dst : list byte) (src : list Z) : option (list byte) :=
  if decide (len dst ≠ int (4 * len src)) then None
  else for_loop 0 (length src) (λ i dst, x ← index src i; store32 dst (i * 4) x) dst.

(** [pad512 pads a slice to a multiple of 512 bits (64 bytes)].  The same
    function, character for character, is declared in both sha2 files. *)
Definition pad512 (data : list byte) : option (list byte) :=
  let n := uint64 (len data) in
  let pad := uint64 (64 - n mod 64) in
  let pad := if pad <? 9 then uint64 (pad + 64) else pad in
  let data := data ++ replicate (Z.to_nat pad) x00 in
  data ← store data n x80;
  let end_ := uint64 (n + pad - 1) in
  let n := uint64 (n * 8) in
  data ← store data (uint64 (end_ - 7)) (uint8 (n ≫ 56));
  data ← store data (uint64 (end_ - 6)) (uint8 (n ≫ 48));
  data ← store data (uint64 (end_ - 5)) (uint8 (n ≫ 40));
  data ← store data (uint64 (end_ - 4)) (uint8 (n ≫ 32));
  data ← store data (uint64 (end_ - 3)) (uint8 (n ≫ 24));
  data ← store data (uint64 (end_ - 2)) (uint8 (n ≫ 16));
  data ← store data (uint64 (end_ - 1)) (uint8 (n ≫ 8));
  data ← store data (uint64 (end_ - 0)) (uint8 (n ≫ 0));
  Some data.

Definition hInit : list Z :=
  [0x6a09e667; 0xbb67ae85; 0x3c6ef372; 0xa54ff53a; 0x510e527f; 0x9b05688c; 0x1f83d9ab; 0x5be0cd19].

(** The table [k], one line of the source per row. *)
Definition k : list Z :=
  [0x428a2f98; 0x71374491; 0xb5c0fbcf; 0xe9b5dba5; 0x3956c25b; 0x59f111f1; 0x923f82a4; 0xab1c5ed5] ++
  [0xd807aa98; 0x12835b01; 0x243185be; 0x550c7dc3; 0x72be5d74; 0x80deb1fe; 0x9bdc06a7; 0xc19bf174] ++
  [0xe49b69c1; 0xefbe4786; 0x0fc19dc6; 0x240ca1cc; 0x2de92c6f; 0x4a7484aa; 0x5cb0a9dc; 0x76f988da] ++
  [0x983e5152; 0xa831c66d; 0xb00327c8; 0xbf597fc7; 0xc6e00bf3; 0xd5a79147; 0x06ca6351; 0x14292967] ++
  [0x27b70a85; 0x2e1b2138; 0x4d2c6dfc; 0x53380d13; 0x650a7354; 0x766a0abb; 0x81c2c92e; 0x92722c85] ++
  [0xa2bfe8a1; 0xa81a664b; 0xc24b8b70; 0xc76c51a3; 0xd192e819; 0xd6990624; 0xf40e3585; 0x106aa070] ++
  [0x19a4c116; 0x1e376c08; 0x2748774c; 0x34b0bcb5; 0x391c0cb3; 0x4ed8aa4a; 0x5b9cca4f; 0x682e6ff3] ++
  [0x748f82ee; 0x78a5636f; 0x84c87814; 0x8cc70208; 0x90befffa; 0xa4506ceb; 0xbef9a3f7; 0xc67178f2].

Definition Size256 : Z := 32.

(** The extension of the message schedule, [for j := 16; j < 64; j++], the
    same loop in both files up to the spelling of the rotation. *)
Definition extend_step (rot : Z → Z → Z) (j : Z) (w : list Z) : option (list Z) :=
  v0 ← index w (j - 15);
  let s0 := rot v0 7 ⊕ rot v0 18 ⊕ (v0 ≫ 3) in
  v1 ← index w (j - 2);
  let s1 := rot v1 17 ⊕ rot v1 19 ⊕ (v1 ≫ 10) in
  w16 ← index w (j - 16);
  w7 ← index w (j - 7);
  store w j (w16 ⊞ s0 ⊞ w7 ⊞ s1).

(** ** sha2/sha2.go *)

Module Sha2.

Definition rRotate (x k : Z) : Z := RotateLeft32 x (- k).

(** One iteration of the [Compression function main loop], on the array
    [work]. *)
Definition round (w : list Z) (j : Z) (work : list Z) : option (list Z) :=
  work4 ← index work 4;
  let s1 := rRotate work4 6 ⊕ rRotate work4 11 ⊕ rRotate work4 25 in
  work5 ← index work 5; work6 ← index work 6;
  let ch := (work4 &&& work5) ⊕ (not32 work4 &&& work6) in
  work7 ← index work 7; kj ← index k j; wj ← index w j;
  let tmp1 := work7 ⊞ s1 ⊞ ch ⊞ kj ⊞ wj in
  work0 ← index work 0;
  let s0 := rRotate work0 2 ⊕ rRotate work0 13 ⊕ rRotate work0 22 in
  work1 ← index work 1; work2 ← index work 2;
  let maj := (work0 &&& work1) ⊕ (work0 &&& work2) ⊕ (work1 &&& work2) in
  let tmp2 := s0 ⊞ maj in
  x ← index work 6; work ← store work 7 x;
  x ← index work 5; work ← store work 6 x;
  x ← index work 4; work ← store work 5 x;
  x ← index work 3; work ← store work 4 (x ⊞ tmp1);
  x ← index work 2; work ← store work 3 x;
  x ← index work 1; work ← store work 2 x;
  x ← index work 0; work ← store work 1 x;
  store work 0 (tmp1 ⊞ tmp2).

(** The body of [for i := 0; i < len(data32)/16; i++]. *)
Definition chunk (data32 : list Z) (i : Z) (h : list Z) : option (list Z) :=
  let w := replicate 64 0 in
  w ← for_loop 0 16 (λ j w, x ← index data32 (i * 16 + j); store w j x) w;
  w ← for_loop 16 48 (extend_step rRotate) w;
  let work := h in
  work ← for_loop 0 64 (round w) work;
  for_loop 0 8 (λ j h, hj ← index h j; workj ← index work j; store h j (hj ⊞ workj)) h.

(** The body of [Sha2_256] below its first statement; [data] is only read
    from here on. *)
Definition hash_padded (data : list byte) : option (list byte) :=
  let data32 := replicate (Z.to_nat (len data ÷ 4)) 0 in
  data32 ← conv8to32 data32 data;
  let h := hInit in
  h ← for_loop 0 (Z.to_nat (len data32 ÷ 16)) (chunk data32) h;
  let out := replicate (Z.to_nat Size256) x00 in
  conv32to8 out h.

Definition Sha2_256 (data : list byte) : option (list byte) :=
  data ← pad512 data;
  hash_padded data.

End Sha2.

(** ** The second sha2 file: the [Hash256] type *)

Module Hash256.

(** [type Hash256 [8]uint32]. *)
Definition Hash256 := list Z.

Inductive error :=
  | InvalidByteError (b : byte)
  | ErrLength
  | errors_New (msg : string).

Definition Bytes (h : Hash256) : option (list byte) :=
  let out := replicate (Z.to_nat Size256) x00 in
  conv32to8 out h.

(** [Copy] panics unless [dst] has room for exactly the 32 bytes. *)
Definition Copy (h : Hash256) (dst : list byte) : option (list byte) :=
  if decide (len dst ≠ Size256) then None
  else
    let src := replicate (Z.to_nat Size256) x00 in
    src ← conv32to8 src h;
    Some (copy dst src).

(** One iteration of the [Compression function main loop], on the eight
    local variables. *)
Definition round (w : list Z) (i : Z) (r : Z * Z * Z * Z * Z * Z * Z * Z)
  : option (Z * Z * Z * Z * Z * Z * Z * Z) :=
  let '(a, b, c, d, e, f, g, h) := r in
  ki ← index k i; wi ← index w i;
  let s1 := RotateLeft32 e (-6) ⊕ RotateLeft32 e (-11) ⊕ RotateLeft32 e (-25) in
  let ch := (e &&& f) ⊕ (not32 e &&& g) in
  let tmp1 := h ⊞ s1 ⊞ ch ⊞ ki ⊞ wi in
  let s0 := RotateLeft32 a (-2) ⊕ RotateLeft32 a (-13) ⊕ RotateLeft32 a (-22) in
  let maj := (a &&& b) ⊕ (a &&& c) ⊕ (b &&& c) in
  let tmp2 := s0 ⊞ maj in
  let h := g in
  let g := f in
  let f := e in
  let e := d ⊞ tmp1 in
  let d := c in
  let c := b in
  let b := a in
  let a := tmp1 ⊞ tmp2 in
  Some (a, b, c, d, e, f, g, h).

Definition Add512 (x : Hash256) (data : list byte) : option Hash256 :=
  let w := replicate 64 0 in
  w ← for_loop 0 16 (λ i w, let j := i * 4 in x ← load32 data j; store w i x) w;
  w ← for_loop 16 48 (extend_step (λ v n, RotateLeft32 v (- n))) w;
  x0 ← index x 0; x1 ← index x 1; x2 ← index x 2; x3 ← index x 3;
  x4 ← index x 4; x5 ← index x 5; x6 ← index x 6; x7 ← index x 7;
  '(a, b, c, d, e, f, g, h) ← for_loop 0 64 (round w) (x0, x1, x2, x3, x4, x5, x6, x7);
  v ← index x 0; x ← store x 0 (v ⊞ a);
  v ← index x 1; x ← store x 1 (v ⊞ b);
  v ← index x 2; x ← store x 2 (v ⊞ c);
  v ← index x 3; x ← store x 3 (v ⊞ d);
  v ← index x 4; x ← store x 4 (v ⊞ e);
  v ← index x 5; x ← store x 5 (v ⊞ f);
  v ← index x 6; x ← store x 6 (v ⊞ g);
  v ← index x 7; store x 7 (v ⊞ h).

Definition Sha2_256 (data : list byte) : option (list byte) :=
  data ← pad512 data;
  let x := hInit in
  x ← for_loop 0 (Z.to_nat (len data ÷ 64))
        (λ i x, let j := i * 64 in blk ← slice data j (j + 64); Add512 x blk) x;
  Bytes x.

(** Modelled from the spec: [hex.DecodeString] of Go's [encoding/hex], which
    [FromString] calls and which is not among the sources of the
    repository.  The specification asks that a string that is not valid
    hexadecimal fails; the model follows the library's documentation
    ([DecodeString expects that src contains only hexadecimal characters and
    that src has even length]; on malformed input it returns the bytes
    decoded before the error), with [fromHexChar] for one character. *)
Definition fromHexChar (c : byte) : option Z :=
  let c := byte_to_Z c in
  if (48 <=? c) && (c <=? 57) then Some (c - 48)
  else if (97 <=? c) && (c <=? 102) then Some (c - 97 + 10)
  else if (65 <=? c) && (c <=? 70) then Some (c - 65 + 10)
  else None.

Fixpoint hex_Decode (src : list byte) (dst : list byte) : list byte * option error :=
  match src with
  | [] => (dst, None)
  | [p] =>
      match fromHexChar p with
      | None => (dst, Some (InvalidByteError p))
      | Some _ => (dst, Some ErrLength)
      end
  | p :: q :: src' =>
      match fromHexChar p with
      | None => (dst, Some (InvalidByteError p))
      | Some a =>
          match fromHexChar q with
          | None => (dst, Some (InvalidByteError q))
          | Some b => hex_Decode src' (dst ++ [uint8 ((a ≪ 4) ||| b)])
          end
      end
  end.

Definition hex_DecodeString (s : string) : list byte * option error :=
  hex_Decode (list_byte_of_string s) [].

(** [FromString] returns the pair [(out, err)] of the source; the outer
    [option] is the panic of [util.Conv8to32]. *)
Definition FromString (s : string) : option (Hash256 * option error) :=
  let out := replicate 8 0 in
  let '(x, err) := hex_DecodeString s in
  match err with
  | Some e => Some (out, Some e)
  | None =>
      if decide (len x ≠ Size256)
      then Some (out, Some (errors_New "string is not 32 bytes"))
      else out ← conv8to32 out x; Some (out, None)
  end.

(** The strings the specification accepts: exactly 64 hexadecimal
    characters, in either case. *)
Definition is_hex_digit (c : ascii) : bool :=
  existsb (Ascii.eqb c) (list_ascii_of_string "0123456789abcdefABCDEF").

Definition valid_hex (s : string) : bool :=
  (String.length s =? 64)%nat && forallb is_hex_digit (list_ascii_of_string s).

End Hash256.

(** ** block/block.go *)

Module Block.

Record Hdr := mkHdr {
  Version : Z;
  Prev : Hash256.Hash256;
  Merkle : Hash256.Hash256;
  Time : Z;
  Target : Z;
  Nonce : Z
}.

Definition New (prev merkle : Hash256.Hash256) (version time target nonce : Z) : Hdr :=
  {| Version := version; Prev := prev; Merkle := merkle;
     Time := time; Target := target; Nonce := nonce |}.

(** Modelled from the spec: [binary.LittleEndian.PutUint32] of Go's
    [encoding/binary], which [Bytes] calls and which is not among the
    sources of the repository.  The specification has the header fields
    little-endian-encoded; the model follows the library, which checks
    [b[3]] first and then stores the four bytes of [v], the least
    significant at [b[0]]. *)
Definition PutUint32 (b : list byte) (v : Z) : option (list byte) :=
  _ ← index b 3;
  b ← store b 0 (uint8 v);
  b ← store b 1 (uint8 (v ≫ 8));
  b ← store b 2 (uint8 (v ≫ 16));
  store b 3 (uint8 (v ≫ 24)).

Definition Bytes (h : Hdr) : option (list byte) :=
  let x := replicate (4 + 32 + 32 + 4 + 4 + 4) x00 in
  x ← on_slice x 0 (0 + 4) (λ b, PutUint32 b (Version h));
  x ← on_slice x 4 (4 + 32) (Hash256.Copy (Prev h));
  x ← on_slice x 36 (36 + 32) (Hash256.Copy (Merkle h));
  x ← on_slice x 68 (68 + 4) (λ b, PutUint32 b (Time h));
  x ← on_slice x 72 (72 + 4) (λ b, PutUint32 b (Target h));
  x ← on_slice x 76 (76 + 4) (λ b, PutUint32 b (Nonce h));
  slice x 0 (len x).

(** The statements of [mine] from [block.New] to the second hash, on the
    fields [mine] has parsed and computed: the header bytes [x], [hash0]
    and [hash1]. *)
Definition mine_hashes (prev merkle : Hash256.Hash256) (version time target nonce : Z)
  : option (list byte * list byte * list byte) :=
  let h := New prev merkle version time target nonce in
  x ← Bytes h;
  hash0 ← Hash256.Sha2_256 x;
  hash1 ← Hash256.Sha2_256 hash0;
  Some (x, hash0, hash1).

(** The four bytes of a 32-bit word, least significant first. *)
Definition le32 (v : Z) : list byte :=
  [uint8 v; uint8 (v ≫ 8); uint8 (v ≫ 16); uint8 (v ≫ 24)].

(** The number that bytes hold, least significant first. *)
Definition le_value (bs : list byte) : Z :=
  fold_right (λ b acc, byte_to_Z b + 256 * acc) 0 bs.

(** The values of the Go type [Hdr]: four [uint32] fields and two arrays
    of eight [uint32]. *)
Definition valid (h : Hdr) : Prop :=
  0 ≤ Version h < 2 ^ 32 ∧ 0 ≤ Time h < 2 ^ 32
  ∧ 0 ≤ Target h < 2 ^ 32 ∧ 0 ≤ Nonce h < 2 ^ 32
  ∧ length (Prev h) = 8%nat ∧ Forall (λ x, 0 ≤ x < 2 ^ 32) (Prev h)
  ∧ length (Merkle h) = 8%nat ∧ Forall (λ x, 0 ≤ x < 2 ^ 32) (Merkle h).

End Block.

(** ** SHA-256 in the words of the specification

    A second, independent definition: the padding rule, the message
    schedule, the compression round and the digest serialization as the
    specification words them, on lists and tuples, without arrays, indices
    or loops.  The constants are computed from the primes. *)

Module Spec.

(** Big-endian encoding of [v] on [n] bytes. *)
Fixpoint be_encode (n : nat) (v : Z) : list byte :=
  match n with
  | O => []
  | S n' => be_encode n' (v / 256) ++ [uint8 v]
  end.

(** The unsigned integer a byte string denotes, most significant byte first. *)
Definition be_value (bs : list byte) : Z :=
  fold_left (λ acc b, acc * 256 + byte_to_Z b) bs 0.

(** The number of zero bytes between the [0x80] marker and the length
    field of an [n]-byte message. *)
Definition pad_zeros (n : Z) : nat := Z.to_nat ((55 - n) mod 64).

Definition padded (d : list byte) : list byte :=
  d ++ [x80] ++ replicate (pad_zeros (len d)) x00 ++ be_encode 8 (8 * len d).

(** The greatest [r] below [2 ^ bits] with [r ^ deg ≤ n]. *)
Fixpoint iroot (deg n : Z) (bits : nat) (r : Z) : Z :=
  match bits with
  | O => r
  | S b => let r' := r + 2 ^ Z.of_nat b in
           iroot deg n b (if r' ^ deg <=? n then r' else r)
  end.

Definition is_prime (p : Z) : bool :=
  (2 <=? p) && forallb (λ q, negb (p mod Z.of_nat q =? 0)) (seq 2 (Z.to_nat p - 2)).

Definition primes (bound : nat) : list Z :=
  filter (λ p, is_prime p = true) (map Z.of_nat (seq 0 bound)).

(** The first 32 bits of the fractional part of the [deg]-th root of [p]. *)
Definition frac_root (deg : Z) (p : Z) : Z :=
  iroot deg (p * 2 ^ (32 * deg)) 40 0 mod 2 ^ 32.

(** Initial chaining value: square roots of the first 8 primes. *)
Definition H0 : list Z := map (frac_root 2) (primes 20).

(** Round constants: cube roots of the first 64 primes. *)
Definition K : list Z := map (frac_root 3) (primes 312).

Definition rotr (x n : Z) : Z := (x ≫ n) ||| uint32 (x ≪ (32 - n)).

Definition sigma0 (x : Z) : Z := rotr x 7 ⊕ rotr x 18 ⊕ (x ≫ 3).
Definition sigma1 (x : Z) : Z := rotr x 17 ⊕ rotr x 19 ⊕ (x ≫ 10).
Definition Sigma0 (a : Z) : Z := rotr a 2 ⊕ rotr a 13 ⊕ rotr a 22.
Definition Sigma1 (e : Z) : Z := rotr e 6 ⊕ rotr e 11 ⊕ rotr e 25.
Definition Ch (e f g : Z) : Z := (e &&& f) ⊕ (not32 e &&& g).
Definition Maj (a b c : Z) : Z := (a &&& b) ⊕ (a &&& c) ⊕ (b &&& c).

(** The big-endian 32-bit words of a byte string. *)
Fixpoint words (bs : list byte) : list Z :=
  match bs with
  | b0 :: b1 :: b2 :: b3 :: bs' => be_value [b0; b1; b2; b3] :: words bs'
  | _ => []
  end.

(** The first [n] 64-byte blocks of a byte string. *)
Fixpoint blocks (n : nat) (bs : list byte) : list (list byte) :=
  match n with
  | O => []
  | S n' => take 64 bs :: blocks n' (drop 64 bs)
  end.

(** [w[i] = w[i-16] + σ0(w[i-15]) + w[i-7] + σ1(w[i-2])], where [i] is the
    number of words already known. *)
Definition next_w (w : list Z) : Z :=
  let i := length w in
  nth (i - 16) w 0 ⊞ sigma0 (nth (i - 15) w 0) ⊞ nth (i - 7) w 0 ⊞ sigma1 (nth (i - 2) w 0).

Fixpoint extend (n : nat) (w : list Z) : list Z :=
  match n with
  | O => w
  | S n' => extend n' (w ++ [next_w w])
  end.

Definition schedule (block : list byte) : list Z := extend 48 (words block).

Definition regs : Type := Z * Z * Z * Z * Z * Z * Z * Z.

Definition round (r : regs) (kw : Z * Z) : regs :=
  let '(a, b, c, d, e, f, g, h) := r in
  let t1 := h ⊞ Sigma1 e ⊞ Ch e f g ⊞ kw.1 ⊞ kw.2 in
  let t2 := Sigma0 a ⊞ Maj a b c in
  (t1 ⊞ t2, a, b, c, d ⊞ t1, e, f, g).

Definition fold_in (H r : regs) : regs :=
  let '(h0, h1, h2, h3, h4, h5, h6, h7) := H in
  let '(a, b, c, d, e, f, g, h) := r in
  (h0 ⊞ a, h1 ⊞ b, h2 ⊞ c, h3 ⊞ d, h4 ⊞ e, h5 ⊞ f, h6 ⊞ g, h7 ⊞ h).

Definition compress (H : regs) (block : list byte) : regs :=
  fold_in H (fold_left round (zip K (schedule block)) H).

Definition regs_of (l : list Z) : regs :=
  (nth 0 l 0, nth 1 l 0, nth 2 l 0, nth 3 l 0, nth 4 l 0, nth 5 l 0, nth 6 l 0, nth 7 l 0).

Definition words_of (r : regs) : list Z :=
  let '(a, b, c, d, e, f, g, h) := r in [a; b; c; d; e; f; g; h].

Definition digest (H : regs) : list byte :=
  concat (map (be_encode 4) (words_of H)).

Definition sha256 (d : list byte) : list byte :=
  let m := padded d in
  digest (fold_left compress (blocks (length m / 64) m) (regs_of H0)).

End Spec.


(** ** sha2/sha2.go on a store: who owns the bytes

    [append] writes into the backing array of its argument when the
    capacity allows and allocates a new array otherwise, so [pad512] may
    write to memory the caller can reach.  This model keeps the backing
    arrays in a store and a slice as its Go header.  The arrays [data32],
    [w], [work], [h] and [out] of [Sha2_256] are created inside the call and
    stay values. *)

Module Mem.

Record slice_hdr := SliceHdr { arr : nat; off : nat; length_ : nat; cap : nat }.

(** The elements a slice header gives access to by indexing. *)
Definition contents (m : gmap nat (list byte)) (s : slice_hdr) : option (list byte) :=
  a ← m !! arr s;
  if decide (length_ s ≤ cap s ∧ off s + cap s ≤ length a)%nat
  then Some (take (length_ s) (drop (off s) a)) else None.

(** [s[i] = v]. *)
Definition store (m : gmap nat (list byte)) (s : slice_hdr) (i : Z) (v : byte)
  : option (gmap nat (list byte)) :=
  a ← m !! arr s;
  if decide (0 ≤ i < Z.of_nat (length_ s))
  then Some (<[arr s := <[(off s + Z.to_nat i)%nat := v]> a]> m) else None.

(** [append(s, make([]byte, pad)...)].  A grown slice gets an array of its
    own; how much spare capacity the runtime gives it is not observable
    here and the model gives none. *)
Definition append_zeros (m : gmap nat (list byte)) (s : slice_hdr) (pad : nat)
  : option (gmap nat (list byte) * slice_hdr) :=
  a ← m !! arr s;
  if decide (length_ s + pad ≤ cap s)%nat then
    let e := (off s + length_ s)%nat in
    Some (<[arr s := take e a ++ replicate pad x00 ++ drop (e + pad) a]> m,
          SliceHdr (arr s) (off s) (length_ s + pad) (cap s))
  else
    let l := fresh (dom m) in
    Some (<[l := take (length_ s) (drop (off s) a) ++ replicate pad x00]> m,
          SliceHdr l 0 (length_ s + pad) (length_ s + pad)).

Definition pad512 (m : gmap nat (list byte)) (data : slice_hdr)
  : option (gmap nat (list byte) * slice_hdr) :=
  let n := uint64 (Z.of_nat (length_ data)) in
  let pad := uint64 (64 - n mod 64) in
  let pad := if pad <? 9 then uint64 (pad + 64) else pad in
  '(m, data) ← append_zeros m data (Z.to_nat pad);
  m ← store m data n x80;
  let end_ := uint64 (n + pad - 1) in
  let n := uint64 (n * 8) in
  m ← store m data (uint64 (end_ - 7)) (uint8 (n ≫ 56));
  m ← store m data (uint64 (end_ - 6)) (uint8 (n ≫ 48));
  m ← store m data (uint64 (end_ - 5)) (uint8 (n ≫ 40));
  m ← store m data (uint64 (end_ - 4)) (uint8 (n ≫ 32));
  m ← store m data (uint64 (end_ - 3)) (uint8 (n ≫ 24));
  m ← store m data (uint64 (end_ - 2)) (uint8 (n ≫ 16));
  m ← store m data (uint64 (end_ - 1)) (uint8 (n ≫ 8));
  m ← store m data (uint64 (end_ - 0)) (uint8 (n ≫ 0));
  Some (m, data).

Definition Sha2_256 (m : gmap nat (list byte)) (data : slice_hdr)
  : option (gmap nat (list byte) * list byte) :=
  '(m, data) ← pad512 m data;
  bytes ← contents m data;
  out ← Sha2.hash_padded bytes;
  Some (m, out).

End Mem.

(** ** base58/base58.go *)

Module Base58.

Definition chars : string := "123456789ABCDEFGHJKLMNPQRSTUVWXYZabcdefghijkmnopqrstuvwxyz".
Definition nChars : Z := Z.of_nat (String.length chars).

(** [var revChars [128]int8] after [init]; [None] would be a panic during
    initialisation.  [chars] is ASCII, so [range chars] yields each byte
    with its position. *)
Definition revChars : option (list Z) :=
  let revChars := replicate 128 0 in
  revChars ← for_loop 0 (length revChars) (λ i revChars, store revChars i (-1)) revChars;
  for_loop 0 (String.length chars)
    (λ i revChars,
       c ← index (list_byte_of_string chars) i;
       store revChars (byte_to_Z c) (int8 i)) revChars.

(** [for ; i < len(s); i++ { if s[i] != 0 { break } }], with [n] the number
    of indices from [i] to the end of [s]; the result is the final [i]. *)
Fixpoint first_nonzero (s : list byte) (n : nat) (i : Z) : option Z :=
  match n with
  | O => Some i
  | S n' =>
      b ← index s i;
      if decide (byte_to_Z b ≠ 0) then Some i else first_nonzero s n' (i + 1)
  end.

(** [make([]byte, size)]. *)
Definition make (size : Z) : option (list byte) :=
  if decide (size < 0) then None else Some (replicate (Z.to_nat size) x00).

(** [for j = ...; (j > high) || (carry != 0); j-- { ...; if j == 0 { break } }]
    with its state [(buf, j, carry)] returned at the exit.  [n] counts the
    cells from [j] down to cell 0, so [n = j + 1]; with no cell left the
    index [j] is [-1] and the body panics. *)
Fixpoint carry_loop (n : nat) (buf : list byte) (high carry j : Z)
  : option (list byte * Z * Z) :=
  if (high <? j) || negb (carry =? 0) then
    match n with
    | O => _ ← index buf j; None
    | S n' =>
        b ← index buf j;
        let carry := carry + (byte_to_Z b ≪ 8) in
        buf ← store buf j (uint8 (Z.rem carry nChars));
        let carry := carry ÷ nChars in
        if j =? 0 then Some (buf, j, carry)
        else carry_loop n' buf high carry (j - 1)
    end
  else Some (buf, j, carry).

(** The body of [for i := zeroes; i < len(data); i++] on [(buf, high)]. *)
Definition encode_byte (data : list byte) (i : Z) (st : list byte * Z)
  : option (list byte * Z) :=
  let '(buf, high) := st in
  b ← index data i;
  let carry := byte_to_Z b in
  '(buf, j, _) ← carry_loop (length buf) buf high carry (len buf - 1);
  Some (buf, j).

Definition Encode (data : list byte) : option string :=
  zeroes ← first_nonzero data (length data) 0;
  buf ← make (int (int (int (len data - zeroes) * 137) ÷ 100 + 1));
  let high := len buf - 1 in
  '(buf, _) ← for_loop zeroes (Z.to_nat (len data - zeroes)) (encode_byte data) (buf, high);
  i ← first_nonzero buf (length buf) 0;
  buf ← slice buf i (len buf);
  encode ← make (int (zeroes + len buf));
  encode ← for_loop 0 (Z.to_nat zeroes) (λ i encode, store encode i "1"%byte) encode;
  encode ← for_loop zeroes (Z.to_nat (len encode - zeroes))
              (λ i encode,
                 d ← index buf (i - zeroes);
                 c ← index (list_byte_of_string chars) (byte_to_Z d);
                 store encode i c) encode;
  Some (string_of_list_byte encode).

(** [Decode] returns the pair [(data, err)]; [None] in the first component
    is the nil slice. *)
Definition Decode (s : string) : option (list byte) * option string :=
  if decide (String.length s = 0%nat) then (None, Some "no input"%string)
  else (None, None).

(** The base-58 digits of [v], most significant first, none for 0: the
    remainders of the repeated division by 58. *)
Fixpoint digits58 (fuel : nat) (v : Z) (acc : list Z) : list Z :=
  match fuel with
  | O => acc
  | S fuel' => if v <=? 0 then acc else digits58 fuel' (v / 58) (v mod 58 :: acc)
  end.

Definition to_base58 (v : Z) : list Z := digits58 (Z.to_nat (Z.log2 v) + 1) v [].

(** The value of a digit string in base 58, most significant first. *)
Definition value58 (ds : list Z) : Z := fold_left (λ acc d, acc * 58 + d) ds 0.

(** The character of a digit in the alphabet of the specification. *)
Definition alphabet : list ascii :=
  list_ascii_of_string "123456789ABCDEFGHJKLMNPQRSTUVWXYZabcdefghijkmnopqrstuvwxyz".

Definition symbol (d : Z) : ascii := nth (Z.to_nat d) alphabet "1"%char.

(** The value held by a buffer of digit cells. *)
Definition cells_value (buf : list byte) : Z := value58 (map byte_to_Z buf).

(** A cell that holds a digit. *)
Definition is_digit (b : byte) : Prop := byte_to_Z b < 58.

(** The cells of [buf] up to index [high] hold zero. *)
Definition zero_upto (high : Z) (buf : list byte) : Prop :=
  ∀ (i : nat) (b : byte), buf !! i = Some b → Z.of_nat i ≤ high → byte_to_Z b = 0.

(** The byte that [chars] holds for the digit cell [d]. *)
Definition symbol_byte (d : byte) : byte :=
  default "1"%byte (list_byte_of_string chars !! Z.to_nat (byte_to_Z d)).

(** The number of leading zero bytes. *)
Fixpoint leading_zeros (d : list byte) : nat :=
  match d with
  | b :: d' => if byte_to_Z b =? 0 then S (leading_zeros d') else O
  | [] => O
  end.

(** [encode] in the words of the specification. *)
Definition encoded (d : list byte) : string :=
  let z := leading_zeros d in
  string_of_list_ascii
    (replicate z "1"%char ++ map symbol (to_base58 (Spec.be_value (drop z d)))).

End Base58.

(** ** Known answers of the specification *)

(** The standard digest of the empty string. *)
Definition empty_digest_hex : string :=
  "e3b0c44298fc1c149afbf4c8996fb92427ae41e4649b934ca495991b7852b855".

(** The same digest as the known-answer test of the specification restates
    it, one character short. *)
Definition empty_digest_restated : string :=
  "e3b0c44298fc1c149afbf4c8996fb92427ae41e4649b934ca495991b7852b85".

Definition abc_digest_hex : string :=
  "ba7816bf8f01cfea414140de5dae2223b00361a396177a9cb410ff61f20015ad".

(** The header that [mine] builds, block 125552 of the Bitcoin chain: the
    two strings handed to [FromString], the time [uint32(t.Unix() + 31)]
    for [t] the 21st of May 2011, 10:26 in Los Angeles (17:26 UTC), and the
    double hash of the 80 bytes, which ends in eight zero bytes. *)
Definition mine_prev : string :=
  "81cd02ab7e569e8bcd9317e2fe99f2de44d49ab2b8851ba4a308000000000000".

Definition mine_merkle : string :=
  "e320b6c2fffc8d750423db8b1eb942ae710e951ed797f7affc8892b0f1fc122b".

Definition mine_time : Z := uint32 (1305998760 + 31).

Definition mine_hash1 : string :=
  "1dbd981fe6985776b644b173a4d0385ddc1aa2a829688d1e0000000000000000".

(** * Proofs *)

(** ** Bytes and machine integers *)

Lemma byte_to_Z_range (b : byte) : 0 ≤ byte_to_Z b < 256.
Proof.
  unfold byte_to_Z. pose proof (Byte.to_N_bounded b). lia.
Qed.

Lemma byte_to_Z_uint8 (z : Z) : byte_to_Z (uint8 z) = z mod 256.
Proof.
  unfold uint8, byte_to_Z.
  pose proof (Z.mod_pos_bound z 256 eq_refl) as Hr.
  destruct (Byte.of_N (Z.to_N (z mod 256))) as [b|] eqn:E.
  - apply Byte.to_of_N in E. simpl. rewrite E. lia.
  - apply Byte.of_N_None_iff in E. lia.
Qed.

Lemma uint8_byte_to_Z (b : byte) : uint8 (byte_to_Z b) = b.
Proof.
  unfold uint8. rewrite Z.mod_small by apply byte_to_Z_range.
  unfold byte_to_Z. rewrite N2Z.id, Byte.of_to_N. reflexivity.
Qed.

Lemma byte_to_Z_inj (b c : byte) : byte_to_Z b = byte_to_Z c → b = c.
Proof.
  intros E. rewrite <- (uint8_byte_to_Z b), <- (uint8_byte_to_Z c). by rewrite E.
Qed.

Lemma uint8_mod (z : Z) : uint8 (z mod 256) = uint8 z.
Proof. unfold uint8. by rewrite Z.mod_mod. Qed.

Lemma uint64_small (z : Z) : 0 ≤ z < 2 ^ 64 → uint64 z = z.
Proof. intros. unfold uint64. by apply Z.mod_small. Qed.

Lemma uint32_small (z : Z) : 0 ≤ z < 2 ^ 32 → uint32 z = z.
Proof. intros. unfold uint32. by apply Z.mod_small. Qed.

Lemma int_small (z : Z) : - 2 ^ 63 ≤ z < 2 ^ 63 → int z = z.
Proof. intros. unfold int. rewrite Z.mod_small; lia. Qed.

(** ** Slices *)

Lemma index_nat {A} (s : list A) (n : nat) : index s (Z.of_nat n) = s !! n.
Proof.
  unfold index. rewrite decide_True by lia. by rewrite Nat2Z.id.
Qed.

Lemma index_eq {A} (s : list A) (i : Z) (n : nat) :
  i = Z.of_nat n → index s i = s !! n.
Proof. intros ->. apply index_nat. Qed.

Lemma index_is_Some {A} (s : list A) (i : Z) x :
  index s i = Some x → 0 ≤ i < len s.
Proof.
  unfold index, len. case_decide; [|done]. intros E%lookup_lt_Some. lia.
Qed.

Lemma store_eq {A} (s : list A) (i : Z) (n : nat) v :
  i = Z.of_nat n → (n < length s)%nat → store s i v = Some (<[n := v]> s).
Proof.
  intros -> ?. unfold store. rewrite decide_True by lia. by rewrite Nat2Z.id.
Qed.

Lemma store_length {A} (s s' : list A) i v :
  store s i v = Some s' → length s' = length s.
Proof.
  unfold store. case_decide; [|done]. intros [= <-]. apply length_insert.
Qed.

Lemma store_app_r {A} (l1 l2 : list A) (i j : Z) v :
  i = len l1 + j → 0 ≤ j →
  store (l1 ++ l2) i v = (l1 ++.) <$> store l2 j v.
Proof.
  intros -> Hj. unfold store, len. rewrite length_app.
  destruct (decide (0 ≤ j < Z.of_nat (length l2))).
  - rewrite decide_True by lia. simpl. f_equal.
    rewrite insert_app_r_alt by lia. do 2 f_equal. lia.
  - rewrite decide_False by lia. done.
Qed.

(** ** Loops *)

Lemma for_loop_inv {St} (P : Z → St → Prop) (body : Z → St → option St) lo n s :
  P lo s →
  (∀ i s, lo ≤ i < lo + Z.of_nat n → P i s → ∃ s', body i s = Some s' ∧ P (i + 1) s') →
  ∃ s', for_loop lo n body s = Some s' ∧ P (lo + Z.of_nat n) s'.
Proof.
  revert lo s. induction n as [|n IH]; intros lo s H0 Hstep.
  - exists s. split; [done|]. by replace (lo + Z.of_nat 0) with lo by lia.
  - destruct (Hstep lo s) as (s1 & E1 & H1); [lia|done|].
    destruct (IH (lo + 1) s1) as (s2 & E2 & H2); [done| |].
    + intros i s' ? ?. apply Hstep; [lia|done].
    + exists s2. simpl. rewrite E1. simpl. split; [done|].
      by replace (lo + Z.of_nat (S n)) with (lo + 1 + Z.of_nat n) by lia.
Qed.

Lemma for_loop_ext {St} (f g : Z → St → option St) lo n s :
  (∀ i s, lo ≤ i < lo + Z.of_nat n → f i s = g i s) →
  for_loop lo n f s = for_loop lo n g s.
Proof.
  revert lo s. induction n as [|n IH]; intros lo s H; [done|].
  simpl. rewrite H by lia. destruct (g lo s) as [s'|]; [|done]. simpl.
  apply IH. intros. apply H. lia.
Qed.

(** ** Big-endian encoding *)

Lemma be_value_snoc bs b :
  Spec.be_value (bs ++ [b]) = Spec.be_value bs * 256 + byte_to_Z b.
Proof. unfold Spec.be_value. by rewrite fold_left_app. Qed.

Lemma be_encode_length n v : length (Spec.be_encode n v) = n.
Proof.
  revert v. induction n as [|n IH]; intros v; [done|].
  simpl. rewrite length_app, IH. simpl. lia.
Qed.

(** [be_encode] is the encoding that [be_value] reads back. *)
Lemma be_value_encode n v :
  Spec.be_value (Spec.be_encode n v) = v mod 256 ^ Z.of_nat n.
Proof.
  revert v. induction n as [|n IH]; intros v.
  - simpl. by rewrite Z.mod_1_r.
  - simpl Spec.be_encode. rewrite be_value_snoc, IH, byte_to_Z_uint8.
    rewrite Nat2Z.inj_succ, Z.pow_succ_r by lia.
    assert (0 < 256 ^ Z.of_nat n) by (apply Z.pow_pos_nonneg; lia).
    rewrite Z.rem_mul_r by lia. lia.
Qed.

Lemma be_encode_8 v :
  Spec.be_encode 8 v =
  [uint8 (v ≫ 56); uint8 (v ≫ 48); uint8 (v ≫ 40); uint8 (v ≫ 32);
   uint8 (v ≫ 24); uint8 (v ≫ 16); uint8 (v ≫ 8); uint8 (v ≫ 0)].
Proof.
  rewrite !Z.shiftr_div_pow2 by lia. simpl Spec.be_encode.
  rewrite !Z.div_div by lia. rewrite Z.div_1_r. reflexivity.
Qed.

Lemma be_encode_4 v :
  Spec.be_encode 4 v = [uint8 (v ≫ 24); uint8 (v ≫ 16); uint8 (v ≫ 8); uint8 (v ≫ 0)].
Proof.
  rewrite !Z.shiftr_div_pow2 by lia. simpl Spec.be_encode.
  rewrite !Z.div_div by lia. rewrite Z.div_1_r. reflexivity.
Qed.

(** ** [pad512] *)

Lemma store_app_l {A} (l1 l2 : list A) (i : Z) v :
  i < len l1 → store (l1 ++ l2) i v = (.++ l2) <$> store l1 i v.
Proof.
  intros Hi. unfold store, len in *. rewrite length_app.
  destruct (decide (0 ≤ i < Z.of_nat (length l1))).
  - rewrite decide_True by lia. simpl. f_equal.
    apply insert_app_l. lia.
  - rewrite decide_False by lia. done.
Qed.

Lemma store_middle {A} (l1 l2 : list A) x (i : Z) v :
  i = len l1 → store (l1 ++ x :: l2) i v = Some (l1 ++ v :: l2).
Proof.
  intros ->. unfold store, len. rewrite length_app. simpl.
  rewrite decide_True by lia. f_equal.
  rewrite Nat2Z.id, insert_app_r_alt by lia. by rewrite Nat.sub_diag.
Qed.

Lemma store_tail8 (pre : list byte) (e : Z) v0 v1 v2 v3 v4 v5 v6 v7 :
  e = len pre + 7 → e < 2 ^ 64 →
  (data ← store (pre ++ replicate 8 x00) (uint64 (e - 7)) v0;
   data ← store data (uint64 (e - 6)) v1;
   data ← store data (uint64 (e - 5)) v2;
   data ← store data (uint64 (e - 4)) v3;
   data ← store data (uint64 (e - 3)) v4;
   data ← store data (uint64 (e - 2)) v5;
   data ← store data (uint64 (e - 1)) v6;
   data ← store data (uint64 (e - 0)) v7;
   Some data) = Some (pre ++ [v0; v1; v2; v3; v4; v5; v6; v7]).
Proof.
  intros -> He. unfold len in *.
  rewrite !uint64_small by lia.
  rewrite (store_app_r pre _ _ 0) by (unfold len; lia). simpl.
  rewrite (store_app_r pre _ _ 1) by (unfold len; lia). simpl.
  rewrite (store_app_r pre _ _ 2) by (unfold len; lia). simpl.
  rewrite (store_app_r pre _ _ 3) by (unfold len; lia). simpl.
  rewrite (store_app_r pre _ _ 4) by (unfold len; lia). simpl.
  rewrite (store_app_r pre _ _ 5) by (unfold len; lia). simpl.
  rewrite (store_app_r pre _ _ 6) by (unfold len; lia). simpl.
  rewrite (store_app_r pre _ _ 7) by (unfold len; lia). simpl.
  reflexivity.
Qed.

Lemma pad512_pad (n : Z) :
  0 ≤ n < 2 ^ 63 →
  (if uint64 (64 - uint64 n mod 64) <? 9
   then uint64 (uint64 (64 - uint64 n mod 64) + 64)
   else uint64 (64 - uint64 n mod 64)) = Z.of_nat (Spec.pad_zeros n) + 9.
Proof.
  intros Hn. unfold uint64, Spec.pad_zeros.
  change (2 ^ 64) with 18446744073709551616.
  change (2 ^ 63) with 9223372036854775808 in Hn.
  rewrite Z2Nat.id by (apply Z.mod_pos_bound; lia).
  destruct (Z.ltb_spec ((64 - n mod 18446744073709551616 mod 64) mod 18446744073709551616) 9);
    Z.div_mod_to_equations; lia.
Qed.

(** What [pad512] returns on a slice of at most [2^63 - 1] bytes (the
    largest length a Go slice can have): the message, the marker, the
    zeros and the low 64 bits of the bit length. *)
Lemma pad512_bytes (d : list byte) :
  len d < 2 ^ 63 →
  pad512 d = Some (d ++ [x80] ++ replicate (Spec.pad_zeros (len d)) x00
                     ++ Spec.be_encode 8 (uint64 (len d * 8))).
Proof.
  intros Hd. assert (0 ≤ len d) by (unfold len; lia).
  unfold pad512. cbv zeta.
  rewrite (pad512_pad (len d)) by lia.
  set (z := Spec.pad_zeros (len d)).
  assert (Hz : (z < 64)%nat).
  { subst z. unfold Spec.pad_zeros.
    pose proof (Z.mod_pos_bound (55 - len d) 64 eq_refl). lia. }
  rewrite (uint64_small (len d)) by lia.
  replace (Z.to_nat (Z.of_nat z + 9)) with (S z + 8)%nat by lia.
  rewrite replicate_add, app_assoc. simpl (replicate (S z) x00).
  rewrite store_app_l by (unfold len; rewrite length_app; simpl; lia).
  rewrite store_middle by done.
  cbn [fmap option_fmap option_map mbind option_bind].
  rewrite store_tail8.
  - rewrite be_encode_8. by rewrite <- app_assoc.
  - rewrite uint64_small by lia.
    unfold len. rewrite length_app. simpl. rewrite length_replicate. lia.
  - unfold uint64. apply Z.mod_pos_bound. lia.
Qed.

Lemma padded_length (d : list byte) :
  len (Spec.padded d) = len d + 1 + Z.of_nat (Spec.pad_zeros (len d)) + 8.
Proof.
  unfold Spec.padded, len. rewrite !length_app, length_replicate, be_encode_length.
  simpl. lia.
Qed.

Lemma padded_length_mod (d : list byte) : len (Spec.padded d) mod 64 = 0.
Proof.
  rewrite padded_length. unfold Spec.pad_zeros.
  rewrite Z2Nat.id by (apply Z.mod_pos_bound; lia).
  Z.div_mod_to_equations; lia.
Qed.

Lemma pad512_padded (d : list byte) :
  len d < 2 ^ 61 → pad512 d = Some (Spec.padded d).
Proof.
  intros Hd. assert (0 ≤ len d) by (unfold len; lia).
  rewrite pad512_bytes by lia.
  rewrite uint64_small by lia. unfold Spec.padded. by rewrite (Z.mul_comm 8).
Qed.

(** ** Words from bytes and back *)

Lemma lor_add (h lo n : Z) :
  0 ≤ n → 0 ≤ lo < 2 ^ n → (h * 2 ^ n) ||| lo = h * 2 ^ n + lo.
Proof.
  intros Hn Hlo.
  rewrite <- Z.lxor_lor, <- Z.add_nocarry_lxor; [done| |];
    (apply Z.bits_inj'; intros i Hi; rewrite Z.land_spec, Z.bits_0;
     destruct (Z.lt_ge_cases i n);
     [ rewrite <- Z.shiftl_mul_pow2, Z.shiftl_spec_low by lia; done
     | rewrite <- (Z.mod_small lo (2 ^ n)), (Z.mod_pow2_bits_high lo n i) by lia;
       apply andb_false_r ]).
Qed.

Lemma load_word (b0 b1 b2 b3 : byte) :
  uint32 (byte_to_Z b0 ≪ 24) ||| uint32 (byte_to_Z b1 ≪ 16)
    ||| uint32 (byte_to_Z b2 ≪ 8) ||| uint32 (byte_to_Z b3 ≪ 0)
  = Spec.be_value [b0; b1; b2; b3].
Proof.
  pose proof (byte_to_Z_range b0). pose proof (byte_to_Z_range b1).
  pose proof (byte_to_Z_range b2). pose proof (byte_to_Z_range b3).
  rewrite !Z.shiftl_mul_pow2 by lia.
  rewrite !uint32_small by lia.
  set (x0 := byte_to_Z b0) in *. set (x1 := byte_to_Z b1) in *.
  set (x2 := byte_to_Z b2) in *. set (x3 := byte_to_Z b3) in *.
  rewrite (lor_add x0 (x1 * 2 ^ 16) 24) by lia.
  replace (x0 * 2 ^ 24 + x1 * 2 ^ 16) with ((x0 * 256 + x1) * 2 ^ 16) by lia.
  rewrite (lor_add _ (x2 * 2 ^ 8) 16) by lia.
  replace ((x0 * 256 + x1) * 2 ^ 16 + x2 * 2 ^ 8)
    with (((x0 * 256 + x1) * 256 + x2) * 2 ^ 8) by lia.
  rewrite (lor_add _ (x3 * 2 ^ 0) 8) by lia.
  unfold Spec.be_value. simpl fold_left. fold x0 x1 x2 x3. lia.
Qed.

Lemma for_loop_inv_nat {St} (P : nat → St → Prop) (body : Z → St → option St) lo n s :
  P O s →
  (∀ j s, (j < n)%nat → P j s → ∃ s', body (lo + Z.of_nat j) s = Some s' ∧ P (S j) s') →
  ∃ s', for_loop lo n body s = Some s' ∧ P n s'.
Proof.
  intros H0 Hstep.
  destruct (for_loop_inv (λ i s, ∃ j, i = lo + Z.of_nat j ∧ P j s) body lo n s)
    as (s' & E & j & Hj & HP).
  - exists O. split; [lia|done].
  - intros i s0 Hi (j & -> & HP).
    destruct (Hstep j s0) as (s1 & E1 & H1); [lia|done|].
    exists s1. split; [done|]. exists (S j). split; [lia|done].
  - exists s'. split; [done|]. by replace n with j by lia.
Qed.

(** Writing cell [j] of an array whose first [j] cells already hold the
    first [j] elements of [T]. *)
Lemma fill_step {A} (T : list A) (d : A) (n j : nat) (x : A) :
  T !! j = Some x → (j < n)%nat →
  store (take j T ++ replicate (n - j) d) (Z.of_nat j) x
  = Some (take (S j) T ++ replicate (n - S j) d).
Proof.
  intros HT Hj. pose proof (lookup_lt_Some _ _ _ HT).
  replace (n - j)%nat with (S (n - S j)) by lia. simpl replicate.
  rewrite store_middle by (unfold len; rewrite length_take; lia).
  rewrite (take_S_r _ _ _ HT), <- app_assoc. done.
Qed.

Lemma filled_lookup {A} (T : list A) (d : A) (n j i : nat) :
  (i < j)%nat → (j ≤ length T)%nat →
  (take j T ++ replicate (n - j) d) !! i = T !! i.
Proof.
  intros. rewrite lookup_app_l by (rewrite length_take; lia).
  by apply lookup_take_lt.
Qed.

Lemma index_shift {A} (pre s : list A) (i j : Z) :
  i = len pre + j → 0 ≤ j → index (pre ++ s) i = index s j.
Proof.
  intros -> Hj. unfold index, len. rewrite !decide_True by lia.
  rewrite lookup_app_r by lia. f_equal. lia.
Qed.

Lemma load32_shift (pre src : list byte) (i j : Z) :
  i = len pre + j → 0 ≤ j → load32 (pre ++ src) i = load32 src j.
Proof.
  intros -> Hj. unfold load32.
  rewrite (index_shift pre src (len pre + j + 0) (j + 0)),
    (index_shift pre src (len pre + j + 1) (j + 1)),
    (index_shift pre src (len pre + j + 2) (j + 2)),
    (index_shift pre src (len pre + j + 3) (j + 3)) by lia.
  done.
Qed.

Lemma words_length (src : list byte) (n : nat) :
  length src = (4 * n)%nat → length (Spec.words src) = n.
Proof.
  revert src. induction n as [|n IH]; intros src H.
  - by destruct src.
  - destruct src as [|b0 [|b1 [|b2 [|b3 src]]]]; simpl in H; try lia.
    simpl. f_equal. apply IH. lia.
Qed.

(** [load32] at byte offset [4 i] reads the [i]-th word. *)
Lemma load32_words (src : list byte) (i : nat) :
  (4 * i + 4 ≤ length src)%nat →
  ∃ x, load32 src (Z.of_nat i * 4) = Some x ∧ Spec.words src !! i = Some x.
Proof.
  revert src. induction i as [|i IH]; intros src H;
    destruct src as [|b0 [|b1 [|b2 [|b3 src]]]]; simpl in H; try lia.
  - eexists. split; [|reflexivity].
    unfold load32. simpl. by rewrite load_word.
  - destruct (IH src) as (x & E1 & E2); [lia|].
    exists x. split; [|done].
    rewrite <- E1.
    apply (load32_shift [b0; b1; b2; b3] src); [unfold len; simpl; lia | lia].
Qed.

Lemma conv8to32_words (src : list byte) (n : nat) :
  length src = (4 * n)%nat → len src < 2 ^ 63 →
  conv8to32 (replicate n 0) src = Some (Spec.words src).
Proof.
  intros Hlen Hsmall. unfold conv8to32, len in *. rewrite length_replicate.
  rewrite int_small by lia. rewrite decide_False by lia.
  pose proof (words_length src n Hlen) as HW.
  destruct (for_loop_inv_nat
    (λ j dst, dst = take j (Spec.words src) ++ replicate (n - j) 0)
    (λ i dst, x ← load32 src (i * 4); store dst i x) 0 n (replicate n 0))
    as (dst & E & ->).
  - by rewrite Nat.sub_0_r.
  - intros j dst Hj ->.
    destruct (load32_words src j) as (x & E1 & E2); [lia|].
    eexists. split; [|reflexivity].
    rewrite Z.add_0_l, E1. simpl. by apply fill_step.
  - rewrite E, Nat.sub_diag, app_nil_r. f_equal.
    apply take_ge. lia.
Qed.

(** ** The message schedule *)

Lemma RotateLeft32_neg (x n : Z) :
  0 < n < 32 → RotateLeft32 x (- n) = Spec.rotr x n.
Proof.
  intros Hn. unfold RotateLeft32, Spec.rotr.
  assert (uint64 (- n) &&& (32 - 1) = 32 - n) as ->.
  { change (32 - 1) with (Z.ones 5). rewrite Z.land_ones by lia.
    unfold uint64. change (2 ^ 64) with 18446744073709551616.
    change (2 ^ 5) with 32. Z.div_mod_to_equations; lia. }
  replace (32 - (32 - n)) with n by lia. apply Z.lor_comm.
Qed.

Lemma extend_length n w : length (Spec.extend n w) = (length w + n)%nat.
Proof.
  revert w. induction n as [|n IH]; intros w; simpl; [lia|].
  rewrite IH, length_app. simpl. lia.
Qed.

Lemma extend_prefix n w : take (length w) (Spec.extend n w) = w.
Proof.
  revert w. induction n as [|n IH]; intros w; simpl.
  - apply take_ge. lia.
  - replace (length w) with (Nat.min (length w) (length (w ++ [Spec.next_w w])))
      by (rewrite length_app; simpl; lia).
    rewrite <- take_take, IH. apply take_app_length.
Qed.

(** Every word past the first ones is [next_w] of the words before it. *)
Lemma extend_lookup n w j :
  (length w ≤ j < length w + n)%nat →
  Spec.extend n w !! j = Some (Spec.next_w (take j (Spec.extend n w))).
Proof.
  revert w. induction n as [|n IH]; intros w Hj; [lia|].
  simpl. destruct (decide (j = length w)) as [->|Hne].
  - pose proof (extend_prefix n (w ++ [Spec.next_w w])) as Hp.
    rewrite length_app in Hp. simpl in Hp.
    assert (take (length w) (Spec.extend n (w ++ [Spec.next_w w])) = w) as ->.
    { replace (length w) with (Nat.min (length w) (length w + 1)) by lia.
      rewrite <- take_take, Hp. apply take_app_length. }
    rewrite <- (lookup_take_lt _ (length w + 1)) by lia.
    rewrite Hp. by apply list_lookup_middle.
  - apply IH. rewrite length_app. simpl. lia.
Qed.

Lemma filled_index {A} (T : list A) (d d0 : A) (n t m : nat) (i : Z) :
  i = Z.of_nat t - Z.of_nat m → (0 < m ≤ t)%nat → (t ≤ length T)%nat →
  index (take t T ++ replicate (n - t) d) i = Some (nth (t - m) (take t T) d0).
Proof.
  intros -> Hm Ht.
  rewrite (index_eq _ _ (t - m)) by lia.
  rewrite lookup_app_l by (rewrite length_take; lia).
  destruct (nth_lookup_or_length (take t T) (t - m) d0) as [E|E]; [done|].
  rewrite length_take in E. lia.
Qed.

Lemma extend_loop (rot : Z → Z → Z) (W0 : list Z) :
  (∀ x n, 0 < n < 32 → rot x n = Spec.rotr x n) →
  length W0 = 16%nat →
  for_loop 16 48 (extend_step rot) (W0 ++ replicate 48 0) = Some (Spec.extend 48 W0).
Proof.
  intros Hrot HW0.
  pose proof (extend_length 48 W0) as HT.
  pose proof (extend_prefix 48 W0) as Hpre.
  pose proof (extend_lookup 48 W0) as Hlook.
  rewrite HW0 in HT, Hpre, Hlook.
  generalize dependent (Spec.extend 48 W0). intros T HT Hpre Hlook.
  destruct (for_loop_inv_nat
    (λ j w, w = take (16 + j) T ++ replicate (64 - (16 + j)) 0)
    (extend_step rot) 16 48 (W0 ++ replicate 48 0)) as (w & E & ->).
  - rewrite Nat.add_0_r, Hpre. done.
  - intros j w Hj ->. remember (16 + j)%nat as t eqn:Ht.
    eexists. split; [|reflexivity].
    unfold extend_step.
    rewrite (filled_index T 0 0 64 t 15 (16 + Z.of_nat j - 15)),
      (filled_index T 0 0 64 t 2 (16 + Z.of_nat j - 2)),
      (filled_index T 0 0 64 t 16 (16 + Z.of_nat j - 16)),
      (filled_index T 0 0 64 t 7 (16 + Z.of_nat j - 7)) by lia.
    cbn [mbind option_bind].
    rewrite !Hrot by lia.
    replace (16 + Z.of_nat j) with (Z.of_nat t) by lia.
    replace (16 + S j)%nat with (S t) by lia.
    apply fill_step; [|lia].
    rewrite Hlook by lia. f_equal.
    unfold Spec.next_w. rewrite length_take.
    replace (Nat.min t (length T)) with t by lia. done.
  - rewrite E. f_equal. rewrite take_ge by lia.
    change (64 - (16 + 48))%nat with O. apply app_nil_r.
Qed.

(** ** The compression function *)

#[local] Arguments uint32 : simpl never.
#[local] Arguments uint8 : simpl never.
#[local] Arguments add32 : simpl never.
#[local] Arguments not32 : simpl never.
#[local] Arguments RotateLeft32 : simpl never.
#[local] Arguments Sha2.rRotate : simpl never.
#[local] Arguments Spec.rotr : simpl never.
#[local] Arguments Z.shiftr : simpl never.
#[local] Arguments Z.shiftl : simpl never.
#[local] Arguments Z.mul : simpl never.
#[local] Arguments Z.add : simpl never.
#[local] Arguments Z.sub : simpl never.

Lemma constants_K : Spec.K = k.
Proof. vm_compute. reflexivity. Qed.

Lemma constants_H0 : Spec.H0 = hInit.
Proof. vm_compute. reflexivity. Qed.

Lemma RotateLeft32_Zneg (x : Z) (p : positive) :
  Z.pos p < 32 → RotateLeft32 x (Z.neg p) = Spec.rotr x (Z.pos p).
Proof. intros. apply (RotateLeft32_neg x (Z.pos p)). lia. Qed.

Lemma rRotate_rotr (x n : Z) : 0 < n < 32 → Sha2.rRotate x n = Spec.rotr x n.
Proof. apply RotateLeft32_neg. Qed.

(** Reads and writes at the eight positions of an array of eight. *)
Lemma index8_0 (a b c d e f g h : Z) : index [a; b; c; d; e; f; g; h] 0 = Some a.
Proof. reflexivity. Qed.

Lemma index8_1 (a b c d e f g h : Z) : index [a; b; c; d; e; f; g; h] 1 = Some b.
Proof. reflexivity. Qed.

Lemma index8_2 (a b c d e f g h : Z) : index [a; b; c; d; e; f; g; h] 2 = Some c.
Proof. reflexivity. Qed.

Lemma index8_3 (a b c d e f g h : Z) : index [a; b; c; d; e; f; g; h] 3 = Some d.
Proof. reflexivity. Qed.

Lemma index8_4 (a b c d e f g h : Z) : index [a; b; c; d; e; f; g; h] 4 = Some e.
Proof. reflexivity. Qed.

Lemma index8_5 (a b c d e f g h : Z) : index [a; b; c; d; e; f; g; h] 5 = Some f.
Proof. reflexivity. Qed.

Lemma index8_6 (a b c d e f g h : Z) : index [a; b; c; d; e; f; g; h] 6 = Some g.
Proof. reflexivity. Qed.

Lemma index8_7 (a b c d e f g h : Z) : index [a; b; c; d; e; f; g; h] 7 = Some h.
Proof. reflexivity. Qed.

Lemma store8_0 (a b c d e f g h v : Z) : store [a; b; c; d; e; f; g; h] 0 v = Some [v; b; c; d; e; f; g; h].
Proof. reflexivity. Qed.

Lemma store8_1 (a b c d e f g h v : Z) : store [a; b; c; d; e; f; g; h] 1 v = Some [a; v; c; d; e; f; g; h].
Proof. reflexivity. Qed.

Lemma store8_2 (a b c d e f g h v : Z) : store [a; b; c; d; e; f; g; h] 2 v = Some [a; b; v; d; e; f; g; h].
Proof. reflexivity. Qed.

Lemma store8_3 (a b c d e f g h v : Z) : store [a; b; c; d; e; f; g; h] 3 v = Some [a; b; c; v; e; f; g; h].
Proof. reflexivity. Qed.

Lemma store8_4 (a b c d e f g h v : Z) : store [a; b; c; d; e; f; g; h] 4 v = Some [a; b; c; d; v; f; g; h].
Proof. reflexivity. Qed.

Lemma store8_5 (a b c d e f g h v : Z) : store [a; b; c; d; e; f; g; h] 5 v = Some [a; b; c; d; e; v; g; h].
Proof. reflexivity. Qed.

Lemma store8_6 (a b c d e f g h v : Z) : store [a; b; c; d; e; f; g; h] 6 v = Some [a; b; c; d; e; f; v; h].
Proof. reflexivity. Qed.

Lemma store8_7 (a b c d e f g h v : Z) : store [a; b; c; d; e; f; g; h] 7 v = Some [a; b; c; d; e; f; g; v].
Proof. reflexivity. Qed.

Ltac step8 :=
  first [ rewrite index8_0 | rewrite index8_1 | rewrite index8_2 | rewrite index8_3
        | rewrite index8_4 | rewrite index8_5 | rewrite index8_6 | rewrite index8_7
        | rewrite store8_0 | rewrite store8_1 | rewrite store8_2 | rewrite store8_3
        | rewrite store8_4 | rewrite store8_5 | rewrite store8_6 | rewrite store8_7 ];
  cbn [mbind option_bind].

(** One round on the array [work] is one round of the specification. *)
Lemma round_array (w : list Z) (j kj wj : Z) (r : Spec.regs) :
  index k j = Some kj → index w j = Some wj →
  Sha2.round w j (Spec.words_of r) = Some (Spec.words_of (Spec.round r (kj, wj))).
Proof.
  intros Hk Hw. destruct r as [[[[[[[a b] c] d] e] f] g] h].
  unfold Sha2.round. cbn [Spec.words_of]. rewrite Hk, Hw.
  repeat step8. rewrite !rRotate_rotr by lia.
  reflexivity.
Qed.

(** One round on the eight local variables is one round of the
    specification. *)
Lemma round_locals (w : list Z) (i ki wi : Z) (r : Spec.regs) :
  index k i = Some ki → index w i = Some wi →
  Hash256.round w i r = Some (Spec.round r (ki, wi)).
Proof.
  intros Hk Hw. destruct r as [[[[[[[a b] c] d] e] f] g] h].
  unfold Hash256.round. rewrite Hk, Hw. cbn [mbind option_bind].
  rewrite !RotateLeft32_Zneg by done.
  reflexivity.
Qed.

Lemma rounds_loop {St} (body : Z → St → option St) (enc : Spec.regs → St)
    (W : list Z) (r0 : Spec.regs) :
  length W = 64%nat →
  (∀ j kj wj r, index k j = Some kj → index W j = Some wj →
     body j (enc r) = Some (enc (Spec.round r (kj, wj)))) →
  for_loop 0 64 body (enc r0) = Some (enc (fold_left Spec.round (zip Spec.K W) r0)).
Proof.
  intros HW Hbody. rewrite constants_K.
  assert (Hk : length k = 64%nat) by reflexivity.
  assert (HZ : length (zip k W) = 64%nat) by (rewrite length_zip_with; lia).
  destruct (for_loop_inv_nat
    (λ j s, s = enc (fold_left Spec.round (take j (zip k W)) r0))
    body 0 64 (enc r0)) as (s & E & ->).
  - done.
  - intros j s Hj ->.
    destruct (lookup_lt_is_Some_2 k j) as [kj Ekj]; [lia|].
    destruct (lookup_lt_is_Some_2 W j) as [wj Ewj]; [lia|].
    exists (enc (Spec.round (fold_left Spec.round (take j (zip k W)) r0) (kj, wj))).
    split.
    + apply Hbody; rewrite Z.add_0_l, index_nat; done.
    + rewrite (take_S_r _ _ (kj, wj)), fold_left_app; [done|].
      apply lookup_zip_with_Some. eauto.
  - rewrite E. by rewrite take_ge by lia.
Qed.

(** The loop that copies the sixteen words of a chunk into [w]. *)
Lemma load_loop (g : Z → option Z) (Wb : list Z) :
  length Wb = 16%nat →
  (∀ j x, Wb !! j = Some x → g (Z.of_nat j) = Some x) →
  for_loop 0 16 (λ j w, x ← g j; store w j x) (replicate 64 0)
  = Some (Wb ++ replicate 48 0).
Proof.
  intros HW Hg.
  destruct (for_loop_inv_nat
    (λ j w, w = take j Wb ++ replicate (64 - j) 0)
    (λ j w, x ← g j; store w j x) 0 16 (replicate 64 0)) as (w & E & ->).
  - done.
  - intros j w Hj ->.
    destruct (lookup_lt_is_Some_2 Wb j) as [x Ex]; [lia|].
    eexists. split; [|reflexivity].
    rewrite Z.add_0_l, (Hg _ _ Ex). cbn [mbind option_bind].
    apply fill_step; [done|lia].
  - rewrite E. by rewrite take_ge by lia.
Qed.

Lemma fold_in_loop (H R : Spec.regs) :
  for_loop 0 8 (λ j h, hj ← index h j; workj ← index (Spec.words_of R) j;
                       store h j (hj ⊞ workj)) (Spec.words_of H)
  = Some (Spec.words_of (Spec.fold_in H R)).
Proof.
  destruct H as [[[[[[[h0 h1] h2] h3] h4] h5] h6] h7].
  destruct R as [[[[[[[a b] c] d] e] f] g] h].
  reflexivity.
Qed.

Lemma words_of_length (r : Spec.regs) : length (Spec.words_of r) = 8%nat.
Proof. by destruct r as [[[[[[[a b] c] d] e] f] g] h]. Qed.

Lemma regs_of_words_of (r : Spec.regs) : Spec.regs_of (Spec.words_of r) = r.
Proof. by destruct r as [[[[[[[a b] c] d] e] f] g] h]. Qed.

(** One chunk in [Sha2_256]: the words [Wb] of the chunk are at
    [data32[16 i ..]]. *)
Lemma chunk_compress (data32 Wb : list Z) (i : nat) (H : Spec.regs) :
  length Wb = 16%nat →
  (∀ j x, Wb !! j = Some x → data32 !! (i * 16 + j)%nat = Some x) →
  Sha2.chunk data32 (Z.of_nat i) (Spec.words_of H)
  = Some (Spec.words_of
            (Spec.fold_in H (fold_left Spec.round (zip Spec.K (Spec.extend 48 Wb)) H))).
Proof.
  intros HW Hd. unfold Sha2.chunk.
  rewrite (load_loop (λ j, index data32 (Z.of_nat i * 16 + j)) Wb HW).
  2:{ intros j x Ex. rewrite (index_eq _ _ (i * 16 + j)) by lia. by apply Hd. }
  cbn [mbind option_bind].
  rewrite (extend_loop Sha2.rRotate Wb rRotate_rotr HW).
  cbn [mbind option_bind].
  rewrite (rounds_loop (Sha2.round (Spec.extend 48 Wb)) Spec.words_of (Spec.extend 48 Wb)).
  - cbn [mbind option_bind]. apply fold_in_loop.
  - rewrite extend_length. lia.
  - intros. by apply round_array.
Qed.

(** [Add512] from the reads of [x] on, for a schedule [W]. *)
Lemma Add512_head (h0 h1 h2 h3 h4 h5 h6 h7 : Z) (W : list Z) :
  length W = 64%nat →
  (x0 ← index [h0; h1; h2; h3; h4; h5; h6; h7] 0; x1 ← index [h0; h1; h2; h3; h4; h5; h6; h7] 1;
   x2 ← index [h0; h1; h2; h3; h4; h5; h6; h7] 2; x3 ← index [h0; h1; h2; h3; h4; h5; h6; h7] 3;
   x4 ← index [h0; h1; h2; h3; h4; h5; h6; h7] 4; x5 ← index [h0; h1; h2; h3; h4; h5; h6; h7] 5;
   x6 ← index [h0; h1; h2; h3; h4; h5; h6; h7] 6; x7 ← index [h0; h1; h2; h3; h4; h5; h6; h7] 7;
   '(a, b, c, d, e, f, g, h) ← for_loop 0 64 (Hash256.round W) (x0, x1, x2, x3, x4, x5, x6, x7);
   v ← index [h0; h1; h2; h3; h4; h5; h6; h7] 0;
   x ← store [h0; h1; h2; h3; h4; h5; h6; h7] 0 (v ⊞ a);
   v ← index x 1; x ← store x 1 (v ⊞ b);
   v ← index x 2; x ← store x 2 (v ⊞ c);
   v ← index x 3; x ← store x 3 (v ⊞ d);
   v ← index x 4; x ← store x 4 (v ⊞ e);
   v ← index x 5; x ← store x 5 (v ⊞ f);
   v ← index x 6; x ← store x 6 (v ⊞ g);
   v ← index x 7; store x 7 (v ⊞ h))
  = Some (Spec.words_of (Spec.fold_in (h0, h1, h2, h3, h4, h5, h6, h7)
      (fold_left Spec.round (zip Spec.K W) (h0, h1, h2, h3, h4, h5, h6, h7)))).
Proof.
  intros HW. repeat step8.
  pose proof (rounds_loop (Hash256.round W) id W (h0, h1, h2, h3, h4, h5, h6, h7)) as HR.
  unfold id in HR. rewrite HR.
  - cbn [mbind option_bind].
    destruct (fold_left _ _ _) as [[[[[[[a b] c] d] e] f] g] h].
    repeat step8. reflexivity.
  - done.
  - intros. by apply round_locals.
Qed.

(** One chunk in [Add512]. *)
Lemma Add512_compress (H : Spec.regs) (blk : list byte) :
  length blk = 64%nat →
  Hash256.Add512 (Spec.words_of H) blk = Some (Spec.words_of (Spec.compress H blk)).
Proof.
  intros Hb. unfold Hash256.Add512, Spec.compress, Spec.schedule.
  pose proof (words_length blk 16 Hb) as HW.
  rewrite (load_loop (λ i, load32 blk (i * 4)) (Spec.words blk) HW).
  2:{ intros j x Ex. pose proof (lookup_lt_Some _ _ _ Ex).
      destruct (load32_words blk j) as (y & E1 & E2); [lia|]. congruence. }
  cbn [mbind option_bind].
  rewrite (extend_loop (λ v n, RotateLeft32 v (- n)) (Spec.words blk));
    [|apply RotateLeft32_neg|done].
  cbn [mbind option_bind].
  pose proof (extend_length 48 (Spec.words blk)) as HE. rewrite HW in HE.
  generalize dependent (Spec.extend 48 (Spec.words blk)). intros W HE.
  destruct H as [[[[[[[h0 h1] h2] h3] h4] h5] h6] h7].
  apply (Add512_head h0 h1 h2 h3 h4 h5 h6 h7 W HE).
Qed.

(** ** Chunks *)

Lemma words_drop (k : nat) (l : list byte) :
  Spec.words (drop (4 * k) l) = drop k (Spec.words l).
Proof.
  revert l. induction k as [|k IH]; intros l; [done|].
  replace (4 * S k)%nat with (S (S (S (S (4 * k))))) by lia.
  destruct l as [|b0 [|b1 [|b2 [|b3 l]]]]; cbn [drop Spec.words];
    rewrite ?drop_nil; try done; apply IH.
Qed.

Lemma words_take (k : nat) (l : list byte) :
  Spec.words (take (4 * k) l) = take k (Spec.words l).
Proof.
  revert l. induction k as [|k IH]; intros l; [done|].
  replace (4 * S k)%nat with (S (S (S (S (4 * k))))) by lia.
  destruct l as [|b0 [|b1 [|b2 [|b3 l]]]]; cbn [take Spec.words];
    rewrite ?take_nil; try done; f_equal; apply IH.
Qed.

Lemma blocks_length (n : nat) (m : list byte) : length (Spec.blocks n m) = n.
Proof. revert m. induction n as [|n IH]; intros m; simpl; [done|]. by rewrite IH. Qed.

Lemma blocks_lookup (n i : nat) (m : list byte) :
  (i < n)%nat → Spec.blocks n m !! i = Some (take 64 (drop (64 * i) m)).
Proof.
  revert m i. induction n as [|n IH]; intros m i Hi; [lia|].
  destruct i as [|i]; [done|].
  cbn [Spec.blocks lookup list_lookup]. rewrite IH by lia.
  rewrite drop_drop. do 3 f_equal. lia.
Qed.

(** The words of the [i]-th block are the words [16 i ..] of the message. *)
Lemma block_words (m : list byte) (i : nat) :
  Spec.words (take 64 (drop (64 * i) m)) = take 16 (drop (16 * i) (Spec.words m)).
Proof.
  change 64%nat with (4 * 16)%nat at 1. rewrite words_take.
  replace (64 * i)%nat with (4 * (16 * i))%nat by lia. by rewrite words_drop.
Qed.

(** ** The digest *)

Lemma conv32to8_digest (H : Spec.regs) :
  conv32to8 (replicate (Z.to_nat Size256) x00) (Spec.words_of H) = Some (Spec.digest H).
Proof.
  destruct H as [[[[[[[h0 h1] h2] h3] h4] h5] h6] h7].
  unfold Spec.digest. cbn [Spec.words_of map concat].
  rewrite !be_encode_4. reflexivity.
Qed.

Lemma digest_length (H : Spec.regs) : length (Spec.digest H) = 32%nat.
Proof.
  destruct H as [[[[[[[h0 h1] h2] h3] h4] h5] h6] h7].
  unfold Spec.digest. cbn [Spec.words_of map concat].
  rewrite !length_app, !be_encode_length. done.
Qed.

(** ** The two hash loops on a padded message *)

Lemma quot_exact (a b : Z) (n : nat) :
  0 < b → a = b * Z.of_nat n → Z.to_nat (a ÷ b) = n.
Proof.
  intros Hb ->. rewrite Z.quot_div_nonneg by lia.
  rewrite Z.mul_comm, Z.div_mul by lia. lia.
Qed.

(** One chunk in [Sha2_256] is one compression of the [i]-th block. *)
Lemma chunk_block (m : list byte) (i : nat) (H : Spec.regs) :
  (64 * i + 64 ≤ length m)%nat →
  Sha2.chunk (Spec.words m) (Z.of_nat i) (Spec.words_of H)
  = Some (Spec.words_of (Spec.compress H (take 64 (drop (64 * i) m)))).
Proof.
  intros Hi. unfold Spec.compress, Spec.schedule.
  apply chunk_compress.
  - apply words_length. rewrite length_take, length_drop. lia.
  - intros j x. rewrite block_words. intros [Ex Hj]%lookup_take_Some.
    rewrite lookup_drop in Ex. rewrite <- Ex. f_equal. lia.
Qed.

Lemma hash_padded_spec (m : list byte) (nb : nat) :
  length m = (64 * nb)%nat → len m < 2 ^ 63 →
  Sha2.hash_padded m
  = Some (Spec.digest (fold_left Spec.compress (Spec.blocks nb m) (Spec.regs_of Spec.H0))).
Proof.
  intros Hm Hsmall. unfold Sha2.hash_padded.
  rewrite (quot_exact (len m) 4 (16 * nb)) by (unfold len; lia).
  rewrite (conv8to32_words m (16 * nb)) by (done || lia).
  cbn [mbind option_bind].
  pose proof (words_length m (16 * nb)) as HW.
  rewrite (quot_exact (len (Spec.words m)) 16 nb) by (unfold len; lia).
  rewrite constants_H0.
  destruct (for_loop_inv_nat
    (λ i h, h = Spec.words_of
                  (fold_left Spec.compress (take i (Spec.blocks nb m)) (Spec.regs_of hInit)))
    (Sha2.chunk (Spec.words m)) 0 nb hInit) as (h & E & ->).
  - done.
  - intros i h Hi ->. eexists. split; [|reflexivity].
    rewrite Z.add_0_l.
    rewrite (take_S_r _ _ _ (blocks_lookup nb i m Hi)), fold_left_app.
    cbn [fold_left]. apply chunk_block. lia.
  - rewrite E. cbn [mbind option_bind].
    rewrite take_ge by (rewrite blocks_length; lia).
    apply conv32to8_digest.
Qed.

Lemma slice_block (m : list byte) (i : nat) :
  (64 * i + 64 ≤ length m)%nat →
  slice m (Z.of_nat i * 64) (Z.of_nat i * 64 + 64) = Some (take 64 (drop (64 * i) m)).
Proof.
  intros Hi. unfold slice. rewrite decide_True by lia. do 3 f_equal; lia.
Qed.

Lemma add512_loop (m : list byte) (nb : nat) :
  length m = (64 * nb)%nat →
  for_loop 0 nb (λ i x, let j := i * 64 in blk ← slice m j (j + 64); Hash256.Add512 x blk) hInit
  = Some (Spec.words_of (fold_left Spec.compress (Spec.blocks nb m) (Spec.regs_of Spec.H0))).
Proof.
  intros Hm. rewrite constants_H0.
  destruct (for_loop_inv_nat
    (λ i h, h = Spec.words_of
                  (fold_left Spec.compress (take i (Spec.blocks nb m)) (Spec.regs_of hInit)))
    (λ i x, let j := i * 64 in blk ← slice m j (j + 64); Hash256.Add512 x blk)
    0 nb hInit) as (h & E & ->).
  - done.
  - intros i h Hi ->. eexists. split; [|reflexivity].
    cbv zeta. rewrite Z.add_0_l, slice_block by lia. cbn [mbind option_bind].
    rewrite (take_S_r _ _ _ (blocks_lookup nb i m Hi)), fold_left_app.
    cbn [fold_left]. apply Add512_compress.
    rewrite length_take, length_drop. lia.
  - etrans; [exact E|]. by rewrite take_ge by (rewrite blocks_length; lia).
Qed.

Lemma padded_blocks (d : list byte) :
  length (Spec.padded d) = (64 * (length (Spec.padded d) / 64))%nat.
Proof.
  pose proof (padded_length_mod d) as H. unfold len in H.
  pose proof (Nat.div_mod_eq (length (Spec.padded d)) 64).
  assert (length (Spec.padded d) `mod` 64 = 0)%nat; [|lia].
  apply Nat2Z.inj. rewrite Nat2Z.inj_mod. exact H.
Qed.

Lemma padded_small (d : list byte) : len d < 2 ^ 61 → len (Spec.padded d) < 2 ^ 63.
Proof.
  intros. rewrite padded_length. unfold Spec.pad_zeros.
  pose proof (Z.mod_pos_bound (55 - len d) 64 eq_refl). lia.
Qed.

(** [sha2.Sha2_256] is the SHA-256 of the specification. *)
Lemma Sha2_256_spec (d : list byte) :
  len d < 2 ^ 61 → Sha2.Sha2_256 d = Some (Spec.sha256 d).
Proof.
  intros Hd. unfold Sha2.Sha2_256, Spec.sha256.
  rewrite pad512_padded by done. cbn [mbind option_bind].
  apply hash_padded_spec; [apply padded_blocks | by apply padded_small].
Qed.

(** [Sha2_256] of the [Hash256] file is the SHA-256 of the specification. *)
Lemma Hash256_Sha2_256_spec (d : list byte) :
  len d < 2 ^ 61 → Hash256.Sha2_256 d = Some (Spec.sha256 d).
Proof.
  intros Hd. unfold Hash256.Sha2_256, Spec.sha256.
  rewrite pad512_padded by done. cbn [mbind option_bind].
  rewrite (quot_exact (len (Spec.padded d)) 64 (length (Spec.padded d) / 64)).
  2: lia.
  2:{ unfold len. pose proof (padded_blocks d). lia. }
  rewrite add512_loop by apply padded_blocks. cbn [mbind option_bind].
  apply conv32to8_digest.
Qed.

Lemma sha256_length (d : list byte) : length (Spec.sha256 d) = 32%nat.
Proof. apply digest_length. Qed.

(** ** [pad512] on a store *)

Lemma contents_inv (m : gmap nat (list byte)) (s : Mem.slice_hdr) (c : list byte) :
  Mem.contents m s = Some c →
  ∃ a, m !! Mem.arr s = Some a
       ∧ (Mem.length_ s ≤ Mem.cap s)%nat ∧ (Mem.off s + Mem.cap s ≤ length a)%nat
       ∧ c = take (Mem.length_ s) (drop (Mem.off s) a)
       ∧ length c = Mem.length_ s.
Proof.
  unfold Mem.contents. destruct (m !! Mem.arr s) as [a|]; [|done].
  cbn [mbind option_bind]. case_decide as H; [|done]. intros [= <-].
  exists a. repeat split; try tauto.
  rewrite length_take, length_drop. lia.
Qed.

(** A store through [s] succeeds where the store on its contents does,
    and is invisible through any header [s0] that ends before the cell. *)
Lemma store_step (m : gmap nat (list byte)) (s s0 : Mem.slice_hdr)
    (c c0 c' : list byte) (i : Z) (v : byte) :
  Mem.contents m s = Some c →
  Mem.contents m s0 = Some c0 →
  Mem.arr s0 ≠ Mem.arr s
    ∨ (Mem.off s0 = Mem.off s ∧ Z.of_nat (Mem.length_ s0) ≤ i) →
  store c i v = Some c' →
  ∃ m', Mem.store m s i v = Some m'
        ∧ Mem.contents m' s = Some c' ∧ Mem.contents m' s0 = Some c0.
Proof.
  intros Hc Hc0 Hfr Hst.
  destruct (contents_inv _ _ _ Hc) as (a & Ha & H1 & H2 & -> & Hlen).
  unfold store in Hst. case_decide as Hi; [|done]. injection Hst as <-.
  rewrite Hlen in Hi.
  unfold Mem.store. rewrite Ha. cbn [mbind option_bind].
  rewrite decide_True by done.
  eexists. split; [done|]. split.
  - unfold Mem.contents. rewrite lookup_insert_eq. cbn [mbind option_bind].
    rewrite length_insert, decide_True by done. f_equal.
    rewrite drop_insert_ge by lia. rewrite take_insert_lt by lia.
    f_equal. lia.
  - destruct (contents_inv _ _ _ Hc0) as (a0 & Ha0 & H3 & H4 & -> & Hlen0).
    unfold Mem.contents. destruct Hfr as [Hne|[Hoff Hle]].
    + rewrite lookup_insert_ne by done. rewrite Ha0. cbn [mbind option_bind].
      by rewrite decide_True.
    + destruct (decide (Mem.arr s0 = Mem.arr s)) as [Heq|Hne].
      * rewrite Heq in *. rewrite lookup_insert_eq. simplify_eq.
        cbn [mbind option_bind]. rewrite length_insert, decide_True by done.
        f_equal. rewrite Hoff, drop_insert_ge by lia.
        apply take_insert_ge. lia.
      * rewrite lookup_insert_ne by done. rewrite Ha0. cbn [mbind option_bind].
        by rewrite decide_True.
Qed.

Lemma append_zeros_step (m : gmap nat (list byte)) (s s0 : Mem.slice_hdr)
    (c c0 : list byte) (pad : nat) :
  Mem.contents m s = Some c →
  Mem.contents m s0 = Some c0 →
  Mem.arr s0 ≠ Mem.arr s
    ∨ (Mem.off s0 = Mem.off s ∧ (Mem.length_ s0 ≤ Mem.length_ s)%nat) →
  ∃ m' s', Mem.append_zeros m s pad = Some (m', s')
        ∧ Mem.contents m' s' = Some (c ++ replicate pad x00)
        ∧ Mem.contents m' s0 = Some c0
        ∧ (Mem.arr s0 ≠ Mem.arr s'
           ∨ (Mem.off s0 = Mem.off s' ∧ (Mem.length_ s0 ≤ Mem.length_ s)%nat)).
Proof.
  intros Hc Hc0 Hfr.
  destruct (contents_inv _ _ _ Hc) as (a & Ha & H1 & H2 & -> & Hlen).
  destruct (contents_inv _ _ _ Hc0) as (a0 & Ha0 & H3 & H4 & -> & Hlen0).
  unfold Mem.append_zeros. rewrite Ha. cbn [mbind option_bind].
  destruct (decide (Mem.length_ s + pad ≤ Mem.cap s)%nat) as [Hroom|Hgrow].
  - set (e := (Mem.off s + Mem.length_ s)%nat).
    set (a' := take e a ++ replicate pad x00 ++ drop (e + pad) a).
    assert (Hla : length a' = length a).
    { subst a'. rewrite !length_app, length_take, length_replicate, length_drop. lia. }
    eexists _, _. split; [done|]. repeat split.
    + unfold Mem.contents. cbn [Mem.arr Mem.off Mem.length_ Mem.cap].
      rewrite lookup_insert_eq. cbn [mbind option_bind].
      rewrite Hla, decide_True by lia. f_equal. subst a'.
      rewrite drop_app_le by (rewrite length_take; lia).
      rewrite app_assoc, take_app_length'.
      * f_equal. subst e. by rewrite take_drop_commute.
      * rewrite length_app, length_drop, length_take, length_replicate. lia.
    + unfold Mem.contents. destruct (decide (Mem.arr s0 = Mem.arr s)) as [Heq|Hne].
      * destruct Hfr as [?|[Hoff Hle]]; [done|].
        rewrite Heq in *. rewrite lookup_insert_eq. simplify_eq.
        cbn [mbind option_bind]. rewrite Hla, decide_True by done.
        f_equal. subst a'. rewrite Hoff.
        rewrite drop_app_le by (rewrite length_take; lia).
        rewrite take_app_le by (rewrite length_drop, length_take; lia).
        rewrite !take_drop_commute, take_take. subst e. do 2 f_equal. lia.
      * rewrite lookup_insert_ne by done. rewrite Ha0. cbn [mbind option_bind].
        by rewrite decide_True.
    + cbn [Mem.arr Mem.off]. tauto.
  - set (l := fresh (dom m)).
    assert (Hl : m !! l = None) by (apply not_elem_of_dom, is_fresh).
    eexists _, _. split; [done|]. repeat split.
    + unfold Mem.contents. cbn [Mem.arr Mem.off Mem.length_ Mem.cap].
      rewrite lookup_insert_eq. cbn [mbind option_bind].
      rewrite decide_True by (rewrite length_app, length_replicate; lia).
      f_equal. rewrite drop_0. apply take_ge.
      rewrite length_app, length_replicate. lia.
    + unfold Mem.contents. rewrite lookup_insert_ne by congruence.
      rewrite Ha0. cbn [mbind option_bind]. by rewrite decide_True.
    + left. cbn [Mem.arr]. congruence.
Qed.

Ltac mem_store_step Hframe :=
  match goal with
  | Hp : (store ?c ?i ?v ≫= _) = Some _,
    Hc : Mem.contents ?m ?s = Some ?c,
    Hc0 : Mem.contents ?m ?s0 = Some ?c0 |- _ =>
      let c1 := fresh "c" in
      let Es := fresh "Es" in
      let m2 := fresh "m" in
      let E2 := fresh "E" in
      let Hc2 := fresh "Hc" in
      let Hc02 := fresh "Hc0" in
      destruct (store c i v) as [c1|] eqn:Es; [|done];
      cbn [mbind option_bind] in Hp;
      destruct (store_step m s s0 c c0 c1 i v Hc Hc0 (Hframe i ltac:(lia)) Es)
        as (m2 & E2 & Hc2 & Hc02);
      rewrite E2; cbn [mbind option_bind]; clear Hc Hc0 E2 Es
  end.

(** [pad512] on the store computes what [pad512] on values computes, and
    no header that ends within the argument sees a change. *)
Lemma pad512_mem (m : gmap nat (list byte)) (s s0 : Mem.slice_hdr) (d c0 p : list byte) :
  Mem.contents m s = Some d →
  Mem.contents m s0 = Some c0 →
  Mem.arr s0 ≠ Mem.arr s
    ∨ (Mem.off s0 = Mem.off s ∧ (Mem.length_ s0 ≤ Mem.length_ s)%nat) →
  len d < 2 ^ 63 →
  pad512 d = Some p →
  ∃ m' s', Mem.pad512 m s = Some (m', s')
           ∧ Mem.contents m' s' = Some p ∧ Mem.contents m' s0 = Some c0.
Proof.
  intros Hc Hc0 Hfr Hd Hp.
  destruct (contents_inv _ _ _ Hc) as (a & _ & _ & _ & _ & Hlen).
  unfold pad512 in Hp. unfold Mem.pad512. cbv zeta in Hp |- *.
  unfold len in Hp, Hd. rewrite <- Hlen.
  set (L := Z.of_nat (length d)) in *.
  assert (0 ≤ L) by (subst L; lia).
  rewrite (pad512_pad L) in Hp |- * by lia.
  rewrite (uint64_small L) in Hp |- * by lia.
  assert (Hz : (Spec.pad_zeros L < 64)%nat).
  { unfold Spec.pad_zeros. pose proof (Z.mod_pos_bound (55 - L) 64 eq_refl). lia. }
  set (z := Spec.pad_zeros L) in *.
  generalize dependent (uint64 (L * 8)). intros N Hp.
  rewrite (uint64_small (L + (Z.of_nat z + 9) - 1)) in Hp |- * by lia.
  rewrite !uint64_small in Hp by lia. rewrite !uint64_small by lia.
  destruct (append_zeros_step m s s0 d c0 (Z.to_nat (Z.of_nat z + 9)) Hc Hc0 Hfr)
    as (m1 & s1 & E1 & Hc1 & Hc01 & Hfr1).
  rewrite E1. cbn [mbind option_bind].
  assert (Hframe : ∀ i, L ≤ i →
            Mem.arr s0 ≠ Mem.arr s1
            ∨ (Mem.off s0 = Mem.off s1 ∧ Z.of_nat (Mem.length_ s0) ≤ i)).
  { intros i Hi. destruct Hfr1 as [?|[? ?]]; [by left|right]. split; [done|lia]. }
  clear Hc Hc0 Hfr Hfr1 E1.
  do 9 mem_store_step Hframe.
  injection Hp as <-. eauto.
Qed.

(** The hash on the store: the digest is the one computed on the values
    and the caller's bytes are what they were. *)
Lemma Sha2_256_mem (m : gmap nat (list byte)) (s s0 : Mem.slice_hdr) (d c0 : list byte) :
  Mem.contents m s = Some d →
  Mem.contents m s0 = Some c0 →
  Mem.arr s0 ≠ Mem.arr s
    ∨ (Mem.off s0 = Mem.off s ∧ (Mem.length_ s0 ≤ Mem.length_ s)%nat) →
  len d < 2 ^ 61 →
  ∃ m', Mem.Sha2_256 m s = Some (m', Spec.sha256 d)
        ∧ Mem.contents m' s0 = Some c0.
Proof.
  intros Hc Hc0 Hfr Hd.
  pose proof (Sha2_256_spec d Hd) as Hv. unfold Sha2.Sha2_256 in Hv.
  destruct (pad512 d) as [p|] eqn:Hp; [|done]. cbn [mbind option_bind] in Hv.
  destruct (pad512_mem m s s0 d c0 p Hc Hc0 Hfr) as (m' & s' & E & Hc' & Hc0');
    [lia|done|].
  exists m'. unfold Mem.Sha2_256. rewrite E. cbn [mbind option_bind].
  rewrite Hc'. cbn [mbind option_bind]. rewrite Hv. done.
Qed.

(** ** Base58: the carry loop *)

Lemma value58_snoc (ds : list Z) (d : Z) :
  Base58.value58 (ds ++ [d]) = Base58.value58 ds * 58 + d.
Proof. unfold Base58.value58. by rewrite fold_left_app. Qed.

Lemma cells_value_snoc (buf : list byte) (b : byte) :
  Base58.cells_value (buf ++ [b]) = Base58.cells_value buf * 58 + byte_to_Z b.
Proof. unfold Base58.cells_value. rewrite map_app. apply value58_snoc. Qed.

Lemma cells_value_zero (buf : list byte) :
  (∀ i b, buf !! i = Some b → byte_to_Z b = 0) → Base58.cells_value buf = 0.
Proof.
  induction buf as [|b buf IH] using rev_ind; intros H; [done|].
  rewrite cells_value_snoc, IH.
  - rewrite (H (length buf) b); [lia|]. by apply list_lookup_middle.
  - intros i c Hi. apply (H i). by apply lookup_app_l_Some.
Qed.

Lemma carry_loop_S (n : nat) (buf : list byte) (high carry j : Z) :
  Base58.carry_loop (S n) buf high carry j =
  if (high <? j) || negb (carry =? 0) then
    b ← index buf j;
    let carry := carry + (byte_to_Z b ≪ 8) in
    buf ← store buf j (uint8 (Z.rem carry Base58.nChars));
    let carry := carry ÷ Base58.nChars in
    if j =? 0 then Some (buf, j, carry)
    else Base58.carry_loop n buf high carry (j - 1)
  else Some (buf, j, carry).
Proof. reflexivity. Qed.

Lemma index_middle {A} (l1 l2 : list A) (x : A) (i : Z) :
  i = len l1 → index (l1 ++ x :: l2) i = Some x.
Proof.
  intros ->. unfold len. rewrite index_nat. by apply list_lookup_middle.
Qed.

(** One run of the carry loop over the cells [hi0 ++ [x]], the cells [lo]
    to their right being those already rewritten: the cells and the
    carry that leaves them hold 256 times the old value plus the carry
    that entered. *)
Lemma carry_loop_spec (hi0 : list byte) :
  ∀ (x : byte) (lo : list byte) (high carry : Z),
    0 ≤ carry < 256 →
    Forall Base58.is_digit (hi0 ++ [x]) →
    Base58.zero_upto high (hi0 ++ [x]) →
    ∃ hi' j c',
      Base58.carry_loop (S (length hi0)) (hi0 ++ x :: lo) high carry (len hi0)
        = Some (hi' ++ lo, j, c')
      ∧ length hi' = S (length hi0)
      ∧ Forall Base58.is_digit hi'
      ∧ Base58.cells_value hi' + c' * 58 ^ Z.of_nat (S (length hi0))
        = Base58.cells_value (hi0 ++ [x]) * 256 + carry
      ∧ 0 ≤ c'
      ∧ 0 ≤ j ≤ len hi0
      ∧ (j = 0 ∨ Base58.zero_upto j hi').
Proof.
  induction hi0 as [|y hi00 IH] using rev_ind; intros x lo high carry Hc Hdig Hzero.
  - (* a single cell *)
    cbn [app] in *.
    rewrite carry_loop_S. change (len []) with 0.
    destruct ((high <? 0) || negb (carry =? 0)) eqn:Hcond.
    + pose proof (index_middle [] lo x 0 eq_refl) as Hi0. cbn [app] in Hi0.
      rewrite Hi0. cbn [mbind option_bind]. cbv zeta.
      pose proof (λ v, store_middle [] lo x 0 v eq_refl) as Hs0. cbn [app] in Hs0.
      rewrite Hs0. cbn [mbind option_bind].
      change (0 =? 0) with true. cbv iota.
      change Base58.nChars with 58.
      pose proof (byte_to_Z_range x) as Hx.
      rewrite Z.shiftl_mul_pow2 by lia.
      assert (Hx58 : byte_to_Z x < 58)
        by (apply (Forall_singleton Base58.is_digit x); exact Hdig).
      set (c1 := carry + byte_to_Z x * 2 ^ 8).
      assert (0 ≤ c1 < 256 * 58) by (subst c1; lia).
      rewrite Z.rem_mod_nonneg, Z.quot_div_nonneg by lia.
      exists [uint8 (c1 mod 58)], 0, (c1 / 58).
      assert (Hb : byte_to_Z (uint8 (c1 mod 58)) = c1 mod 58).
      { rewrite byte_to_Z_uint8. apply Z.mod_small.
        pose proof (Z.mod_pos_bound c1 58 eq_refl). lia. }
      repeat split; try done.
      * apply Forall_singleton. unfold Base58.is_digit. rewrite Hb.
        apply Z.mod_pos_bound. lia.
      * unfold Base58.cells_value. cbn [map app Base58.value58 fold_left length].
        rewrite Hb. subst c1. Z.div_mod_to_equations; lia.
      * apply Z.div_pos; lia.
      * by left.
    + apply orb_false_elim in Hcond as [Hh Hc0].
      apply Z.ltb_ge in Hh. apply negb_false_iff, Z.eqb_eq in Hc0. subst carry.
      exists [x], 0, 0. repeat split; try done.
      * rewrite (cells_value_zero [x]); [lia|].
        intros i b Hi. apply (Hzero i b Hi).
        apply lookup_lt_Some in Hi. simpl in Hi. lia.
      * by left.
  - (* the cell [x] and then the cells [hi00 ++ [y]] *)
    rewrite carry_loop_S.
    assert (Hlen : len (hi00 ++ [y]) = len hi00 + 1)
      by (unfold len; rewrite length_app; simpl; lia).
    destruct ((high <? len (hi00 ++ [y])) || negb (carry =? 0)) eqn:Hcond.
    + rewrite index_middle by done. cbn [mbind option_bind]. cbv zeta.
      rewrite store_middle by done. cbn [mbind option_bind].
      assert ((len (hi00 ++ [y]) =? 0) = false) as ->
        by (apply Z.eqb_neq; unfold len in *; lia).
      change Base58.nChars with 58.
      pose proof (byte_to_Z_range x) as Hx.
      rewrite Z.shiftl_mul_pow2 by lia.
      apply Forall_app in Hdig as [Hdig Hx58]. rewrite Forall_singleton in Hx58.
      unfold Base58.is_digit in Hx58.
      set (c1 := carry + byte_to_Z x * 2 ^ 8).
      assert (0 ≤ c1 < 256 * 58) by (subst c1; lia).
      rewrite Z.rem_mod_nonneg, Z.quot_div_nonneg by lia.
      set (x' := uint8 (c1 mod 58)).
      assert (Hb : byte_to_Z x' = c1 mod 58).
      { subst x'. rewrite byte_to_Z_uint8. apply Z.mod_small.
        pose proof (Z.mod_pos_bound c1 58 eq_refl). lia. }
      destruct (IH y (x' :: lo) high (c1 / 58)) as (hi'' & j & c' & E & Hl & Hd & Hv & Hc' & Hj & Hz).
      * split; [apply Z.div_pos; lia | apply Z.div_lt_upper_bound; lia].
      * done.
      * intros i b Hi. apply (Hzero i b). by apply lookup_app_l_Some.
      * exists (hi'' ++ [x']), j, c'.
        assert (Hlist : (hi00 ++ [y]) ++ x' :: lo = hi00 ++ y :: x' :: lo)
          by (by rewrite <- app_assoc).
        assert (Hres : (hi'' ++ [x']) ++ lo = hi'' ++ x' :: lo)
          by (by rewrite <- app_assoc).
        assert (Hl2 : length (hi00 ++ [y]) = S (length hi00))
          by (rewrite length_app; simpl; lia).
        rewrite Hlist, Hres, Hlen, Hl2.
        replace (len hi00 + 1 - 1) with (len hi00) by lia.
        split; [exact E|].
        split; [rewrite length_app; simpl; lia|].
        split.
        { apply Forall_app. split; [done|]. apply Forall_singleton.
          unfold Base58.is_digit. rewrite Hb. apply Z.mod_pos_bound. lia. }
        split.
        { rewrite !cells_value_snoc, Hb.
          rewrite (Nat2Z.inj_succ (S (length hi00))), Z.pow_succ_r by lia.
          rewrite cells_value_snoc in Hv.
          subst c1. Z.div_mod_to_equations. nia. }
        split; [done|]. split; [unfold len in *; lia|].
        destruct Hz as [?|Hz]; [by left|right].
        intros i b Hi Hij.
        assert (i < length hi'')%nat by (unfold len in *; lia).
        rewrite lookup_app_l in Hi by done. by apply (Hz i).
    + apply orb_false_elim in Hcond as [Hh Hc0].
      apply Z.ltb_ge in Hh. apply negb_false_iff, Z.eqb_eq in Hc0. subst carry.
      exists ((hi00 ++ [y]) ++ [x]), (len (hi00 ++ [y])), 0.
      split; [by rewrite <- (app_assoc _ [x] lo)|].
      split; [rewrite !length_app; simpl; lia|].
      split; [done|].
      split.
      { rewrite (cells_value_zero ((hi00 ++ [y]) ++ [x])); [lia|].
        intros i b Hi. apply (Hzero i b Hi).
        apply lookup_lt_Some in Hi. rewrite !length_app in Hi. simpl in Hi.
        unfold len in *. rewrite length_app in Hh. simpl in Hh. lia. }
      split; [done|]. split; [unfold len; lia|].
      right. intros i b Hi Hij. apply (Hzero i b Hi). lia.
Qed.

(** ** Base58: numbers in radix 256 and 58 *)

Lemma fold_radix {A} (g : A → Z) (r : Z) (l : list A) (a : Z) :
  fold_left (λ acc x, acc * r + g x) l a
  = a * r ^ len l + fold_left (λ acc x, acc * r + g x) l 0.
Proof.
  revert a. induction l as [|x l IH]; intros a.
  - unfold len. cbn [fold_left length]. change (Z.of_nat 0) with 0.
    rewrite Z.pow_0_r. lia.
  - cbn [fold_left]. rewrite IH, (IH (0 * r + g x)).
    unfold len. cbn [length]. rewrite Nat2Z.inj_succ, Z.pow_succ_r by lia. ring.
Qed.

Lemma be_value_cons (b : byte) (bs : list byte) :
  Spec.be_value (b :: bs) = byte_to_Z b * 256 ^ len bs + Spec.be_value bs.
Proof.
  unfold Spec.be_value. cbn [fold_left].
  rewrite (fold_radix byte_to_Z 256). lia.
Qed.

Lemma cells_value_fold (buf : list byte) :
  Base58.cells_value buf = fold_left (λ acc b, acc * 58 + byte_to_Z b) buf 0.
Proof.
  unfold Base58.cells_value, Base58.value58. generalize 0.
  induction buf as [|b buf IH]; intros a; [done|]. cbn. apply IH.
Qed.

Lemma cells_value_cons (b : byte) (buf : list byte) :
  Base58.cells_value (b :: buf) = byte_to_Z b * 58 ^ len buf + Base58.cells_value buf.
Proof.
  rewrite !cells_value_fold. cbn [fold_left].
  rewrite (fold_radix byte_to_Z 58). lia.
Qed.

Lemma cells_value_nonneg (buf : list byte) : 0 ≤ Base58.cells_value buf.
Proof.
  induction buf as [|b buf IH] using rev_ind; [done|].
  rewrite cells_value_snoc. pose proof (byte_to_Z_range b). lia.
Qed.

Lemma be_value_nonneg (bs : list byte) : 0 ≤ Spec.be_value bs.
Proof.
  induction bs as [|b bs IH] using rev_ind; [done|].
  rewrite be_value_snoc. pose proof (byte_to_Z_range b). lia.
Qed.

Lemma be_value_bound (bs : list byte) : Spec.be_value bs < 256 ^ len bs.
Proof.
  induction bs as [|b bs IH] using rev_ind; [done|].
  rewrite be_value_snoc. unfold len in *. rewrite length_app. cbn [length].
  replace (Z.of_nat (length bs + 1)) with (Z.succ (Z.of_nat (length bs))) by lia.
  rewrite Z.pow_succ_r by lia. pose proof (byte_to_Z_range b). lia.
Qed.

(** The capacity rule: [m] bytes fit in [m * 137 / 100 + 1] base-58 digits,
    because [256 ^ 100 ≤ 58 ^ 137]. *)
Lemma capacity (m : Z) : 0 ≤ m → 256 ^ m ≤ 58 ^ (m * 137 / 100 + 1).
Proof.
  intros Hm. set (s := m * 137 / 100 + 1).
  assert (Hs : 137 * m ≤ 100 * s) by (subst s; Z.div_mod_to_equations; lia).
  assert (0 ≤ s) by (subst s; Z.div_mod_to_equations; lia).
  apply (Z.pow_le_mono_l_iff _ _ 100); [apply Z.pow_nonneg; lia .. | lia |].
  rewrite <- !Z.pow_mul_r by lia.
  transitivity (58 ^ (137 * m)).
  - replace (m * 100) with (100 * m) by lia.
    rewrite !Z.pow_mul_r by lia.
    apply Z.pow_le_mono_l. split; [apply Z.pow_nonneg; lia|].
    vm_compute. discriminate.
  - apply Z.pow_le_mono_r; lia.
Qed.

(** ** Base58: the loop over the bytes *)

(** A buffer whose value leaves a factor 256 of room has a zero first
    cell. *)
Lemma head_zero (buf : list byte) (s : Z) :
  len buf = s → (Base58.cells_value buf + 1) * 256 ≤ 58 ^ s →
  Base58.zero_upto 0 buf.
Proof.
  intros Hs Hv i b Hi Hi0. destruct i as [|i]; [|lia].
  destruct buf as [|h t]; [done|]. injection Hi as ->.
  rewrite cells_value_cons in Hv. pose proof (cells_value_nonneg t).
  pose proof (byte_to_Z_range b).
  unfold len in *. cbn [length] in Hs. rewrite Nat2Z.inj_succ in Hs. subst s.
  rewrite Z.pow_succ_r in Hv by lia.
  assert (0 < 58 ^ Z.of_nat (length t)) by (apply Z.pow_pos_nonneg; lia).
  nia.
Qed.

Lemma encode_byte_eq (data buf : list byte) (i high : Z) :
  Base58.encode_byte data i (buf, high) =
  (b ← index data i;
   '(buf, j, _) ← Base58.carry_loop (length buf) buf high (byte_to_Z b) (len buf - 1);
   Some (buf, j)).
Proof. reflexivity. Qed.

Lemma encode_loop_spec (s : Z) (post : list byte) :
  ∀ (rest pre buf : list byte) (high V : Z),
    len buf = s → 0 < s →
    Forall Base58.is_digit buf →
    Base58.cells_value buf = V →
    ((V + 1) * 256 ≤ 58 ^ s → Base58.zero_upto high buf) →
    (V + 1) * 256 ^ len rest ≤ 58 ^ s →
    ∃ buf' high',
      for_loop (len pre) (length rest) (Base58.encode_byte (pre ++ rest ++ post)) (buf, high)
        = Some (buf', high')
      ∧ len buf' = s
      ∧ Forall Base58.is_digit buf'
      ∧ Base58.cells_value buf' = V * 256 ^ len rest + Spec.be_value rest
      ∧ ((Base58.cells_value buf' + 1) * 256 ≤ 58 ^ s → Base58.zero_upto high' buf').
Proof.
  induction rest as [|b rest IH]; intros pre buf high V Hs Hpos Hdig HV Hzero Hbound.
  - exists buf, high. repeat split; try done.
    + change (len []) with 0. rewrite Z.pow_0_r. change (Spec.be_value []) with 0. lia.
    + rewrite HV. done.
  - cbn [for_loop length app]. rewrite encode_byte_eq.
    rewrite index_middle by done. cbn [mbind option_bind].
    destruct (exists_last (l := buf)) as (hi0 & x & ->).
    { intros ->. unfold len in Hs. simpl in Hs. lia. }
    assert (Hl1 : length (hi0 ++ [x]) = S (length hi0))
      by (rewrite length_app; simpl; lia).
    assert (Hl2 : len (hi0 ++ [x]) - 1 = len hi0) by (unfold len; lia).
    rewrite Hl1, Hl2.
    pose proof (byte_to_Z_range b) as Hb.
    pose proof (cells_value_nonneg (hi0 ++ [x])) as HVnn. rewrite HV in HVnn.
    assert (Hlr : len (b :: rest) = Z.succ (len rest)) by (unfold len; simpl; lia).
    rewrite Hlr, Z.pow_succ_r in Hbound by (unfold len; lia).
    assert (HP : 0 < 256 ^ len rest) by (apply Z.pow_pos_nonneg; unfold len; lia).
    assert (HQ : 0 < 58 ^ s) by (apply Z.pow_pos_nonneg; lia).
    destruct (carry_loop_spec hi0 x [] high (byte_to_Z b))
      as (hi' & j & c' & E & Hl & Hd & Hv & Hc' & Hj & Hz); [lia|done| |].
    { apply Hzero. nia. }
    rewrite E. cbn [mbind option_bind]. rewrite app_nil_r.
    assert (Hs' : Z.of_nat (S (length hi0)) = s) by (unfold len in Hs; lia).
    rewrite Hs', HV in Hv.
    pose proof (cells_value_nonneg hi') as Hnn.
    assert (c' = 0) as -> by nia.
    destruct (IH (pre ++ [b]) hi' j (V * 256 + byte_to_Z b))
      as (buf' & high' & E' & R1 & R2 & R3 & R4).
    + unfold len. lia.
    + done.
    + done.
    + lia.
    + intros Hroom. destruct Hz as [->|Hz]; [|done].
      apply (head_zero hi' s); [unfold len; lia|].
      replace (Base58.cells_value hi') with (V * 256 + byte_to_Z b) by lia. done.
    + nia.
    + exists buf', high'.
      replace (pre ++ b :: rest ++ post) with ((pre ++ [b]) ++ rest ++ post)
        by (by rewrite <- app_assoc).
      replace (len pre + 1) with (len (pre ++ [b]))
        by (unfold len; rewrite length_app; simpl; lia).
      split; [exact E'|]. split; [done|]. split; [done|]. split; [|done].
      rewrite R3, be_value_cons, Hlr, Z.pow_succ_r by (unfold len; lia). ring.
Qed.

(** ** Base58: leading zeros *)

Lemma first_nonzero_spec (rest pre : list byte) :
  Base58.first_nonzero (pre ++ rest) (length rest) (len pre)
  = Some (len pre + Z.of_nat (Base58.leading_zeros rest)).
Proof.
  revert pre. induction rest as [|b rest IH]; intros pre.
  - cbn. f_equal. lia.
  - cbn [Base58.first_nonzero length Base58.leading_zeros].
    rewrite index_middle by done. cbn [mbind option_bind].
    destruct (Z.eqb_spec (byte_to_Z b) 0) as [E|E].
    + rewrite decide_False by lia.
      replace (pre ++ b :: rest) with ((pre ++ [b]) ++ rest) by (by rewrite <- app_assoc).
      replace (len pre + 1) with (len (pre ++ [b]))
        by (unfold len; rewrite length_app; simpl; lia).
      rewrite IH. f_equal. unfold len. rewrite length_app. simpl. lia.
    + rewrite decide_True by done. f_equal. lia.
Qed.

Lemma leading_zeros_le (l : list byte) : (Base58.leading_zeros l ≤ length l)%nat.
Proof.
  induction l as [|b l IH]; cbn; [lia|]. destruct (byte_to_Z b =? 0); lia.
Qed.

Lemma leading_zeros_head (l t : list byte) (b : byte) :
  drop (Base58.leading_zeros l) l = b :: t → byte_to_Z b ≠ 0.
Proof.
  induction l as [|c l IH]; cbn; [done|].
  destruct (Z.eqb_spec (byte_to_Z c) 0) as [E|E]; cbn; [done|].
  by intros [= -> _].
Qed.

Lemma leading_zeros_value (l : list byte) :
  Base58.cells_value (drop (Base58.leading_zeros l) l) = Base58.cells_value l.
Proof.
  induction l as [|c l IH]; cbn [Base58.leading_zeros]; [done|].
  destruct (Z.eqb_spec (byte_to_Z c) 0) as [E|E]; cbn [drop]; [|done].
  rewrite IH, cells_value_cons, E. lia.
Qed.

Lemma leading_zeros_drop (l : list byte) :
  l = replicate (Base58.leading_zeros l) x00 ++ drop (Base58.leading_zeros l) l.
Proof.
  induction l as [|c l IH]; cbn [Base58.leading_zeros]; [done|].
  destruct (Z.eqb_spec (byte_to_Z c) 0) as [E|E]; cbn [drop replicate app]; [|done].
  f_equal; [|exact IH]. apply byte_to_Z_inj. by rewrite E.
Qed.

(** ** Base58: the digits of a number are unique *)

Lemma value58_cons (d : Z) (ds : list Z) :
  Base58.value58 (d :: ds) = d * 58 ^ len ds + Base58.value58 ds.
Proof.
  unfold Base58.value58. cbn [fold_left].
  pose proof (fold_radix id 58 ds (0 * 58 + d)) as H. unfold id in H.
  rewrite H. lia.
Qed.

Lemma value58_lower (ds : list Z) :
  Forall (λ d, 0 ≤ d < 58) ds → (∀ d t, ds = d :: t → d ≠ 0) → ds ≠ [] →
  58 ^ (len ds - 1) ≤ Base58.value58 ds.
Proof.
  induction ds as [|d ds IH] using rev_ind; intros Hv Hh Hne; [done|].
  apply Forall_app in Hv as [Hv Hd]. rewrite Forall_singleton in Hd.
  rewrite value58_snoc. unfold len. rewrite length_app. cbn [length].
  destruct ds as [|d0 ds0].
  - cbn. specialize (Hh d [] eq_refl). lia.
  - assert (58 ^ (len (d0 :: ds0) - 1) ≤ Base58.value58 (d0 :: ds0)) as IH'.
    { apply IH; [done| |done]. intros d' t [= -> ->]. by apply (Hh d' (t ++ [d])). }
    unfold len in IH'. cbn [length] in *.
    replace (Z.of_nat (S (length ds0) + 1) - 1) with (Z.succ (Z.of_nat (S (length ds0)) - 1)) by lia.
    rewrite Z.pow_succ_r by lia. lia.
Qed.

Lemma digits58_run (ds : list Z) :
  Forall (λ d, 0 ≤ d < 58) ds → (∀ d t, ds = d :: t → d ≠ 0) →
  ∀ fuel acc, (length ds ≤ fuel)%nat →
    Base58.digits58 fuel (Base58.value58 ds) acc = ds ++ acc.
Proof.
  induction ds as [|d ds IH] using rev_ind; intros Hv Hh fuel acc Hf.
  - destruct fuel; done.
  - apply Forall_app in Hv as [Hv Hd]. rewrite Forall_singleton in Hd.
    rewrite length_app in Hf. cbn [length] in Hf.
    destruct fuel as [|fuel]; [lia|].
    assert (Hh' : ∀ d' t, ds = d' :: t → d' ≠ 0).
    { intros d' t ->. by apply (Hh d' (t ++ [d])). }
    assert (0 ≤ Base58.value58 ds ∧ (ds = [] ∨ 0 < Base58.value58 ds)) as [Hnn Hpos].
    { destruct ds as [|d0 ds0]; [split; [done|by left]|].
      pose proof (value58_lower (d0 :: ds0) Hv Hh' ltac:(done)) as Hl.
      assert (0 < 58 ^ (len (d0 :: ds0) - 1))
        by (apply Z.pow_pos_nonneg; unfold len; simpl; lia).
      split; [lia|right; lia]. }
    rewrite value58_snoc. cbn [Base58.digits58].
    assert (0 < Base58.value58 ds * 58 + d).
    { destruct Hpos as [->|?]; [|lia]. specialize (Hh d [] eq_refl). cbn. lia. }
    destruct (Z.leb_spec (Base58.value58 ds * 58 + d) 0); [lia|].
    replace ((Base58.value58 ds * 58 + d) / 58) with (Base58.value58 ds)
      by (Z.div_mod_to_equations; lia).
    replace ((Base58.value58 ds * 58 + d) mod 58) with d
      by (Z.div_mod_to_equations; lia).
    rewrite IH by (done || lia). by rewrite <- app_assoc.
Qed.

Lemma to_base58_unique (ds : list Z) :
  Forall (λ d, 0 ≤ d < 58) ds → (∀ d t, ds = d :: t → d ≠ 0) →
  Base58.to_base58 (Base58.value58 ds) = ds.
Proof.
  intros Hv Hh. unfold Base58.to_base58.
  rewrite digits58_run; [apply app_nil_r|done|done|].
  destruct ds as [|d0 ds0]; [cbn; lia|].
  pose proof (value58_lower (d0 :: ds0) Hv Hh ltac:(done)) as Hl.
  assert (0 ≤ len (d0 :: ds0) - 1) by (unfold len; simpl; lia).
  assert (2 ^ (len (d0 :: ds0) - 1) ≤ 58 ^ (len (d0 :: ds0) - 1))
    by (apply Z.pow_le_mono_l; lia).
  assert (0 < 2 ^ (len (d0 :: ds0) - 1)) by (apply Z.pow_pos_nonneg; lia).
  assert (len (d0 :: ds0) - 1 ≤ Z.log2 (Base58.value58 (d0 :: ds0)))
    by (apply Z.log2_le_pow2; lia).
  unfold len in *. lia.
Qed.

(** The digits found by division are digits, the leading one is not zero,
    and they denote the number. *)
Lemma to_base58_value (v : Z) :
  0 ≤ v → Base58.value58 (Base58.to_base58 v) = v.
Proof.
  intros Hv. unfold Base58.to_base58.
  assert (G : ∀ fuel v acc, 0 ≤ v → v < 2 ^ Z.of_nat fuel →
            Base58.value58 (Base58.digits58 fuel v acc)
            = v * 58 ^ len acc + Base58.value58 acc).
  { clear. induction fuel as [|fuel IH]; intros v acc Hv Hlt.
    - change (Z.of_nat 0) with 0 in Hlt. rewrite Z.pow_0_r in Hlt.
      cbn [Base58.digits58]. assert (v = 0) as -> by lia. lia.
    - cbn [Base58.digits58]. destruct (Z.leb_spec v 0).
      + assert (v = 0) as -> by lia. lia.
      + rewrite IH.
        * rewrite value58_cons. unfold len. cbn [length].
          rewrite Nat2Z.inj_succ, Z.pow_succ_r by lia.
          Z.div_mod_to_equations. nia.
        * apply Z.div_pos; lia.
        * rewrite Nat2Z.inj_succ, Z.pow_succ_r in Hlt by lia.
          apply Z.div_lt_upper_bound; lia. }
  rewrite G; [|done|].
  { unfold len, Base58.value58. cbn [length fold_left].
    change (Z.of_nat 0) with 0. rewrite Z.pow_0_r. lia. }
  destruct (Z.eq_dec v 0) as [->|]; [done|].
  rewrite Nat2Z.inj_add, Z2Nat.id by apply Z.log2_nonneg.
  pose proof (Z.log2_spec v ltac:(lia)). 
  replace (Z.log2 v + Z.of_nat 1) with (Z.succ (Z.log2 v)) by lia. lia.
Qed.

(** ** Base58: the output string *)

Lemma chars_index (b : byte) :
  byte_to_Z b < 58 →
  index (list_byte_of_string Base58.chars) (byte_to_Z b) = Some (Base58.symbol_byte b).
Proof.
  destruct b; intros H; first [reflexivity | vm_compute in H; discriminate H].
Qed.

Lemma symbol_byte_ascii (b : byte) :
  ascii_of_byte (Base58.symbol_byte b) = Base58.symbol (byte_to_Z b).
Proof. destruct b; reflexivity. Qed.

(** A loop that writes the cells [lo ..] of an array one by one. *)
Lemma fill_loop {A} (T : list A) (d0 : A) (body : Z → list A → option (list A))
    (lo n N : nat) :
  (lo + n ≤ N)%nat → (lo + n ≤ length T)%nat →
  (∀ j x e, (j < n)%nat → T !! (lo + j)%nat = Some x →
     body (Z.of_nat lo + Z.of_nat j) e = store e (Z.of_nat (lo + j)) x) →
  for_loop (Z.of_nat lo) n body (take lo T ++ replicate (N - lo) d0)
  = Some (take (lo + n) T ++ replicate (N - (lo + n)) d0).
Proof.
  intros HN HT Hbody.
  destruct (for_loop_inv_nat
    (λ j e, e = take (lo + j) T ++ replicate (N - (lo + j)) d0)
    body (Z.of_nat lo) n (take lo T ++ replicate (N - lo) d0)) as (e & E & ->).
  - by rewrite Nat.add_0_r.
  - intros j e Hj ->.
    destruct (lookup_lt_is_Some_2 T (lo + j)) as [x Ex]; [lia|].
    eexists. split; [|reflexivity].
    rewrite (Hbody j x _ Hj Ex).
    replace (lo + S j)%nat with (S (lo + j)) by lia.
    apply fill_step; [done|lia].
  - done.
Qed.

Lemma encode_tail (z : nat) (buf : list byte) :
  Forall Base58.is_digit buf → Z.of_nat z + len buf < 2 ^ 63 →
  (encode ← Base58.make (int (Z.of_nat z + len buf));
   encode ← for_loop 0 (Z.to_nat (Z.of_nat z)) (λ i encode, store encode i "1"%byte) encode;
   encode ← for_loop (Z.of_nat z) (Z.to_nat (len encode - Z.of_nat z))
              (λ i encode,
                 d ← index buf (i - Z.of_nat z);
                 c ← index (list_byte_of_string Base58.chars) (byte_to_Z d);
                 store encode i c) encode;
   Some (string_of_list_byte encode))
  = Some (string_of_list_ascii
            (replicate z "1"%char ++ map Base58.symbol (map byte_to_Z buf))).
Proof.
  intros Hdig Hsmall.
  set (T := replicate z "1"%byte ++ map Base58.symbol_byte buf).
  set (N := (z + length buf)%nat).
  assert (HT : length T = N)
    by (subst T N; rewrite length_app, length_replicate, length_map; done).
  rewrite int_small by (unfold len in *; lia).
  unfold Base58.make. rewrite decide_False by (unfold len; lia).
  cbn [mbind option_bind].
  replace (Z.to_nat (Z.of_nat z + len buf)) with N by (subst N; unfold len; lia).
  rewrite Nat2Z.id.
  pose proof (fill_loop T x00 (λ i encode, store encode i "1"%byte) 0 z N) as H1.
  rewrite take_0, Nat.sub_0_r in H1. cbn [app] in H1. change (Z.of_nat 0) with 0 in H1.
  rewrite H1; [|subst N; lia|lia|]; clear H1.
  2:{ intros j x e Hj Hx. cbn [Nat.add] in *. rewrite Z.add_0_l. f_equal.
      subst T. rewrite lookup_app_l in Hx by (rewrite length_replicate; lia).
      apply lookup_replicate in Hx as [-> _]. done. }
  cbn [mbind option_bind Nat.add].
  assert (Hlen : Z.to_nat (len (take z T ++ replicate (N - z) x00) - Z.of_nat z) = length buf).
  { unfold len. rewrite length_app, length_take, length_replicate. subst N. lia. }
  rewrite Hlen.
  rewrite (fill_loop T x00 _ z (length buf) N); [|subst N; lia|lia|].
  2:{ intros j x e Hj Hx.
      replace (Z.of_nat z + Z.of_nat j - Z.of_nat z) with (Z.of_nat j) by lia.
      rewrite index_nat.
      destruct (lookup_lt_is_Some_2 buf j Hj) as [d Ed]. rewrite Ed.
      cbn [mbind option_bind].
      rewrite chars_index by (by eapply (Forall_lookup_1 _ _ _ _ Hdig)).
      cbn [mbind option_bind].
      subst T. rewrite lookup_app_r in Hx by (rewrite length_replicate; lia).
      rewrite length_replicate in Hx.
      replace (z + j - z)%nat with j in Hx by lia.
      rewrite list_lookup_fmap, Ed in Hx. injection Hx as <-.
      f_equal. lia. }
  cbn [mbind option_bind]. f_equal.
  replace (N - (z + length buf))%nat with O by (subst N; lia).
  rewrite take_ge by lia. cbn [replicate]. rewrite app_nil_r.
  unfold string_of_list_byte. f_equal. subst T.
  rewrite map_app. f_equal.
  - clear. induction z as [|z IH]; [done|]. cbn. by rewrite IH.
  - rewrite !map_map. apply map_ext. intros b. apply symbol_byte_ascii.
Qed.

(** ** Base58: [Encode] *)

(** The size of the buffer [Encode] allocates, without wrap-around on the
    inputs considered. *)
Lemma buffer_size (n z : Z) :
  0 ≤ z ≤ n → 137 * n < 2 ^ 63 →
  int (int (int (n - z) * 137) ÷ 100 + 1) = (n - z) * 137 / 100 + 1.
Proof.
  intros Hz Hn. change (2 ^ 63) with 9223372036854775808 in Hn.
  rewrite (int_small (n - z)) by (change (2 ^ 63) with 9223372036854775808; lia).
  rewrite (int_small ((n - z) * 137)) by (change (2 ^ 63) with 9223372036854775808; lia).
  rewrite Z.quot_div_nonneg by lia.
  apply int_small. change (2 ^ 63) with 9223372036854775808.
  Z.div_mod_to_equations; lia.
Qed.

(** The state of [Encode] when the bytes [rest] that follow the leading
    zeros, or a prefix of them, have been consumed. *)
Lemma encode_run (d rest post : list byte) :
  137 * len d < 2 ^ 63 →
  drop (Base58.leading_zeros d) d = rest ++ post →
  let z := Z.of_nat (Base58.leading_zeros d) in
  let s := (len d - z) * 137 / 100 + 1 in
  ∃ buf high,
    for_loop z (length rest) (Base58.encode_byte d)
      (replicate (Z.to_nat s) x00, len (replicate (Z.to_nat s) x00) - 1) = Some (buf, high)
    ∧ len buf = s
    ∧ Forall Base58.is_digit buf
    ∧ Base58.cells_value buf = Spec.be_value rest
    ∧ (post ≠ [] → Base58.zero_upto high buf)
    ∧ (Base58.cells_value buf + 1) * 256 ^ len post ≤ 58 ^ s.
Proof.
  intros Hd Hsplit z s.
  pose proof (leading_zeros_le d) as Hle.
  set (m := len d - z).
  assert (Hm : 0 ≤ m) by (subst m z; unfold len; lia).
  assert (Hs : 0 < s) by (subst s; fold m; Z.div_mod_to_equations; lia).
  assert (Hmlen : m = len rest + len post).
  { subst m z. unfold len. rewrite <- Nat2Z.inj_add, <- length_app, <- Hsplit, length_drop. lia. }
  pose proof (capacity m Hm) as Hcap. fold s in Hcap.
  assert (Hlb : len (replicate (Z.to_nat s) x00) = s)
    by (unfold len; rewrite length_replicate; lia).
  assert (Hpow : 256 ^ m = 256 ^ len rest * 256 ^ len post).
  { rewrite Hmlen. apply Z.pow_add_r; unfold len; lia. }
  assert (HPp : 0 < 256 ^ len post) by (apply Z.pow_pos_nonneg; unfold len; lia).
  assert (HPr : 0 < 256 ^ len rest) by (apply Z.pow_pos_nonneg; unfold len; lia).
  destruct (encode_loop_spec s post rest (take (Base58.leading_zeros d) d)
              (replicate (Z.to_nat s) x00) (len (replicate (Z.to_nat s) x00) - 1) 0)
    as (buf & high & E & R1 & R2 & R3 & R4).
  - done.
  - done.
  - apply Forall_replicate. unfold Base58.is_digit. done.
  - apply cells_value_zero. intros i b [-> _]%lookup_replicate. done.
  - intros _ i b [-> _]%lookup_replicate _. done.
  - rewrite Z.add_0_l, Z.mul_1_l. etrans; [|exact Hcap]. rewrite Hpow.
    generalize dependent (256 ^ len post). generalize (256 ^ len rest).
    intros; nia.
  - rewrite <- Hsplit, take_drop in E.
    replace (len (take (Base58.leading_zeros d) d)) with z in E
      by (subst z; unfold len; rewrite length_take; lia).
    exists buf, high. split; [exact E|]. split; [done|]. split; [done|].
    pose proof (be_value_bound rest) as Hbv. pose proof (be_value_nonneg rest).
    rewrite Z.mul_0_l, Z.add_0_l in R3.
    split; [done|].
    assert (Hroom : (Base58.cells_value buf + 1) * 256 ^ len post ≤ 58 ^ s).
    { rewrite R3. etrans; [|exact Hcap]. rewrite Hpow.
      apply Z.mul_le_mono_nonneg_r; lia. }
    split; [|done].
    intros Hne. apply R4.
    assert (256 ≤ 256 ^ len post) as H256; [|etrans; [|exact Hroom];
      apply Z.mul_le_mono_nonneg_l; [rewrite R3|]; lia].
    destruct post as [|b' post']; [done|].
    unfold len. cbn [length]. rewrite Nat2Z.inj_succ, Z.pow_succ_r by lia.
    assert (0 < 256 ^ Z.of_nat (length post')) by (apply Z.pow_pos_nonneg; lia).
    lia.
Qed.

Lemma slice_drop (buf : list byte) (i : nat) :
  (i ≤ length buf)%nat → slice buf (Z.of_nat i) (len buf) = Some (drop i buf).
Proof.
  intros Hi. unfold slice, len. rewrite decide_True by lia. f_equal.
  rewrite Nat2Z.id. apply take_ge. rewrite length_drop. lia.
Qed.

Lemma make_nonneg (size : Z) :
  0 ≤ size → Base58.make size = Some (replicate (Z.to_nat size) x00).
Proof. intros. unfold Base58.make. by rewrite decide_False by lia. Qed.

(** [Encode] is the encoding of the specification. *)
Lemma Encode_spec (d : list byte) :
  137 * len d < 2 ^ 63 → Base58.Encode d = Some (Base58.encoded d).
Proof.
  intros Hd. unfold Base58.Encode, Base58.encoded.
  pose proof (first_nonzero_spec d []) as Hz.
  cbn [app] in Hz. change (len []) with 0 in Hz. rewrite Z.add_0_l in Hz.
  rewrite Hz. cbn [mbind option_bind]. clear Hz.
  pose proof (leading_zeros_le d) as Hle.
  set (z := Base58.leading_zeros d) in *.
  rewrite buffer_size by (unfold len in *; lia).
  set (s := (len d - Z.of_nat z) * 137 / 100 + 1).
  assert (Hs : 0 < s) by (subst s; unfold len; Z.div_mod_to_equations; lia).
  rewrite (make_nonneg s) by lia. cbn [mbind option_bind].
  destruct (encode_run d (drop z d) [] Hd) as (buf & high & E & R1 & R2 & R3 & _ & _).
  { by rewrite app_nil_r. }
  fold z s in E.
  replace (Z.to_nat (len d - Z.of_nat z)) with (length (drop z d))
    by (unfold len; rewrite length_drop; lia).
  rewrite E. cbn [mbind option_bind]. clear E.
  pose proof (first_nonzero_spec buf []) as Hi.
  cbn [app] in Hi. change (len []) with 0 in Hi. rewrite Z.add_0_l in Hi.
  rewrite Hi. cbn [mbind option_bind]. clear Hi.
  pose proof (leading_zeros_le buf) as Hle2.
  rewrite slice_drop by done. cbn [mbind option_bind].
  set (buf2 := drop (Base58.leading_zeros buf) buf).
  assert (Hsmall : Z.of_nat z + len buf2 < 2 ^ 63).
  { subst buf2. unfold len in *. rewrite length_drop.
    change (2 ^ 63) with 9223372036854775808 in *. subst s.
    Z.div_mod_to_equations; lia. }
  rewrite encode_tail; [|by apply Forall_drop|done].
  do 3 f_equal.
  rewrite <- R3, <- (leading_zeros_value buf). fold buf2.
  unfold Base58.cells_value. f_equal. symmetry. apply to_base58_unique.
  - apply List.Forall_map.
    apply (Forall_impl Base58.is_digit); [by apply Forall_drop|].
    intros b Hb. pose proof (byte_to_Z_range b). unfold Base58.is_digit in Hb. lia.
  - intros x t Ht. destruct buf2 as [|b t'] eqn:Eb; [done|].
    cbn [map] in Ht. injection Ht as <- _.
    by apply (leading_zeros_head buf t' b).
Qed.

(** What happens at one byte [b] of the input: the carry loop finds every
    cell it touches inside the buffer allocated at the start, and the carry
    it is left with is zero. *)
Lemma carry_in_bounds (d pre post : list byte) (b : byte) :
  137 * len d < 2 ^ 63 →
  drop (Base58.leading_zeros d) d = pre ++ b :: post →
  let z := Z.of_nat (Base58.leading_zeros d) in
  let s := (len d - z) * 137 / 100 + 1 in
  ∃ buf high buf' j,
    for_loop z (length pre) (Base58.encode_byte d)
      (replicate (Z.to_nat s) x00, len (replicate (Z.to_nat s) x00) - 1) = Some (buf, high)
    ∧ len buf = s
    ∧ Base58.carry_loop (length buf) buf high (byte_to_Z b) (len buf - 1) = Some (buf', j, 0)
    ∧ len buf' = s
    ∧ 0 ≤ j < s.
Proof.
  intros Hd Hsplit z s.
  destruct (encode_run d pre (b :: post) Hd Hsplit) as (buf & high & E & R1 & R2 & R3 & R4 & R5).
  fold z s in E, R1, R5.
  exists buf, high.
  assert (Hs : 0 < s).
  { subst s z. pose proof (leading_zeros_le d). unfold len. Z.div_mod_to_equations; lia. }
  destruct (exists_last (l := buf)) as (hi0 & x & ->).
  { intros ->. unfold len in R1. simpl in R1. lia. }
  assert (Hl1 : length (hi0 ++ [x]) = S (length hi0)) by (rewrite length_app; simpl; lia).
  assert (Hl2 : len (hi0 ++ [x]) - 1 = len hi0) by (unfold len; lia).
  pose proof (byte_to_Z_range b) as Hb.
  destruct (carry_loop_spec hi0 x [] high (byte_to_Z b))
    as (hi' & j & c' & E' & Hl & Hdg & Hv & Hc' & Hj & Hz); [lia|done|by apply R4|].
  rewrite app_nil_r in E'.
  assert (Hs' : Z.of_nat (S (length hi0)) = s) by (unfold len in R1; lia).
  rewrite Hs' in Hv.
  pose proof (cells_value_nonneg hi') as Hnn.
  pose proof (cells_value_nonneg (hi0 ++ [x])) as Hnn0.
  assert (Hlr : len (b :: post) = Z.succ (len post)) by (unfold len; simpl; lia).
  rewrite Hlr, Z.pow_succ_r in R5 by (unfold len; lia).
  assert (HP : 0 < 256 ^ len post) by (apply Z.pow_pos_nonneg; unfold len; lia).
  assert (HQ : 0 < 58 ^ s) by (apply Z.pow_pos_nonneg; lia).
  assert (c' = 0) as ->.
  { generalize dependent (256 ^ len post). generalize dependent (58 ^ s).
    generalize dependent (Base58.cells_value (hi0 ++ [x])).
    generalize dependent (Base58.cells_value hi'). intros. nia. }
  exists hi', j. rewrite Hl1, Hl2.
  split; [exact E|]. split; [done|]. split; [exact E'|].
  unfold len in *. split; lia.
Qed.

(** ** [FromString] *)

Lemma list_pair_ind {A} (P : list A → Prop) :
  P [] → (∀ x, P [x]) → (∀ x y l, P l → P (x :: y :: l)) → ∀ l, P l.
Proof.
  intros H0 H1 H2 l.
  assert (P l ∧ ∀ x, P (x :: l)) as [? _]; [|done].
  induction l as [|y l [IH1 IH2]]; [by split|].
  split; [apply IH2|]. intros x. by apply H2.
Qed.

(** [hex_Decode] succeeds exactly on an even number of hexadecimal
    characters, and then yields one byte for every two of them. *)
Lemma hex_Decode_spec (src : list byte) :
  ∀ dst,
    match Hash256.hex_Decode src dst with
    | (out, None) =>
        Forall (λ b, is_Some (Hash256.fromHexChar b)) src
        ∧ ∃ n, length src = (2 * n)%nat ∧ length out = (length dst + n)%nat
    | (out, Some _) =>
        ¬ (Forall (λ b, is_Some (Hash256.fromHexChar b)) src
           ∧ ∃ n, length src = (2 * n)%nat)
    end.
Proof.
  induction src as [|p|p q src IH] using list_pair_ind; intros dst.
  - cbn. split; [done|]. exists O. split; lia.
  - cbn [Hash256.hex_Decode].
    destruct (Hash256.fromHexChar p); intros [_ [n Hn]]; cbn in Hn; lia.
  - cbn [Hash256.hex_Decode].
    destruct (Hash256.fromHexChar p) as [a|] eqn:Ep.
    2:{ intros [H _]. apply Forall_cons in H as [[? H] _]. congruence. }
    destruct (Hash256.fromHexChar q) as [b|] eqn:Eq.
    2:{ intros [H _]. apply Forall_cons in H as [_ H].
        apply Forall_cons in H as [[? H] _]. congruence. }
    specialize (IH (dst ++ [uint8 ((a ≪ 4) ||| b)])).
    destruct (Hash256.hex_Decode src _) as [out [e|]].
    + intros [H [n Hn]]. apply IH. split.
      * by do 2 apply Forall_cons in H as [_ H].
      * exists (n - 1)%nat. cbn [length] in Hn. lia.
    + destruct IH as [H [n [Hn Hout]]]. split.
      * repeat apply Forall_cons; rewrite ?Ep, ?Eq; repeat split; eauto.
      * exists (S n). rewrite length_app in Hout. cbn [length] in *. lia.
Qed.

Lemma is_hex_digit_byte (b : byte) :
  Hash256.is_hex_digit (ascii_of_byte b)
  = match Hash256.fromHexChar b with Some _ => true | None => false end.
Proof. destruct b; reflexivity. Qed.

Lemma length_list_ascii (s : string) : length (list_ascii_of_string s) = String.length s.
Proof. induction s as [|c s IH]; [done|]. cbn. by rewrite IH. Qed.

Lemma valid_hex_bytes (s : string) :
  Hash256.valid_hex s = true ↔
  length (list_byte_of_string s) = 64%nat
  ∧ Forall (λ b, is_Some (Hash256.fromHexChar b)) (list_byte_of_string s).
Proof.
  unfold Hash256.valid_hex, list_byte_of_string.
  rewrite andb_true_iff, Nat.eqb_eq, length_map, length_list_ascii.
  apply and_iff_compat_l.
  rewrite forallb_forall, List.Forall_map, List.Forall_forall.
  apply forall_proper. intros c. apply forall_proper. intros _.
  rewrite <- (ascii_of_byte_of_ascii c) at 1. rewrite is_hex_digit_byte.
  destruct (Hash256.fromHexChar (byte_of_ascii c)); split; done.
Qed.

(** [FromString] never panics; it returns a digest and no error on the
    valid strings, and the zero digest with an error on all others. *)
Lemma FromString_spec (s : string) :
  if Hash256.valid_hex s
  then Hash256.FromString s = Some (Spec.words (Hash256.hex_DecodeString s).1, None)
  else ∃ e, Hash256.FromString s = Some (replicate 8 0, Some e).
Proof.
  pose proof (valid_hex_bytes s) as Hv.
  pose proof (hex_Decode_spec (list_byte_of_string s) []) as Hd.
  unfold Hash256.FromString, Hash256.hex_DecodeString in *.
  destruct (Hash256.hex_Decode (list_byte_of_string s) []) as [out [e|]].
  - destruct (Hash256.valid_hex s).
    + exfalso. apply Hd. destruct Hv as [Hv _]. destruct (Hv eq_refl) as [Hl Hf].
      split; [done|]. exists 32%nat. lia.
    + by exists e.
  - destruct Hd as [Hf [n [Hn Hout]]]. cbn [length] in Hout.
    destruct (Hash256.valid_hex s).
    + destruct Hv as [Hv _]. destruct (Hv eq_refl) as [Hl _].
      assert (length out = 32%nat) by lia.
      rewrite decide_False by (unfold len, Size256; lia).
      rewrite (conv8to32_words out 8) by (unfold len; lia). done.
    + destruct (decide (len out ≠ Size256)) as [Hne|He]; [by eexists|].
      exfalso. assert (false = true); [|done]. apply Hv.
      unfold len, Size256 in He. split; [lia|done].
Qed.

(** ** Remaining facts about the digits and the leading zeros *)

Lemma digits58_range (fuel : nat) :
  ∀ v acc, Forall (λ x, 0 ≤ x < 58) acc →
    Forall (λ x, 0 ≤ x < 58) (Base58.digits58 fuel v acc).
Proof.
  induction fuel as [|fuel IH]; intros v acc Hacc; [done|].
  cbn [Base58.digits58]. destruct (v <=? 0); [done|].
  apply IH. apply Forall_cons. split; [|done].
  apply Z.mod_pos_bound. lia.
Qed.

Lemma digits58_head (fuel : nat) :
  ∀ v acc, 0 ≤ v → v < 2 ^ Z.of_nat fuel →
    (v = 0 → ∀ x t, acc = x :: t → x ≠ 0) →
    ∀ x t, Base58.digits58 fuel v acc = x :: t → x ≠ 0.
Proof.
  induction fuel as [|fuel IH]; intros v acc Hv Hlt Hacc.
  - change (Z.of_nat 0) with 0 in Hlt. rewrite Z.pow_0_r in Hlt.
    cbn [Base58.digits58]. apply Hacc. lia.
  - cbn [Base58.digits58]. destruct (Z.leb_spec v 0); [apply Hacc; lia|].
    rewrite Nat2Z.inj_succ, Z.pow_succ_r in Hlt by lia.
    apply IH.
    + apply Z.div_pos; lia.
    + apply Z.div_lt_upper_bound; lia.
    + intros H0 x t [= <- _]. Z.div_mod_to_equations. lia.
Qed.

Lemma to_base58_head (v : Z) :
  0 ≤ v → ∀ x t, Base58.to_base58 v = x :: t → x ≠ 0.
Proof.
  intros Hv. unfold Base58.to_base58. apply digits58_head; [done| |done].
  destruct (Z.eq_dec v 0) as [->|]; [done|].
  rewrite Nat2Z.inj_add, Z2Nat.id by apply Z.log2_nonneg.
  pose proof (Z.log2_spec v ltac:(lia)).
  replace (Z.log2 v + Z.of_nat 1) with (Z.succ (Z.log2 v)) by lia. lia.
Qed.

Lemma leading_zeros_take (l : list byte) :
  take (Base58.leading_zeros l) l = replicate (Base58.leading_zeros l) x00.
Proof.
  rewrite (leading_zeros_drop l) at 2.
  apply take_app_length'. by rewrite length_replicate.
Qed.

Lemma leading_zeros_replicate (n : nat) :
  Base58.leading_zeros (replicate n x00) = n.
Proof. induction n as [|n IH]; [done|]. cbn. by rewrite IH. Qed.

Lemma string_length_0 (s : string) : String.length s = 0%nat → s = ""%string.
Proof. by destruct s. Qed.

(** ** Known answers

    The SHA-256 of the specification on the two standard test vectors, and
    the source on the second. *)

Example sha256_empty_string :
  Spec.sha256 [] = (Hash256.hex_DecodeString empty_digest_hex).1.
Proof. vm_compute. reflexivity. Qed.

Example sha256_abc :
  Spec.sha256 (list_byte_of_string "abc") = (Hash256.hex_DecodeString abc_digest_hex).1.
Proof. vm_compute. reflexivity. Qed.

Example Sha2_256_abc :
  Sha2.Sha2_256 (list_byte_of_string "abc")
  = Some (Hash256.hex_DecodeString abc_digest_hex).1.
Proof. vm_compute. reflexivity. Qed.

(** What [Sha2_256] does write: with spare capacity behind the caller's
    slice, the cell after its last byte holds the marker afterwards. *)
Example spare_capacity_written :
  ∃ m' out,
    Mem.Sha2_256 {[ 0%nat := replicate 100 x01 ]} (Mem.SliceHdr 0 0 1 100) = Some (m', out)
    ∧ Mem.contents m' (Mem.SliceHdr 0 0 1 100) = Some [x01]
    ∧ Mem.contents m' (Mem.SliceHdr 0 0 2 100) = Some [x01; x80].
Proof. eexists _, _. split; [vm_compute; reflexivity|]. split; vm_compute; reflexivity. Qed.

(** * The claims *)

(** C1.  For every byte sequence [d] in the domain of SHA-256 (a message
    shorter than [2^64] bits, that is [2^61] bytes), [Sha2_256 d] returns
    without panic the 32-byte digest that the SHA-256 of the specification
    ([Spec.sha256]: padding, message schedule, 64 compression rounds per
    block, big-endian serialization, constants from the primes) assigns
    to [d], byte for byte; and equal inputs give equal outputs. *)
Theorem Sha2_256_is_sha256 (d : list byte) :
  len d < 2 ^ 61 →
  Sha2.Sha2_256 d = Some (Spec.sha256 d)
  ∧ length (Spec.sha256 d) = 32%nat
  ∧ ∀ d', d' = d → Sha2.Sha2_256 d' = Sha2.Sha2_256 d.
Proof.
  intros Hd. split; [by apply Sha2_256_spec|]. split; [apply sha256_length|].
  by intros d' ->.
Qed.

Lemma Sha2_256_is_sha256_witness :
  len (list_byte_of_string "abc") < 2 ^ 61
  ∧ Sha2.Sha2_256 (list_byte_of_string "abc")
    = Some (Spec.sha256 (list_byte_of_string "abc")).
Proof.
  split; [reflexivity|].
  exact (proj1 (Sha2_256_is_sha256 (list_byte_of_string "abc") eq_refl)).
Defined.

(** C2.  For every byte sequence [d] of length [n] (below [2^61]),
    [pad512 d] returns [d], then the byte [0x80], then [pad_zeros n] zero
    bytes, then the 8-byte big-endian encoding of [8 n]; the length of the
    result is a multiple of 64; no smaller number of zero bytes makes it
    one; a full extra block is added exactly when [64 - n mod 64 < 9]; the
    empty input gives one block of 64 bytes, and the lengths 0, 55, 56 and
    64 give 1, 1, 2 and 2 blocks. *)
Theorem pad512_layout (d : list byte) :
  len d < 2 ^ 61 →
  ∃ p,
    pad512 d = Some p
    ∧ p = d ++ [x80] ++ replicate (Spec.pad_zeros (len d)) x00
            ++ Spec.be_encode 8 (8 * len d)
    ∧ length (Spec.be_encode 8 (8 * len d)) = 8%nat
    ∧ Spec.be_value (Spec.be_encode 8 (8 * len d)) = 8 * len d
    ∧ len p mod 64 = 0
    ∧ (∀ z : nat, (len d + 1 + Z.of_nat z + 8) mod 64 = 0 →
         (Spec.pad_zeros (len d) ≤ z)%nat)
    ∧ len p / 64 = len d / 64 + (if 64 - len d mod 64 <? 9 then 2 else 1)
    ∧ (len d = 0 → len p = 64)
    ∧ (len d = 0 → len p / 64 = 1)
    ∧ (len d = 55 → len p / 64 = 1)
    ∧ (len d = 56 → len p / 64 = 2)
    ∧ (len d = 64 → len p / 64 = 2).
Proof.
  intros Hd. assert (0 ≤ len d) by (unfold len; lia).
  change (2 ^ 61) with 2305843009213693952 in Hd.
  exists (Spec.padded d). split; [by apply pad512_padded|].
  split; [done|]. split; [apply be_encode_length|].
  split.
  { rewrite be_value_encode. change (256 ^ Z.of_nat 8) with 18446744073709551616.
    apply Z.mod_small. lia. }
  split; [apply padded_length_mod|].
  assert (Hz : Z.of_nat (Spec.pad_zeros (len d)) = (55 - len d) mod 64).
  { unfold Spec.pad_zeros. apply Z2Nat.id. apply Z.mod_pos_bound. lia. }
  split.
  { intros z Hzm. apply Nat2Z.inj_le. rewrite Hz. Z.div_mod_to_equations. lia. }
  rewrite padded_length, Hz.
  split.
  { destruct (Z.ltb_spec (64 - len d mod 64) 9); Z.div_mod_to_equations; lia. }
  repeat split; intros ->; reflexivity.
Qed.

Lemma pad512_layout_witness :
  len (replicate 56 x01) < 2 ^ 61
  ∧ ∃ p, pad512 (replicate 56 x01) = Some p ∧ len p / 64 = 2.
Proof.
  split; [reflexivity|].
  destruct (pad512_layout (replicate 56 x01) eq_refl)
    as (p & Hp & _ & _ & _ & _ & _ & _ & _ & _ & _ & H56 & _).
  exists p. split; [exact Hp|]. apply H56. reflexivity.
Defined.

(** C3.  For every byte sequence [d] with [z] leading zero bytes (and a
    length whose product with 137 fits Go's [int]), [Encode d] returns
    without panic the character ['1'] repeated [z] times followed by the
    symbols of the base-58 digits of the remaining bytes read as a big-endian
    unsigned integer, most significant digit first; these digits denote
    that integer, each is below 58 and the first is not zero.  In
    particular the empty sequence gives the empty string, an all-zero
    sequence one ['1'] per byte, and [[0x00, 0x01]] gives ["12"]. *)
Theorem Encode_digits (d : list byte) :
  137 * len d < 2 ^ 63 →
  let z := Base58.leading_zeros d in
  let ds := Base58.to_base58 (Spec.be_value (drop z d)) in
  Base58.Encode d
    = Some (string_of_list_ascii (replicate z "1"%char ++ map Base58.symbol ds))
  ∧ take z d = replicate z x00
  ∧ (∀ b t, drop z d = b :: t → b ≠ x00)
  ∧ Base58.value58 ds = Spec.be_value (drop z d)
  ∧ Forall (λ x, 0 ≤ x < 58) ds
  ∧ (∀ x t, ds = x :: t → x ≠ 0)
  ∧ (d = [] → Base58.Encode d = Some ""%string)
  ∧ (∀ n, d = replicate n x00 →
       Base58.Encode d = Some (string_of_list_ascii (replicate n "1"%char)))
  ∧ Base58.Encode [x00; x01] = Some "12"%string.
Proof.
  intros Hd z ds.
  pose proof (be_value_nonneg (drop z d)) as Hnn.
  split; [exact (Encode_spec d Hd)|].
  split; [apply leading_zeros_take|].
  split.
  { intros b t Hb ->. by apply (leading_zeros_head d t x00). }
  split; [by apply to_base58_value|].
  split; [apply digits58_range; done|].
  split; [by apply to_base58_head|].
  split; [by intros ->|].
  split; [|reflexivity].
  intros n ->. rewrite Encode_spec by done. unfold Base58.encoded.
  rewrite leading_zeros_replicate, drop_replicate, Nat.sub_diag.
  cbn [replicate]. by rewrite app_nil_r.
Qed.

Lemma Encode_digits_witness :
  137 * len (list_byte_of_string "Hello World!") < 2 ^ 63
  ∧ Base58.Encode (list_byte_of_string "Hello World!") = Some "2NEpo7TZRRrLZSi2U"%string.
Proof.
  split; [reflexivity|].
  exact (proj1 (Encode_digits (list_byte_of_string "Hello World!") eq_refl)).
Defined.

(** C4.  The two SHA-256 codepaths compute the same function: for every
    byte sequence [d] (below [2^61] bytes), [Sha2_256] of [sha2/sha2.go] and
    [Sha2_256] built on [Hash256.Add512] both return, without panic, the
    same 32-byte digest. *)
Theorem codepaths_agree (d : list byte) :
  len d < 2 ^ 61 →
  ∃ out, Sha2.Sha2_256 d = Some out ∧ Hash256.Sha2_256 d = Some out
         ∧ length out = 32%nat.
Proof.
  intros Hd. exists (Spec.sha256 d).
  split; [by apply Sha2_256_spec|]. split; [by apply Hash256_Sha2_256_spec|].
  apply sha256_length.
Qed.

Lemma codepaths_agree_witness :
  len (replicate 70 x61) < 2 ^ 61
  ∧ ∃ out, Sha2.Sha2_256 (replicate 70 x61) = Some out
           ∧ Hash256.Sha2_256 (replicate 70 x61) = Some out
           ∧ length out = 32%nat.
Proof.
  split; [reflexivity|]. exact (codepaths_agree (replicate 70 x61) eq_refl).
Defined.

(** C5.  The buffer of [((len(d) - z) * 137) / 100 + 1] cells that [Encode]
    allocates is sufficient.  At every byte [b] of the input after the
    leading zeros, in the state the loop has reached there, the carry loop
    returns: no index it used was outside the buffer (an index outside it
    makes the model return [None]); the carry it is left with is zero, so
    nothing was lost at the top cell; the buffer has the length it was
    allocated with before and after; the new high mark is an index of the
    buffer; and [Encode] itself returns. *)
Theorem Encode_buffer_sufficient (d pre post : list byte) (b : byte) :
  137 * len d < 2 ^ 63 →
  drop (Base58.leading_zeros d) d = pre ++ b :: post →
  let z := Z.of_nat (Base58.leading_zeros d) in
  let s := (len d - z) * 137 / 100 + 1 in
  ∃ buf0 buf high buf' j,
    Base58.make (int (int (int (len d - z) * 137) ÷ 100 + 1)) = Some buf0
    ∧ len buf0 = s
    ∧ for_loop z (length pre) (Base58.encode_byte d) (buf0, len buf0 - 1) = Some (buf, high)
    ∧ len buf = s
    ∧ Base58.carry_loop (length buf) buf high (byte_to_Z b) (len buf - 1)
      = Some (buf', j, 0)
    ∧ len buf' = s
    ∧ 0 ≤ j < s
    ∧ is_Some (Base58.Encode d).
Proof.
  intros Hd Hsplit z s.
  pose proof (leading_zeros_le d) as Hle.
  assert (Hs : 0 < s) by (subst s z; unfold len; Z.div_mod_to_equations; lia).
  destruct (carry_in_bounds d pre post b Hd Hsplit)
    as (buf & high & buf' & j & E1 & R1 & E2 & R2 & Hj).
  fold z s in E1, R1, R2, Hj.
  exists (replicate (Z.to_nat s) x00), buf, high, buf', j.
  split.
  { subst s z. rewrite buffer_size by (unfold len in *; lia).
    apply make_nonneg. lia. }
  split; [unfold len; rewrite length_replicate; lia|].
  split; [exact E1|]. split; [done|]. split; [exact E2|]. split; [done|].
  split; [done|]. rewrite Encode_spec by done. by eexists.
Qed.

Lemma Encode_buffer_sufficient_witness :
  137 * len [x00; xff; xff; xff] < 2 ^ 63
  ∧ drop (Base58.leading_zeros [x00; xff; xff; xff]) [x00; xff; xff; xff]
    = [xff; xff] ++ xff :: []
  ∧ is_Some (Base58.Encode [x00; xff; xff; xff]).
Proof.
  split; [reflexivity|]. split; [reflexivity|].
  destruct (Encode_buffer_sufficient [x00; xff; xff; xff] [xff; xff] [] xff eq_refl eq_refl)
    as (? & ? & ? & ? & ? & _ & _ & _ & _ & _ & _ & _ & H).
  exact H.
Defined.

(** C6.  [Sha2_256] of the empty byte sequence is the standard digest of
    the empty string, the 32 bytes
    [e3b0c44298fc1c149afbf4c8996fb92427ae41e4649b934ca495991b7852b855];
    the literal the known-answer test restates has 63 characters and is
    that digest without its last character. *)
Theorem Sha2_256_empty :
  Sha2.Sha2_256 [] = Some (Hash256.hex_DecodeString empty_digest_hex).1
  ∧ (Hash256.hex_DecodeString empty_digest_hex).2 = None
  ∧ length (Hash256.hex_DecodeString empty_digest_hex).1 = 32%nat
  ∧ String.length empty_digest_restated = 63%nat
  ∧ substring 0 63 empty_digest_hex = empty_digest_restated.
Proof. repeat split; vm_compute; reflexivity. Qed.

(** C7.  [FromString s] returns a [Hash256] and no error exactly when [s]
    is 64 hexadecimal characters, in either case, which decode to 32
    bytes; on every other string it returns an error and the zero
    [Hash256].  It never panics.  ([hex.DecodeString] is Go's, modelled
    after its documentation.) *)
Theorem FromString_accepts (s : string) :
  if Hash256.valid_hex s
  then ∃ h, Hash256.FromString s = Some (h, None)
            ∧ h = Spec.words (Hash256.hex_DecodeString s).1
            ∧ length (Hash256.hex_DecodeString s).1 = 32%nat
            ∧ length h = 8%nat
  else ∃ e, Hash256.FromString s = Some (replicate 8 0, Some e).
Proof.
  pose proof (FromString_spec s) as H.
  pose proof (valid_hex_bytes s) as Hv.
  pose proof (hex_Decode_spec (list_byte_of_string s) []) as Hd.
  destruct (Hash256.valid_hex s); [|done].
  destruct Hv as [Hv _]. destruct (Hv eq_refl) as [Hl Hf].
  unfold Hash256.hex_DecodeString in *.
  destruct (Hash256.hex_Decode (list_byte_of_string s) []) as [out [e|]].
  - exfalso. apply Hd. split; [done|]. exists 32%nat. lia.
  - destruct Hd as [_ [n [Hn Hout]]]. cbn [length] in Hout.
    assert (length out = 32%nat) by lia.
    eexists. split; [exact H|]. cbn [fst]. split; [done|]. split; [done|].
    by apply words_length.
Qed.

(** C8.  [Decode] of the empty string returns no data and an error. *)
Theorem Decode_empty :
  Base58.Decode "" = (None, Some "no input"%string).
Proof. reflexivity. Qed.

(** C9.  Computing [Sha2_256] leaves the caller's bytes unchanged: if the
    slice [data] gives access to the bytes [d] before the call (below
    [2^61] of them), the call returns the digest of [d] and [data] gives
    access to the same bytes [d] after it, whether [append] wrote into the
    backing array of [data] or into a new one. *)
Theorem Sha2_256_preserves_input (m : gmap nat (list byte)) (data : Mem.slice_hdr)
    (d : list byte) :
  Mem.contents m data = Some d →
  len d < 2 ^ 61 →
  ∃ m' out,
    Mem.Sha2_256 m data = Some (m', out)
    ∧ Sha2.Sha2_256 d = Some out
    ∧ Mem.contents m' data = Some d.
Proof.
  intros Hc Hd.
  destruct (Sha2_256_mem m data data d d Hc Hc) as (m' & E & Hc'); [right; split; lia|done|].
  exists m', (Spec.sha256 d). split; [done|]. split; [by apply Sha2_256_spec|done].
Qed.

Lemma Sha2_256_preserves_input_witness :
  Mem.contents {[ 0%nat := replicate 100 x01 ]} (Mem.SliceHdr 0 10 3 90)
    = Some [x01; x01; x01]
  ∧ len [x01; x01; x01] < 2 ^ 61
  ∧ ∃ m' out,
      Mem.Sha2_256 {[ 0%nat := replicate 100 x01 ]} (Mem.SliceHdr 0 10 3 90) = Some (m', out)
      ∧ Sha2.Sha2_256 [x01; x01; x01] = Some out
      ∧ Mem.contents m' (Mem.SliceHdr 0 10 3 90) = Some [x01; x01; x01].
Proof.
  split; [reflexivity|]. split; [reflexivity|].
  exact (Sha2_256_preserves_input {[ 0%nat := replicate 100 x01 ]} (Mem.SliceHdr 0 10 3 90)
           [x01; x01; x01] eq_refl eq_refl).
Defined.

(** C10.  On every non-empty string [Decode] returns a nil slice and a
    nil error, whatever the characters of the string. *)
Theorem Decode_nonempty (s : string) :
  s ≠ ""%string → Base58.Decode s = (None, None).
Proof.
  intros Hs. unfold Base58.Decode. rewrite decide_False; [done|].
  intros H. by apply Hs, string_length_0.
Qed.

Lemma Decode_nonempty_witness :
  "0OIl"%string ≠ ""%string ∧ Base58.Decode "0OIl" = (None, None).
Proof.
  split; [discriminate|]. apply (Decode_nonempty "0OIl"). discriminate.
Defined.

(** * Further properties of the code *)

(** ** The conversions between bytes and words, on any destination *)

(** A loop that stores the [j]-th element of [T] at index [j] leaves [T],
    whatever the destination held. *)
Lemma overwrite_loop {A} (T dst : list A) (body : Z → list A → option (list A)) :
  length dst = length T →
  (∀ j x e, T !! j = Some x → length e = length T →
            body (Z.of_nat j) e = store e (Z.of_nat j) x) →
  for_loop 0 (length T) body dst = Some T.
Proof.
  intros HL Hb.
  destruct (for_loop_inv_nat (λ j s, s = take j T ++ drop j dst) body 0 (length T) dst)
    as (s' & E & ->).
  - by rewrite take_0, drop_0.
  - intros j s Hj ->. destruct (lookup_lt_is_Some_2 T j Hj) as [x Hx].
    exists (take (S j) T ++ drop (S j) dst). split; [|done].
    rewrite Z.add_0_l, (Hb j x);
      [|done|rewrite length_app, length_take, length_drop; lia].
    destruct (lookup_lt_is_Some_2 dst j) as [y Hy]; [lia|].
    rewrite (drop_S _ _ _ Hy).
    rewrite store_middle by (unfold len; rewrite length_take; lia).
    by rewrite (take_S_r _ _ _ Hx), <- app_assoc.
  - rewrite E. f_equal. rewrite take_ge, drop_ge by lia. by rewrite app_nil_r.
Qed.

Lemma conv8to32_any (dst : list Z) (src : list byte) :
  length src = (4 * length dst)%nat → len src < 2 ^ 63 →
  conv8to32 dst src = Some (Spec.words src).
Proof.
  intros HL Hs. unfold conv8to32.
  rewrite int_small by (unfold len in *; lia).
  rewrite decide_False by (unfold len; lia).
  pose proof (words_length src (length dst) HL) as HW.
  rewrite <- HW. apply overwrite_loop; [done|].
  intros j x e Hx He.
  destruct (load32_words src j) as (y & Ey & Hy).
  { apply lookup_lt_Some in Hx. lia. }
  rewrite Ey. cbn [mbind option_bind]. congruence.
Qed.

Lemma store32_at (pre rest : list byte) (a b c d : byte) (j x : Z) :
  j = len pre →
  store32 (pre ++ a :: b :: c :: d :: rest) j x = Some (pre ++ Spec.be_encode 4 x ++ rest).
Proof.
  intros ->. unfold store32. rewrite be_encode_4.
  rewrite (store_app_r pre _ _ 0), (store_eq _ 0 0%nat) by (simpl; lia).
  cbn [fmap option_fmap option_map mbind option_bind list_insert].
  rewrite (store_app_r pre _ _ 1), (store_eq _ 1 1%nat) by (simpl; lia).
  cbn [fmap option_fmap option_map mbind option_bind list_insert].
  rewrite (store_app_r pre _ _ 2), (store_eq _ 2 2%nat) by (simpl; lia).
  cbn [fmap option_fmap option_map mbind option_bind list_insert].
  rewrite (store_app_r pre _ _ 3), (store_eq _ 3 3%nat) by (simpl; lia).
  done.
Qed.

Lemma conv32to8_any (dst : list byte) (src : list Z) :
  length dst = (4 * length src)%nat → len dst < 2 ^ 63 →
  conv32to8 dst src = Some (concat (map (Spec.be_encode 4) src)).
Proof.
  intros HL Hs. unfold conv32to8.
  rewrite int_small by (unfold len in *; lia).
  rewrite decide_False by (unfold len; lia).
  destruct (for_loop_inv_nat
              (λ j s, s = concat (map (Spec.be_encode 4) (take j src)) ++ drop (4 * j) dst)
              (λ i dst, x ← index src i; store32 dst (i * 4) x) 0 (length src) dst)
    as (s' & E & ->).
  - by rewrite take_0, Nat.mul_0_r, drop_0.
  - intros j s Hj ->. destruct (lookup_lt_is_Some_2 src j Hj) as [x Hx].
    rewrite Z.add_0_l, index_nat, Hx. cbn [mbind option_bind].
    assert (HP : length (concat (map (Spec.be_encode 4) (take j src))) = (4 * j)%nat).
    { clear -Hj. revert j Hj. induction src as [|y src IH]; intros j Hj; [simpl in Hj; lia|].
      destruct j as [|j]; [done|]. simpl in Hj. cbn [take map concat].
      rewrite length_app, be_encode_length, IH by lia. lia. }
    destruct (drop (4 * j) dst) as [|a [|b [|c [|d rest]]]] eqn:ED;
      try (apply (f_equal length) in ED; rewrite length_drop in ED; simpl in ED; lia).
    eexists. split.
    + apply store32_at. unfold len. lia.
    + rewrite (take_S_r _ _ _ Hx), map_app, concat_app. cbn [map concat].
      rewrite app_nil_r, <- !app_assoc. do 2 f_equal.
      replace (4 * S j)%nat with (4 * j + 4)%nat by lia.
      rewrite <- drop_drop, ED. done.
  - rewrite E. f_equal. rewrite take_ge, drop_ge by lia. by rewrite app_nil_r.
Qed.

Lemma be_encode_value (bs : list byte) :
  Spec.be_encode (length bs) (Spec.be_value bs) = bs.
Proof.
  induction bs as [|b bs IH] using rev_ind; [done|].
  rewrite length_app, Nat.add_1_r, be_value_snoc. cbn [Spec.be_encode length].
  pose proof (byte_to_Z_range b).
  replace ((Spec.be_value bs * 256 + byte_to_Z b) / 256) with (Spec.be_value bs)
    by (apply (Z.div_unique _ _ _ (byte_to_Z b)); lia).
  rewrite IH. f_equal. f_equal.
  rewrite <- uint8_mod, Z.add_comm, Z.mod_add, uint8_mod by lia.
  apply uint8_byte_to_Z.
Qed.

Lemma concat_words (n : nat) : ∀ src : list byte,
  length src = (4 * n)%nat → concat (map (Spec.be_encode 4) (Spec.words src)) = src.
Proof.
  induction n as [|n IH]; intros src HL.
  - by destruct src.
  - destruct src as [|a [|b [|c [|d src]]]]; try (simpl in HL; lia).
    cbn [Spec.words map concat].
    pose proof (be_encode_value [a; b; c; d]) as HE. cbn [length] in HE.
    rewrite HE, IH by (simpl in HL; lia). done.
Qed.

Lemma words_concat (ws : list Z) :
  Spec.words (concat (map (Spec.be_encode 4) ws)) = map uint32 ws.
Proof.
  induction ws as [|x ws IH]; [done|].
  cbn [map concat]. pose proof (be_value_encode 4 x) as HV.
  rewrite be_encode_4 in *. cbn [app Spec.words]. rewrite IH, HV. done.
Qed.

Lemma map_uint32_small (ws : list Z) :
  Forall (λ x, 0 ≤ x < 2 ^ 32) ws → map uint32 ws = ws.
Proof.
  induction 1 as [|x ws Hx _ IH]; [done|].
  cbn [map]. by rewrite IH, uint32_small.
Qed.

Lemma concat_be4_length (ws : list Z) :
  length (concat (map (Spec.be_encode 4) ws)) = (4 * length ws)%nat.
Proof.
  induction ws as [|x ws IH]; [done|].
  cbn [map concat length]. rewrite length_app, be_encode_length, IH. lia.
Qed.

(** X1.  Bytes to words and back: [conv8to32] followed by [conv32to8]
    returns the bytes it started from, whatever the two destination slices
    held before. *)
Theorem conv_bytes_roundtrip (src dst8 : list byte) (dst32 : list Z) :
  length src = (4 * length dst32)%nat → length dst8 = length src → len src < 2 ^ 63 →
  (w ← conv8to32 dst32 src; conv32to8 dst8 w) = Some src.
Proof.
  intros H1 H2 H3. rewrite conv8to32_any by done. cbn [mbind option_bind].
  pose proof (words_length src (length dst32) H1) as HW.
  rewrite conv32to8_any by (unfold len in *; lia).
  by rewrite (concat_words (length dst32)).
Qed.

Lemma conv_bytes_roundtrip_witness :
  (w ← conv8to32 [7; 7] [x01; x02; x03; x04; xfc; xfd; xfe; xff];
   conv32to8 (replicate 8 xaa) w)
  = Some [x01; x02; x03; x04; xfc; xfd; xfe; xff].
Proof.
  apply (conv_bytes_roundtrip [x01; x02; x03; x04; xfc; xfd; xfe; xff]
           (replicate 8 xaa) [7; 7]); [reflexivity|reflexivity|vm_compute; reflexivity].
Defined.

(** X2.  Words to bytes and back: [conv32to8] followed by [conv8to32]
    returns the words it started from when each of them is a [uint32],
    whatever the two destination slices held before. *)
Theorem conv_words_roundtrip (ws dst32 : list Z) (dst8 : list byte) :
  Forall (λ x, 0 ≤ x < 2 ^ 32) ws →
  length dst8 = (4 * length ws)%nat → length dst32 = length ws → len dst8 < 2 ^ 63 →
  (b ← conv32to8 dst8 ws; conv8to32 dst32 b) = Some ws.
Proof.
  intros HR H1 H2 H3. rewrite conv32to8_any by done. cbn [mbind option_bind].
  pose proof (concat_be4_length ws) as HL.
  rewrite conv8to32_any by (unfold len in *; lia).
  by rewrite words_concat, map_uint32_small.
Qed.

Lemma conv_words_roundtrip_witness :
  (b ← conv32to8 (replicate 8 xaa) [0x01020304; 0xfffefdfc]; conv8to32 [7; 7] b)
  = Some [0x01020304; 0xfffefdfc].
Proof.
  apply (conv_words_roundtrip [0x01020304; 0xfffefdfc] [7; 7] (replicate 8 xaa));
    [repeat constructor; lia|reflexivity|reflexivity|vm_compute; reflexivity].
Defined.

(** X3.  [conv8to32] panics exactly when [len(src) != 4*len(dst)]: once
    the length check has passed no index of the loop is out of range. *)
Theorem conv8to32_panics (dst : list Z) (src : list byte) :
  4 * len dst < 2 ^ 63 → (conv8to32 dst src = None ↔ len src ≠ 4 * len dst).
Proof.
  intros Hd. split.
  - intros HN HL. rewrite conv8to32_any in HN by (unfold len in *; lia). done.
  - intros HL. unfold conv8to32.
    rewrite int_small by (unfold len in *; lia). by rewrite decide_True.
Qed.

Lemma conv8to32_panics_witness :
  4 * len [0; 0] < 2 ^ 63 ∧ conv8to32 [0; 0] [x01; x02; x03; x04; x05] = None.
Proof.
  split; [vm_compute; reflexivity|].
  apply (conv8to32_panics [0; 0] [x01; x02; x03; x04; x05]);
    [vm_compute; reflexivity|vm_compute; discriminate].
Defined.

(** X4.  [conv32to8] panics exactly when [len(dst) != 4*len(src)]. *)
Theorem conv32to8_panics (dst : list byte) (src : list Z) :
  4 * len src < 2 ^ 63 → (conv32to8 dst src = None ↔ len dst ≠ 4 * len src).
Proof.
  intros Hd. split.
  - intros HN HL. rewrite conv32to8_any in HN by (unfold len in *; lia). done.
  - intros HL. unfold conv32to8.
    rewrite int_small by (unfold len in *; lia). by rewrite decide_True.
Qed.

Lemma conv32to8_panics_witness :
  4 * len [1] < 2 ^ 63 ∧ conv32to8 [x00; x00; x00] [1] = None.
Proof.
  split; [vm_compute; reflexivity|].
  apply (conv32to8_panics [x00; x00; x00] [1]);
    [vm_compute; reflexivity|vm_compute; discriminate].
Defined.

(** ** Rotations, bit by bit *)

Lemma uint32_bits (x i : Z) :
  0 ≤ i → Z.testbit (uint32 x) i = if i <? 32 then Z.testbit x i else false.
Proof.
  intros Hi. unfold uint32. destruct (Z.ltb_spec i 32).
  - by rewrite Z.mod_pow2_bits_low by lia.
  - by rewrite Z.mod_pow2_bits_high by lia.
Qed.

Lemma high_bits_small (x i : Z) : 0 ≤ x < 2 ^ 32 → 32 ≤ i → Z.testbit x i = false.
Proof.
  intros Hx Hi. rewrite <- (Z.mod_small x (2 ^ 32)) by lia.
  by rewrite Z.mod_pow2_bits_high by lia.
Qed.

Lemma rotate_amount (k : Z) : uint64 k &&& (32 - 1) = k mod 32.
Proof.
  change (32 - 1) with (Z.ones 5). rewrite Z.land_ones by lia.
  unfold uint64. apply Z.mod_mod_divide. exists (2 ^ 59). reflexivity.
Qed.

Lemma RotateLeft32_bits (x k i : Z) :
  0 ≤ x < 2 ^ 32 → 0 ≤ i →
  Z.testbit (RotateLeft32 x k) i = if i <? 32 then Z.testbit x ((i - k) mod 32) else false.
Proof.
  intros Hx Hi. unfold RotateLeft32. cbv zeta. rewrite rotate_amount.
  pose proof (Z.mod_pos_bound k 32 ltac:(lia)) as Hs.
  set (s := k mod 32) in *.
  assert (Hm : (i - k) mod 32 = (i - s) mod 32).
  { unfold s. by rewrite Zminus_mod_idemp_r. }
  rewrite Hm, Z.lor_spec, uint32_bits, Z.shiftl_spec, Z.shiftr_spec by lia.
  destruct (Z.ltb_spec i 32) as [Hlt|Hge].
  - destruct (Z.lt_ge_cases i s).
    + rewrite (Z.testbit_neg_r x (i - s)) by lia. cbn [orb].
      f_equal. apply (Z.mod_unique _ _ (-1)); lia.
    + rewrite (high_bits_small x (i + (32 - s))) by lia. rewrite orb_false_r.
      f_equal. symmetry. apply Z.mod_small. lia.
  - by rewrite (high_bits_small x (i + (32 - s))) by lia.
Qed.

(** X5.  [rRotate x k] is the rotation of the 32-bit word [x] to the right
    by [k] places, for every [k], negative or beyond 32 included: bit [i]
    of the result is bit [(i + k) mod 32] of [x], and no bit above the 31st
    is set. *)
Theorem rRotate_bits (x k i : Z) :
  0 ≤ x < 2 ^ 32 → 0 ≤ i →
  Z.testbit (Sha2.rRotate x k) i = if i <? 32 then Z.testbit x ((i + k) mod 32) else false.
Proof.
  intros Hx Hi. unfold Sha2.rRotate. rewrite RotateLeft32_bits by done.
  by replace (i - - k) with (i + k) by lia.
Qed.

Lemma rRotate_bits_witness :
  Z.testbit (Sha2.rRotate 1 1) 31 = true.
Proof.
  exact (rRotate_bits 1 1 31 ltac:(lia) ltac:(lia)).
Defined.

(** ** [Hash256.Bytes] and [Hash256.Copy] *)

Lemma Bytes_be (h : Hash256.Hash256) :
  length h = 8%nat → Hash256.Bytes h = Some (concat (map (Spec.be_encode 4) h)).
Proof.
  intros Hh. unfold Hash256.Bytes. apply conv32to8_any.
  - rewrite length_replicate, Hh. reflexivity.
  - unfold len. rewrite length_replicate. vm_compute. reflexivity.
Qed.

Lemma copy_full {A} (dst src : list A) : length dst = length src → copy dst src = src.
Proof.
  intros HL. unfold copy. by rewrite HL, take_ge, drop_ge, app_nil_r by lia.
Qed.

Lemma Copy_be (h : Hash256.Hash256) (dst : list byte) :
  length h = 8%nat → length dst = 32%nat →
  Hash256.Copy h dst = Some (concat (map (Spec.be_encode 4) h)).
Proof.
  intros Hh Hd. unfold Hash256.Copy.
  rewrite decide_False by (unfold len; rewrite Hd; vm_compute; congruence).
  fold (Hash256.Bytes h). rewrite Bytes_be by done. cbn [mbind option_bind].
  by rewrite copy_full by (rewrite concat_be4_length; lia).
Qed.

(** X6.  [Hash256.Copy] panics exactly when [dst] is not 32 bytes long;
    otherwise every byte of [dst] is overwritten, and [dst] then holds the
    bytes that [Hash256.Bytes] returns: the eight words, each big-endian. *)
Theorem Copy_Bytes (h : Hash256.Hash256) (dst : list byte) :
  length h = 8%nat →
  Hash256.Copy h dst
  = (if decide (length dst = 32%nat) then Hash256.Bytes h else None)
  ∧ Hash256.Bytes h = Some (concat (map (Spec.be_encode 4) h)).
Proof.
  intros Hh. split; [|by apply Bytes_be]. case_decide as Hd.
  - rewrite Copy_be, Bytes_be; done.
  - unfold Hash256.Copy. rewrite decide_True; [done|].
    unfold len. change Size256 with (Z.of_nat 32). lia.
Qed.

Lemma Copy_Bytes_witness :
  Hash256.Copy hInit (replicate 32 xff) = Hash256.Bytes hInit
  ∧ Hash256.Copy hInit (replicate 31 xff) = None.
Proof.
  split.
  - exact (proj1 (Copy_Bytes hInit (replicate 32 xff) eq_refl)).
  - exact (proj1 (Copy_Bytes hInit (replicate 31 xff) eq_refl)).
Defined.

(** X7.  A hash parsed by [FromString] and serialized by [Bytes] is the 32
    bytes that the hexadecimal string denotes. *)
Theorem FromString_Bytes (s : string) :
  Hash256.valid_hex s = true →
  ∃ h, Hash256.FromString s = Some (h, None)
       ∧ Hash256.Bytes h = Some (Hash256.hex_DecodeString s).1.
Proof.
  intros Hv. pose proof (FromString_spec s) as HF. rewrite Hv in HF.
  exists (Spec.words (Hash256.hex_DecodeString s).1). split; [done|].
  apply valid_hex_bytes in Hv as [HL HF'].
  pose proof (hex_Decode_spec (list_byte_of_string s) []) as HD.
  unfold Hash256.hex_DecodeString.
  destruct (Hash256.hex_Decode (list_byte_of_string s) []) as [out [e|]] eqn:E.
  - destruct HD. split; [done|]. exists 32%nat. by rewrite HL.
  - destruct HD as (_ & n & Hn & Ho). cbn [fst length] in *.
    assert (length out = 32%nat) by lia.
    rewrite Bytes_be by (by apply (words_length out 8)).
    by rewrite (concat_words 8).
Qed.

Lemma FromString_Bytes_witness :
  ∃ h, Hash256.FromString empty_digest_hex = Some (h, None)
       ∧ Hash256.Bytes h = Some (Hash256.hex_DecodeString empty_digest_hex).1.
Proof.
  apply (FromString_Bytes empty_digest_hex). vm_compute. reflexivity.
Defined.

(** ** [block.Hdr.Bytes] *)

Lemma PutUint32_le (b0 b1 b2 b3 : byte) (v : Z) :
  Block.PutUint32 [b0; b1; b2; b3] v = Some (Block.le32 v).
Proof. reflexivity. Qed.

Lemma on_slice_at {A} (pre old post new : list A) (lo hi : Z)
    (f : list A → option (list A)) :
  lo = len pre → hi = lo + len old → f old = Some new →
  on_slice (pre ++ old ++ post) lo hi f = Some (pre ++ new ++ post).
Proof.
  intros -> -> Hf. unfold on_slice, slice, len in *.
  rewrite decide_True by (rewrite !length_app; lia).
  cbn [mbind option_bind]. rewrite Nat2Z.id.
  replace (Z.to_nat (Z.of_nat (length pre) + Z.of_nat (length old) - Z.of_nat (length pre)))
    with (length old) by lia.
  rewrite drop_app_length, !take_app_length, Hf. cbn [mbind option_bind].
  replace (Z.to_nat (Z.of_nat (length pre) + Z.of_nat (length old)))
    with (length pre + length old)%nat by lia.
  rewrite <- drop_drop, drop_app_length, drop_app_length. done.
Qed.

Lemma Bytes_layout (h : Block.Hdr) :
  length (Block.Prev h) = 8%nat → length (Block.Merkle h) = 8%nat →
  Block.Bytes h
  = Some (Block.le32 (Block.Version h)
          ++ concat (map (Spec.be_encode 4) (Block.Prev h))
          ++ concat (map (Spec.be_encode 4) (Block.Merkle h))
          ++ Block.le32 (Block.Time h)
          ++ Block.le32 (Block.Target h)
          ++ Block.le32 (Block.Nonce h)).
Proof.
  intros HP HM. unfold Block.Bytes.
  set (P := concat (map (Spec.be_encode 4) (Block.Prev h))).
  set (M := concat (map (Spec.be_encode 4) (Block.Merkle h))).
  assert (HLP : length P = 32%nat) by (unfold P; rewrite concat_be4_length; lia).
  assert (HLM : length M = 32%nat) by (unfold M; rewrite concat_be4_length; lia).
  change (replicate (4 + 32 + 32 + 4 + 4 + 4) x00)
    with ([] ++ replicate 4 x00 ++ replicate 76 x00).
  rewrite (on_slice_at [] _ _ (Block.le32 (Block.Version h))) by done.
  cbn [mbind option_bind app].
  change (replicate 76 x00) with (replicate 32 x00 ++ replicate 44 x00).
  rewrite (on_slice_at (Block.le32 (Block.Version h)) (replicate 32 x00) _ P 4 (4 + 32))
    by (done || by apply Copy_be).
  cbn [mbind option_bind].
  change (replicate 44 x00) with (replicate 32 x00 ++ replicate 12 x00).
  rewrite (app_assoc (Block.le32 _) P).
  rewrite (on_slice_at _ (replicate 32 x00) _ M 36 (36 + 32));
    [|unfold len; rewrite length_app, HLP; reflexivity|done|by apply Copy_be].
  cbn [mbind option_bind].
  change (replicate 12 x00) with (replicate 4 x00 ++ replicate 8 x00).
  rewrite (app_assoc (_ ++ P) M).
  rewrite (on_slice_at _ (replicate 4 x00) _ (Block.le32 (Block.Time h)) 68 (68 + 4));
    [|unfold len; rewrite !length_app, HLP, HLM; reflexivity|done|done].
  cbn [mbind option_bind].
  change (replicate 8 x00) with (replicate 4 x00 ++ replicate 4 x00).
  rewrite (app_assoc (_ ++ M) (Block.le32 _)).
  rewrite (on_slice_at _ (replicate 4 x00) _ (Block.le32 (Block.Target h)) 72 (72 + 4));
    [|unfold len; rewrite !length_app, HLP, HLM; reflexivity|done|done].
  cbn [mbind option_bind].
  rewrite (app_assoc (_ ++ Block.le32 _) (Block.le32 _)).
  rewrite <- (app_nil_r (replicate 4 x00)).
  rewrite (on_slice_at _ (replicate 4 x00) [] (Block.le32 (Block.Nonce h)) 76 (76 + 4));
    [|unfold len; rewrite !length_app, HLP, HLM; reflexivity|done|done].
  cbn [mbind option_bind]. rewrite app_nil_r.
  rewrite <- !app_assoc.
  set (out := Block.le32 _ ++ _).
  unfold slice. rewrite decide_True by (unfold len; lia).
  rewrite Z.sub_0_r. unfold len. rewrite Nat2Z.id. cbn [Z.to_nat drop].
  by rewrite take_ge.
Qed.

Lemma le_value_le32 (v : Z) : Block.le_value (Block.le32 v) = v mod 2 ^ 32.
Proof.
  unfold Block.le_value, Block.le32. cbn [fold_right].
  rewrite !byte_to_Z_uint8, !Z.shiftr_div_pow2 by lia.
  change (2 ^ 32) with (256 * (256 * (256 * 256))).
  rewrite !Z.rem_mul_r by lia.
  change (2 ^ 8) with 256. change (2 ^ 16) with (256 * 256).
  change (2 ^ 24) with (256 * 256 * 256).
  rewrite <- !Z.div_div by lia. lia.
Qed.

Lemma le32_inj (v v' : Z) :
  0 ≤ v < 2 ^ 32 → 0 ≤ v' < 2 ^ 32 → Block.le32 v = Block.le32 v' → v = v'.
Proof.
  intros Hv Hv' E. apply (f_equal Block.le_value) in E.
  rewrite !le_value_le32, !Z.mod_small in E by lia. done.
Qed.

Lemma be4_concat_inj (ws ws' : list Z) :
  Forall (λ x, 0 ≤ x < 2 ^ 32) ws → Forall (λ x, 0 ≤ x < 2 ^ 32) ws' →
  concat (map (Spec.be_encode 4) ws) = concat (map (Spec.be_encode 4) ws') → ws = ws'.
Proof.
  intros H H' E. apply (f_equal Spec.words) in E.
  rewrite !words_concat, !map_uint32_small in E by done. done.
Qed.

(** [mine] on its own header: the parsed hashes, the 80 bytes and the hash
    of block 125552. *)
Example mine_block_125552 :
  ∃ prev merkle x hash0,
    Hash256.FromString mine_prev = Some (prev, None)
    ∧ Hash256.FromString mine_merkle = Some (merkle, None)
    ∧ Block.mine_hashes prev merkle 1 mine_time 440711666 2504433986
      = Some (x, hash0, (Hash256.hex_DecodeString mine_hash1).1).
Proof.
  eexists _, _, _, _. split; [vm_compute; reflexivity|].
  split; [vm_compute; reflexivity|]. vm_compute. reflexivity.
Qed.

(** X8.  [Hdr.Bytes] never panics and returns 80 bytes: the version, the
    two hashes as [Hash256.Bytes] gives them (each word big-endian), then
    the time, the target and the nonce, the four integers least
    significant byte first. *)
Theorem Hdr_Bytes_layout (h : Block.Hdr) :
  length (Block.Prev h) = 8%nat → length (Block.Merkle h) = 8%nat →
  ∃ p m x,
    Hash256.Bytes (Block.Prev h) = Some p ∧ Hash256.Bytes (Block.Merkle h) = Some m
    ∧ Block.Bytes h = Some x ∧ length x = 80%nat
    ∧ x = Block.le32 (Block.Version h) ++ p ++ m
          ++ Block.le32 (Block.Time h) ++ Block.le32 (Block.Target h)
          ++ Block.le32 (Block.Nonce h).
Proof.
  intros HP HM. eexists _, _, _.
  split; [by apply Bytes_be|]. split; [by apply Bytes_be|].
  split; [by apply Bytes_layout|]. split; [|done].
  rewrite !length_app, !concat_be4_length, HP, HM. reflexivity.
Qed.

Lemma Hdr_Bytes_layout_witness :
  ∃ p m x,
    Hash256.Bytes hInit = Some p ∧ Hash256.Bytes (replicate 8 0) = Some m
    ∧ Block.Bytes (Block.New hInit (replicate 8 0) 2 3 4 5) = Some x ∧ length x = 80%nat
    ∧ x = Block.le32 2 ++ p ++ m ++ Block.le32 3 ++ Block.le32 4 ++ Block.le32 5.
Proof.
  exact (Hdr_Bytes_layout (Block.New hInit (replicate 8 0) 2 3 4 5) eq_refl eq_refl).
Defined.

(** X9.  [Hdr.Bytes] loses nothing: two different headers never have the
    same 80 bytes. *)
Theorem Hdr_Bytes_injective (h h' : Block.Hdr) :
  Block.valid h → Block.valid h' → h ≠ h' → Block.Bytes h ≠ Block.Bytes h'.
Proof.
  intros (HV & HT & HG & HN & HP & HPr & HM & HMr)
         (HV' & HT' & HG' & HN' & HP' & HPr' & HM' & HMr') Hne E.
  apply Hne. clear Hne.
  rewrite !Bytes_layout in E by done. apply (inj Some) in E.
  apply app_inj_1 in E as [E1 E]; [|done].
  apply app_inj_1 in E as [E2 E]; [|by rewrite !concat_be4_length, HP, HP'].
  apply app_inj_1 in E as [E3 E]; [|by rewrite !concat_be4_length, HM, HM'].
  apply app_inj_1 in E as [E4 E]; [|done].
  apply app_inj_1 in E as [E5 E6]; [|done].
  apply le32_inj in E1, E4, E5, E6; try done.
  apply be4_concat_inj in E2, E3; try done.
  destruct h, h'. cbn in *. congruence.
Qed.

Lemma Hdr_Bytes_injective_witness :
  Block.Bytes (Block.New hInit hInit 1 2 3 4) ≠ Block.Bytes (Block.New hInit hInit 1 2 3 5).
Proof.
  apply Hdr_Bytes_injective;
    [repeat split; try (cbn; lia); repeat constructor; cbn; lia
    |repeat split; try (cbn; lia); repeat constructor; cbn; lia
    |discriminate].
Defined.

(** X10.  The hashing steps of [mine] always run to the end: the header
    serializes to 80 bytes, [hash0] is the SHA-256 of the header and
    [hash1] the SHA-256 of [hash0], the double hash of a block header. *)
Theorem mine_double_hash (prev merkle : Hash256.Hash256) (version time target nonce : Z) :
  length prev = 8%nat → length merkle = 8%nat →
  ∃ x, Block.Bytes (Block.New prev merkle version time target nonce) = Some x
       ∧ length x = 80%nat
       ∧ Block.mine_hashes prev merkle version time target nonce
         = Some (x, Spec.sha256 x, Spec.sha256 (Spec.sha256 x)).
Proof.
  intros HP HM. unfold Block.mine_hashes.
  rewrite Bytes_layout by done. eexists. split; [done|].
  set (x := Block.le32 _ ++ _).
  assert (HL : length x = 80%nat).
  { unfold x. rewrite !length_app, !concat_be4_length. cbn [Block.New Block.Prev Block.Merkle].
    rewrite HP, HM. reflexivity. }
  split; [done|]. cbn [mbind option_bind].
  rewrite Hash256_Sha2_256_spec by (unfold len; rewrite HL; vm_compute; reflexivity).
  cbn [mbind option_bind].
  rewrite Hash256_Sha2_256_spec
    by (unfold len; rewrite sha256_length; vm_compute; reflexivity).
  done.
Qed.

Lemma mine_double_hash_witness :
  ∃ x, Block.Bytes (Block.New (Spec.words (Hash256.hex_DecodeString mine_prev).1)
                              (Spec.words (Hash256.hex_DecodeString mine_merkle).1)
                              1 mine_time 440711666 2504433986) = Some x
       ∧ length x = 80%nat
       ∧ Block.mine_hashes (Spec.words (Hash256.hex_DecodeString mine_prev).1)
                           (Spec.words (Hash256.hex_DecodeString mine_merkle).1)
                           1 mine_time 440711666 2504433986
         = Some (x, Spec.sha256 x, Spec.sha256 (Spec.sha256 x)).
Proof.
  apply mine_double_hash; vm_compute; reflexivity.
Defined.

(** ** The table [revChars] *)

(** The table after [init], evaluated: the entry of each character of
    [chars] is its position, and a code below 128 is a character of [chars]
    or its entry is [-1]. *)
Lemma revChars_run :
  ∃ T, Base58.revChars = Some T ∧ length T = 128%nat
       ∧ forallb (λ n, match list_byte_of_string Base58.chars !! n with
                       | Some c => match T !! Z.to_nat (byte_to_Z c) with
                                   | Some v => v =? Z.of_nat n
                                   | None => false
                                   end
                       | None => false
                       end) (seq 0 58) = true
       ∧ forallb (λ n, existsb (λ b, byte_to_Z b =? Z.of_nat n)
                         (list_byte_of_string Base58.chars)
                       || match T !! n with Some v => v =? -1 | None => false end)
           (seq 0 128) = true.
Proof.
  eexists. split; [vm_compute; reflexivity|].
  split; [reflexivity|]. split; vm_compute; reflexivity.
Qed.

Lemma revChars_hit :
  ∃ T, Base58.revChars = Some T
       ∧ ∀ i c, index (list_byte_of_string Base58.chars) i = Some c →
                index T (byte_to_Z c) = Some i.
Proof.
  destruct revChars_run as (T & E & HL & H1 & H2).
  exists T. split; [done|].
  intros i c Hc. pose proof (index_is_Some _ _ _ Hc) as Hi.
  change (len (list_byte_of_string Base58.chars)) with 58 in Hi.
  rewrite (index_eq _ i (Z.to_nat i)) in Hc by lia.
  rewrite List.forallb_forall in H1. specialize (H1 (Z.to_nat i)).
  rewrite Hc in H1. pose proof (byte_to_Z_range c).
  rewrite (index_eq _ _ (Z.to_nat (byte_to_Z c))) by lia.
  destruct (T !! Z.to_nat (byte_to_Z c)) as [v|].
  - f_equal. apply Z.eqb_eq. rewrite Z2Nat.id in H1 by lia. apply H1.
    apply in_seq. lia.
  - discriminate H1. apply in_seq. lia.
Qed.

(** No character occurs twice in [chars]. *)
Lemma chars_inj (i j : Z) (c : byte) :
  index (list_byte_of_string Base58.chars) i = Some c →
  index (list_byte_of_string Base58.chars) j = Some c → i = j.
Proof.
  destruct revChars_hit as (T & _ & HT). intros Hi Hj.
  apply HT in Hi, Hj. congruence.
Qed.

(** X11.  After [init] the table [revChars] inverts [chars]: the entry of
    the [i]-th character of the alphabet is [i], and the entry of every
    other code below 128 is [-1]. *)
Theorem revChars_inverse :
  ∃ T, Base58.revChars = Some T ∧ length T = 128%nat
       ∧ (∀ i c, index (list_byte_of_string Base58.chars) i = Some c →
                 index T (byte_to_Z c) = Some i)
       ∧ (∀ c, 0 ≤ c < 128 →
               (∀ b, b ∈ list_byte_of_string Base58.chars → byte_to_Z b ≠ c) →
               index T c = Some (-1)).
Proof.
  destruct revChars_run as (T & E & HL & _ & H2).
  destruct revChars_hit as (T' & E' & H1).
  assert (T' = T) as -> by congruence.
  exists T. split; [done|]. split; [done|]. split; [done|].
  intros c Hc Hout.
  rewrite List.forallb_forall in H2. specialize (H2 (Z.to_nat c)).
  rewrite (index_eq _ _ (Z.to_nat c)) by lia.
  destruct (existsb _ _) eqn:EX.
  - apply existsb_exists in EX as (b & Hb & Hbc).
    apply list_elem_of_In in Hb. apply Hout in Hb. apply Z.eqb_eq in Hbc. lia.
  - cbn [orb] in H2. destruct (T !! Z.to_nat c) as [v|].
    + f_equal. apply Z.eqb_eq. apply H2. apply in_seq. lia.
    + discriminate H2. apply in_seq. lia.
Qed.

(** ** Base58: the encoding loses nothing *)

Lemma symbol_inj (x y : Z) :
  0 ≤ x < 58 → 0 ≤ y < 58 → Base58.symbol x = Base58.symbol y → x = y.
Proof.
  intros Hx Hy E.
  assert (Bx : byte_to_Z (uint8 x) = x) by (rewrite byte_to_Z_uint8; apply Z.mod_small; lia).
  assert (By : byte_to_Z (uint8 y) = y) by (rewrite byte_to_Z_uint8; apply Z.mod_small; lia).
  rewrite <- Bx, <- By in E. rewrite <- !symbol_byte_ascii in E.
  apply (f_equal byte_of_ascii) in E. rewrite !byte_of_ascii_of_byte in E.
  pose proof (chars_index (uint8 x) ltac:(lia)) as Cx.
  pose proof (chars_index (uint8 y) ltac:(lia)) as Cy.
  rewrite E in Cx. pose proof (chars_inj _ _ _ Cx Cy). lia.
Qed.

Lemma map_symbol_inj (ds ds' : list Z) :
  Forall (λ d, 0 ≤ d < 58) ds → Forall (λ d, 0 ≤ d < 58) ds' →
  map Base58.symbol ds = map Base58.symbol ds' → ds = ds'.
Proof.
  intros H. revert ds'. induction H as [|x ds Hx _ IH]; intros ds' H' E.
  - by destruct ds'.
  - destruct H' as [|y ds' Hy H']; [done|]. cbn [map] in E.
    injection E as E1 E2. f_equal; [by apply symbol_inj|by apply IH].
Qed.

Lemma run_prefix_inj {A} (a : A) (z z' : nat) (l l' : list A) :
  (∀ c t, l = c :: t → c ≠ a) → (∀ c t, l' = c :: t → c ≠ a) →
  replicate z a ++ l = replicate z' a ++ l' → z = z' ∧ l = l'.
Proof.
  intros H H'. revert z'. induction z as [|z IH]; intros [|z'] E; cbn in E.
  - done.
  - subst l. by destruct (H a (replicate z' a ++ l')).
  - subst l'. by destruct (H' a (replicate z a ++ l)).
  - injection E as E. destruct (IH _ E). split; [lia|done].
Qed.

Lemma be_value_inj_length (l l' : list byte) :
  length l = length l' → Spec.be_value l = Spec.be_value l' → l = l'.
Proof.
  intros HL HV. rewrite <- (be_encode_value l), <- (be_encode_value l'). congruence.
Qed.

Lemma be_value_lower (b : byte) (t : list byte) :
  byte_to_Z b ≠ 0 → 256 ^ len t ≤ Spec.be_value (b :: t).
Proof.
  intros Hb. rewrite be_value_cons. pose proof (byte_to_Z_range b).
  pose proof (be_value_nonneg t).
  assert (0 < 256 ^ len t) by (apply Z.pow_pos_nonneg; unfold len; lia). nia.
Qed.

Lemma be_value_inj (l l' : list byte) :
  (∀ b t, l = b :: t → byte_to_Z b ≠ 0) → (∀ b t, l' = b :: t → byte_to_Z b ≠ 0) →
  Spec.be_value l = Spec.be_value l' → l = l'.
Proof.
  intros H H' E. apply be_value_inj_length; [|done].
  assert (G : ∀ (b : byte) (t k : list byte), byte_to_Z b ≠ 0 →
              Spec.be_value (b :: t) = Spec.be_value k → (length t < length k)%nat).
  { intros b t k Hb Ek. pose proof (be_value_lower b t Hb).
    pose proof (be_value_bound k).
    assert (256 ^ len t < 256 ^ len k) as Hp by lia.
    apply Z.pow_lt_mono_r_iff in Hp; unfold len in *; lia. }
  destruct l as [|b t], l' as [|b' t']; [done| | |].
  - pose proof (G b' t' [] (H' _ _ eq_refl) (eq_sym E)). simpl in *. lia.
  - pose proof (G b t [] (H _ _ eq_refl) E). simpl in *. lia.
  - pose proof (G b t (b' :: t') (H _ _ eq_refl) E).
    pose proof (G b' t' (b :: t) (H' _ _ eq_refl) (eq_sym E)). simpl in *. lia.
Qed.

Lemma to_base58_range (v : Z) : Forall (λ d, 0 ≤ d < 58) (Base58.to_base58 v).
Proof. apply digits58_range. constructor. Qed.

Lemma symbol_head (v : Z) (c : ascii) (t : list ascii) :
  0 ≤ v → map Base58.symbol (Base58.to_base58 v) = c :: t → c ≠ "1"%char.
Proof.
  intros Hv E. destruct (Base58.to_base58 v) as [|x ds] eqn:ED; [done|].
  injection E as <- _. pose proof (to_base58_head v Hv x ds ED) as Hx.
  pose proof (to_base58_range v) as HR. rewrite ED in HR.
  apply Forall_cons in HR as [HR _].
  intros Hc. apply Hx. apply symbol_inj; [done|lia|done].
Qed.

Lemma encoded_inj (d d' : list byte) : Base58.encoded d = Base58.encoded d' → d = d'.
Proof.
  unfold Base58.encoded. cbv zeta.
  set (z := Base58.leading_zeros d). set (z' := Base58.leading_zeros d').
  intros E. apply (f_equal list_ascii_of_string) in E.
  rewrite !list_ascii_of_string_of_list_ascii in E.
  pose proof (be_value_nonneg (drop z d)). pose proof (be_value_nonneg (drop z' d')).
  apply run_prefix_inj in E as [Hz E]; [|intros c t; by apply symbol_head..].
  apply map_symbol_inj in E; [|by apply to_base58_range..].
  apply (f_equal Base58.value58) in E. rewrite !to_base58_value in E by done.
  apply be_value_inj in E; [|intros b t; apply leading_zeros_head..].
  rewrite (leading_zeros_drop d), (leading_zeros_drop d').
  fold z z'. congruence.
Qed.

Lemma value58_upper (ds : list Z) :
  Forall (λ d, 0 ≤ d < 58) ds → 0 ≤ Base58.value58 ds < 58 ^ len ds.
Proof.
  induction ds as [|d ds IH] using rev_ind; intros H.
  - change (0 ≤ 0 < 58 ^ 0). lia.
  - apply Forall_app in H as [H Hd]. rewrite Forall_singleton in Hd.
    specialize (IH H). rewrite value58_snoc. unfold len in *.
    rewrite length_app, Nat2Z.inj_add, Z.pow_add_r by lia.
    change (58 ^ Z.of_nat (length [d])) with 58. lia.
Qed.

Lemma symbol_in (x : Z) : In (Base58.symbol x) (list_ascii_of_string Base58.chars).
Proof.
  unfold Base58.symbol.
  destruct (Nat.lt_ge_cases (Z.to_nat x) (length Base58.alphabet)) as [Hlt|Hge].
  - by apply nth_In.
  - rewrite nth_overflow by done. by left.
Qed.

(** The length of the digit string of the bytes [rest], which do not start
    with a zero. *)
Lemma digits_length (rest : list byte) :
  (∀ b t, rest = b :: t → byte_to_Z b ≠ 0) →
  len rest ≤ len (Base58.to_base58 (Spec.be_value rest)) ≤ len rest * 137 / 100 + 1.
Proof.
  intros Hh. pose proof (be_value_nonneg rest) as Hv.
  pose proof (to_base58_value _ Hv) as HV.
  pose proof (to_base58_range (Spec.be_value rest)) as HR.
  pose proof (to_base58_head _ Hv) as HH.
  pose proof (value58_upper _ HR) as HU.
  generalize dependent (Base58.to_base58 (Spec.be_value rest)). intros ds HV HR HH HU.
  assert (0 ≤ len rest) by (unfold len; lia).
  assert (0 ≤ len ds) by (unfold len; lia).
  split.
  - destruct rest as [|b t]; [done|].
    pose proof (be_value_lower b t (Hh _ _ eq_refl)) as HL.
    assert (58 ^ len ds ≤ 256 ^ len ds) by (apply Z.pow_le_mono_l; lia).
    assert (256 ^ len t < 256 ^ len ds) as Hp by lia.
    apply Z.pow_lt_mono_r_iff in Hp; [|lia..].
    unfold len in *. cbn [length]. lia.
  - destruct (decide (ds = [])) as [->|Hne].
    { assert (0 ≤ len rest * 137 / 100) by (apply Z.div_pos; lia).
      change (len (@nil Z)) with 0. lia. }
    pose proof (value58_lower ds HR HH Hne) as HL.
    pose proof (be_value_bound rest) as HB.
    pose proof (capacity (len rest) ltac:(lia)) as HC.
    assert (58 ^ (len ds - 1) < 58 ^ (len rest * 137 / 100 + 1)) as Hp by lia.
    apply Z.pow_lt_mono_r_iff in Hp; [lia|lia|].
    assert (0 ≤ len rest * 137 / 100) by (apply Z.div_pos; lia). lia.
Qed.

Lemma encoded_length (d : list byte) :
  let z := Z.of_nat (Base58.leading_zeros d) in
  len d ≤ Z.of_nat (String.length (Base58.encoded d)) ≤ z + (len d - z) * 137 / 100 + 1.
Proof.
  cbv zeta. unfold Base58.encoded.
  rewrite <- length_list_ascii, list_ascii_of_string_of_list_ascii.
  rewrite length_app, length_replicate, length_map.
  pose proof (digits_length (drop (Base58.leading_zeros d) d)
                (λ b t, leading_zeros_head d t b)) as HD.
  pose proof (leading_zeros_le d). unfold len in *.
  rewrite length_drop in HD.
  replace (Z.of_nat (length d - Base58.leading_zeros d))
    with (Z.of_nat (length d) - Z.of_nat (Base58.leading_zeros d)) in HD by lia.
  lia.
Qed.

(** X12.  [Encode] loses nothing: two different byte strings never have
    the same encoding. *)
Theorem Encode_injective (d d' : list byte) :
  137 * len d < 2 ^ 63 → 137 * len d' < 2 ^ 63 → d ≠ d' →
  Base58.Encode d ≠ Base58.Encode d'.
Proof.
  intros Hd Hd' Hne E. rewrite !Encode_spec in E by done.
  apply Hne, encoded_inj. congruence.
Qed.

Lemma Encode_injective_witness :
  Base58.Encode [x00; x01] ≠ Base58.Encode [x01].
Proof.
  apply Encode_injective; [vm_compute; reflexivity|vm_compute; reflexivity|discriminate].
Defined.

(** X13.  The string [Encode] returns holds characters of [chars] only, is
    at least as long as its input, and at most as long as the leading
    zeros plus the digit buffer. *)
Theorem Encode_output (d : list byte) :
  137 * len d < 2 ^ 63 →
  ∃ s, Base58.Encode d = Some s
       ∧ Forall (λ c, In c (list_ascii_of_string Base58.chars)) (list_ascii_of_string s)
       ∧ let z := Z.of_nat (Base58.leading_zeros d) in
         len d ≤ Z.of_nat (String.length s) ≤ z + (len d - z) * 137 / 100 + 1.
Proof.
  intros Hd. exists (Base58.encoded d). split; [by apply Encode_spec|].
  split; [|apply encoded_length].
  unfold Base58.encoded. rewrite list_ascii_of_string_of_list_ascii.
  apply Forall_app. split.
  - apply Forall_replicate. apply (symbol_in 0).
  - apply Forall_forall. intros c Hc. apply list_elem_of_In, in_map_iff in Hc as (x & <- & _).
    apply symbol_in.
Qed.

Lemma Encode_output_witness :
  ∃ s, Base58.Encode [x00; xff; xff] = Some s
       ∧ Forall (λ c, In c (list_ascii_of_string Base58.chars)) (list_ascii_of_string s)
       ∧ 3 ≤ Z.of_nat (String.length s) ≤ 1 + (3 - 1) * 137 / 100 + 1.
Proof.
  apply (Encode_output [x00; xff; xff]). vm_compute. reflexivity.
Defined.

(** X14.  A zero byte in front of the input puts one ['1'] in front of
    the encoding and changes nothing else. *)
Theorem Encode_zero_prefix (d : list byte) :
  137 * len (x00 :: d) < 2 ^ 63 →
  ∃ s, Base58.Encode d = Some s ∧ Base58.Encode (x00 :: d) = Some (String "1" s).
Proof.
  intros Hd. exists (Base58.encoded d).
  rewrite !Encode_spec by (unfold len in *; cbn [length] in *; lia).
  split; reflexivity.
Qed.

Lemma Encode_zero_prefix_witness :
  ∃ s, Base58.Encode [x01] = Some s ∧ Base58.Encode [x00; x01] = Some (String "1" s).
Proof.
  apply (Encode_zero_prefix [x01]). vm_compute. reflexivity.
Defined.

(** X15.  [Decode] does not undo [Encode]: on the encoding of any
    non-empty input it returns no data and no error, and on the encoding
    of the empty input the error [no input]. *)
Theorem Decode_Encode (d : list byte) :
  137 * len d < 2 ^ 63 →
  ∃ s, Base58.Encode d = Some s
       ∧ Base58.Decode s = (None, if decide (d = []) then Some "no input"%string else None).
Proof.
  intros Hd. exists (Base58.encoded d). split; [by apply Encode_spec|].
  pose proof (encoded_length d) as [HL _]. unfold Base58.Decode.
  destruct d as [|b d]; [done|].
  rewrite decide_False; [done|]. unfold len in HL. cbn [length] in HL. lia.
Qed.

Lemma Decode_Encode_witness :
  ∃ s, Base58.Encode [x00; x01] = Some s ∧ Base58.Decode s = (None, None).
Proof.
  apply (Decode_Encode [x00; x01]). vm_compute. reflexivity.
Defined.

(** ** [pad512] on a store: where the padding goes *)

Lemma store_frame (m m' : gmap nat (list byte)) (s : Mem.slice_hdr) (i : Z) (v : byte)
    (l : nat) :
  Mem.store m s i v = Some m' → l ≠ Mem.arr s → m' !! l = m !! l.
Proof.
  unfold Mem.store. destruct (m !! Mem.arr s) as [a|]; [|done].
  cbn [mbind option_bind]. case_decide; [|done]. intros [= <-] Hl.
  by rewrite lookup_insert_ne.
Qed.

Ltac frame_store H :=
  match type of H with
  | (Mem.store ?m ?s ?i ?v ≫= _) = Some _ =>
      let m2 := fresh "m" in
      let E := fresh "E" in
      destruct (Mem.store m s i v) as [m2|] eqn:E; [|done];
      cbn [mbind option_bind] in H
  end.

(** The header [pad512] returns is the one [append] made, and the stores
    that follow touch the array of that header only. *)
Lemma pad512_shape (m m' : gmap nat (list byte)) (s s' : Mem.slice_hdr) (d : list byte) :
  Mem.contents m s = Some d → len d < 2 ^ 63 →
  Mem.pad512 m s = Some (m', s') →
  ∃ m1, Mem.append_zeros m s (Spec.pad_zeros (len d) + 9) = Some (m1, s')
        ∧ ∀ l, l ≠ Mem.arr s' → m' !! l = m1 !! l.
Proof.
  intros Hc Hd Hp.
  destruct (contents_inv _ _ _ Hc) as (a & _ & _ & _ & _ & Hlen).
  unfold Mem.pad512 in Hp. cbv zeta in Hp. rewrite <- Hlen in Hp. fold (len d) in Hp.
  assert (0 ≤ len d) by (unfold len; lia).
  rewrite (pad512_pad (len d)) in Hp by lia.
  replace (Z.to_nat (Z.of_nat (Spec.pad_zeros (len d)) + 9))
    with (Spec.pad_zeros (len d) + 9)%nat in Hp by lia.
  destruct (Mem.append_zeros m s (Spec.pad_zeros (len d) + 9)) as [[m1 s1]|]; [|done].
  cbn [mbind option_bind] in Hp.
  do 9 frame_store Hp. injection Hp as <- <-.
  exists m1. split; [done|]. intros l Hl.
  repeat match goal with
         | E : Mem.store _ _ _ _ = Some _ |- _ =>
             apply (store_frame _ _ _ _ _ l) in E; [|done]
         end.
  congruence.
Qed.

(** X16.  With room behind the slice, [pad512] allocates nothing and
    writes the padding into the backing array of its argument: the bytes
    of the caller's array between the length and the capacity of the slice
    are overwritten, and no other array changes. *)
Theorem pad512_in_place (m : gmap nat (list byte)) (s : Mem.slice_hdr) (d : list byte) :
  Mem.contents m s = Some d → len d < 2 ^ 61 →
  (Mem.length_ s + (Spec.pad_zeros (len d) + 9) ≤ Mem.cap s)%nat →
  let s' := Mem.SliceHdr (Mem.arr s) (Mem.off s)
              (Mem.length_ s + (Spec.pad_zeros (len d) + 9)) (Mem.cap s) in
  ∃ m', Mem.pad512 m s = Some (m', s')
        ∧ Mem.contents m' s' = Some (Spec.padded d)
        ∧ dom m' = dom m
        ∧ ∀ l, l ≠ Mem.arr s → m' !! l = m !! l.
Proof.
  intros Hc Hd Hroom s'.
  destruct (contents_inv _ _ _ Hc) as (a & Ha & _).
  destruct (pad512_mem m s s d d (Spec.padded d) Hc Hc) as (m' & s1 & E & Hc' & _);
    [right; split; [done|lia]|lia|by apply pad512_padded|].
  destruct (pad512_shape m m' s s1 d Hc ltac:(lia) E) as (m1 & E1 & Hfr).
  unfold Mem.append_zeros in E1. rewrite Ha in E1. cbn [mbind option_bind] in E1.
  rewrite decide_True in E1 by done. injection E1 as <- <-.
  exists m'. split; [done|]. split; [done|]. split.
  - apply set_eq. intros l. rewrite !elem_of_dom.
    destruct (decide (l = Mem.arr s)) as [->|Hl].
    + rewrite Ha. destruct (contents_inv _ _ _ Hc') as (a' & Ha' & _).
      cbn [Mem.arr] in Ha'. rewrite Ha'. split; eauto.
    + rewrite (Hfr l) by done. by rewrite lookup_insert_ne.
  - intros l Hl. rewrite (Hfr l) by done. by rewrite lookup_insert_ne.
Qed.

Lemma pad512_in_place_witness :
  ∃ m', Mem.pad512 {[ 0%nat := replicate 100 x01 ]} (Mem.SliceHdr 0 10 3 90)
        = Some (m', Mem.SliceHdr 0 10 64 90)
        ∧ Mem.contents m' (Mem.SliceHdr 0 10 64 90) = Some (Spec.padded [x01; x01; x01])
        ∧ dom m' = dom ({[ 0%nat := replicate 100 x01 ]} : gmap nat (list byte))
        ∧ ∀ l, l ≠ 0%nat → m' !! l = ({[ 0%nat := replicate 100 x01 ]} : gmap nat (list byte)) !! l.
Proof.
  apply (pad512_in_place {[ 0%nat := replicate 100 x01 ]} (Mem.SliceHdr 0 10 3 90)
           [x01; x01; x01]); [reflexivity|vm_compute; reflexivity|vm_compute; lia].
Defined.

(** X17.  Without room behind the slice, [pad512] pads a new array and
    leaves every array of the store as it was, the backing array of its
    argument included. *)
Theorem pad512_reallocates (m : gmap nat (list byte)) (s : Mem.slice_hdr) (d : list byte) :
  Mem.contents m s = Some d → len d < 2 ^ 61 →
  ¬ (Mem.length_ s + (Spec.pad_zeros (len d) + 9) ≤ Mem.cap s)%nat →
  ∃ m' s', Mem.pad512 m s = Some (m', s')
           ∧ m !! Mem.arr s' = None
           ∧ Mem.contents m' s' = Some (Spec.padded d)
           ∧ ∀ l a, m !! l = Some a → m' !! l = Some a.
Proof.
  intros Hc Hd Hroom.
  destruct (contents_inv _ _ _ Hc) as (a & Ha & _).
  destruct (pad512_mem m s s d d (Spec.padded d) Hc Hc) as (m' & s1 & E & Hc' & _);
    [right; split; [done|lia]|lia|by apply pad512_padded|].
  destruct (pad512_shape m m' s s1 d Hc ltac:(lia) E) as (m1 & E1 & Hfr).
  unfold Mem.append_zeros in E1. rewrite Ha in E1. cbn [mbind option_bind] in E1.
  rewrite decide_False in E1 by done. injection E1 as <- <-.
  cbn [Mem.arr] in Hfr.
  assert (Hl : m !! fresh (dom m) = None) by (apply not_elem_of_dom, is_fresh).
  exists m'. eexists. split; [done|]. split; [done|]. split; [done|].
  intros l b Hb. assert (l ≠ fresh (dom m)) by congruence.
  rewrite Hfr by done. by rewrite lookup_insert_ne.
Qed.

Lemma pad512_reallocates_witness :
  ∃ m' s', Mem.pad512 {[ 0%nat := replicate 100 x01 ]} (Mem.SliceHdr 0 10 3 3) = Some (m', s')
           ∧ ({[ 0%nat := replicate 100 x01 ]} : gmap nat (list byte)) !! Mem.arr s' = None
           ∧ Mem.contents m' s' = Some (Spec.padded [x01; x01; x01])
           ∧ ∀ l a, ({[ 0%nat := replicate 100 x01 ]} : gmap nat (list byte)) !! l = Some a
                    → m' !! l = Some a.
Proof.
  apply (pad512_reallocates {[ 0%nat := replicate 100 x01 ]} (Mem.SliceHdr 0 10 3 3)
           [x01; x01; x01]); [reflexivity|vm_compute; reflexivity|vm_compute; lia].
Defined.

(** ** [Add512]: the block it reads *)

Lemma for_loop_None {St} (body : Z → St → option St) (n : nat) :
  ∀ lo s j, lo ≤ j < lo + Z.of_nat n → (∀ s, body j s = None) →
            for_loop lo n body s = None.
Proof.
  induction n as [|n IH]; intros lo s j Hj Hb; [lia|].
  cbn [for_loop]. destruct (decide (j = lo)) as [->|Hne].
  - by rewrite Hb.
  - destruct (body lo s) as [s'|]; [|done]. cbn [mbind option_bind].
    apply (IH _ _ j); [lia|done].
Qed.

Lemma index_None {A} (s : list A) (i : Z) : len s ≤ i → index s i = None.
Proof.
  intros Hi. unfold index, len in *. case_decide; [|done].
  apply lookup_ge_None_2. lia.
Qed.

Lemma index_take {A} (s : list A) (n : nat) (i : Z) :
  i < Z.of_nat n → index (take n s) i = index s i.
Proof.
  intros Hi. unfold index. case_decide; [|done]. apply lookup_take_lt. lia.
Qed.

Lemma load32_take (s : list byte) (n : nat) (j : Z) :
  j + 3 < Z.of_nat n → load32 (take n s) j = load32 s j.
Proof.
  intros Hj. unfold load32. by rewrite !index_take by lia.
Qed.

Lemma load32_None (s : list byte) (j : Z) : len s ≤ j + 3 → load32 s j = None.
Proof.
  intros Hj. unfold load32.
  destruct (index s (j + 0)); [|done]. cbn [mbind option_bind].
  destruct (index s (j + 1)); [|done]. cbn [mbind option_bind].
  destruct (index s (j + 2)); [|done]. cbn [mbind option_bind].
  by rewrite index_None.
Qed.

Lemma words_of_regs_of (x : list Z) : length x = 8%nat → Spec.words_of (Spec.regs_of x) = x.
Proof.
  intros Hx. destruct x as [|a [|b [|c [|d [|e [|f [|g [|h [|]]]]]]]]]; done.
Qed.

Lemma Add512_take (x : Hash256.Hash256) (data : list byte) :
  Hash256.Add512 x data = Hash256.Add512 x (take 64 data).
Proof.
  unfold Hash256.Add512.
  rewrite (for_loop_ext
             (λ i w, let j := i * 4 in x ← load32 data j; store w i x)
             (λ i w, let j := i * 4 in x ← load32 (take 64 data) j; store w i x)); [done|].
  intros i s Hi. cbv zeta. by rewrite load32_take by lia.
Qed.

Lemma Add512_short (x : Hash256.Hash256) (data : list byte) :
  (length data < 64)%nat → Hash256.Add512 x data = None.
Proof.
  intros Hd. unfold Hash256.Add512.
  rewrite (for_loop_None _ 16 0 _ (len data / 4)); [done| |].
  - unfold len. pose proof (Z.div_pos (Z.of_nat (length data)) 4).
    assert (Z.of_nat (length data) / 4 < 16) by (apply Z.div_lt_upper_bound; lia). lia.
  - intros s. cbv zeta. rewrite load32_None; [done|].
    pose proof (Z.mul_succ_div_gt (len data) 4). lia.
Qed.

(** X18.  [Add512] reads the first 64 bytes of its argument and nothing
    else: on a shorter slice it panics, on a longer one the bytes beyond
    the 64th do not matter, and the hash becomes the compression of the
    64-byte block into it. *)
Theorem Add512_block (x : Hash256.Hash256) (data : list byte) :
  length x = 8%nat →
  Hash256.Add512 x data
  = if decide (length data < 64)%nat then None
    else Some (Spec.words_of (Spec.compress (Spec.regs_of x) (take 64 data))).
Proof.
  intros Hx. case_decide as Hd; [by apply Add512_short|].
  rewrite Add512_take. rewrite <- (words_of_regs_of x Hx) at 1.
  apply Add512_compress. rewrite length_take. lia.
Qed.

Lemma Add512_block_witness :
  Hash256.Add512 hInit (replicate 63 x00) = None
  ∧ Hash256.Add512 hInit (replicate 64 x00 ++ [x01; x02])
    = Hash256.Add512 hInit (replicate 64 x00 ++ [x03]).
Proof.
  split.
  - exact (Add512_block hInit (replicate 63 x00) eq_refl).
  - exact (eq_trans (Add512_block hInit (replicate 64 x00 ++ [x01; x02]) eq_refl)
             (eq_sym (Add512_block hInit (replicate 64 x00 ++ [x03]) eq_refl))).
Defined.

(** ** [pad512] can be undone *)

Lemma padded_tail (d : list byte) :
  drop (length (Spec.padded d) - 8) (Spec.padded d) = Spec.be_encode 8 (8 * len d).
Proof.
  unfold Spec.padded. rewrite !app_assoc.
  set (pre := (d ++ [x80]) ++ replicate (Spec.pad_zeros (len d)) x00).
  rewrite length_app, be_encode_length.
  replace (length pre + 8 - 8)%nat with (length pre) by lia.
  apply drop_app_length.
Qed.

Lemma padded_inj (d d' : list byte) :
  len d < 2 ^ 61 → len d' < 2 ^ 61 → Spec.padded d = Spec.padded d' → d = d'.
Proof.
  intros Hd Hd' E.
  assert (HL : length d = length d').
  { pose proof (padded_tail d) as T. pose proof (padded_tail d') as T'.
    rewrite E, T' in T. apply (f_equal Spec.be_value) in T.
    rewrite !be_value_encode in T.
    change (256 ^ Z.of_nat 8) with (2 ^ 64) in T.
    unfold len in *. rewrite !Z.mod_small in T by lia. lia. }
  apply (f_equal (take (length d))) in E. unfold Spec.padded in E.
  rewrite take_app_length in E. rewrite HL, take_app_length in E. done.
Qed.

(** X19.  [pad512] can be undone: two different messages never have the
    same padded form. *)
Theorem pad512_injective (d d' : list byte) :
  len d < 2 ^ 61 → len d' < 2 ^ 61 → d ≠ d' → pad512 d ≠ pad512 d'.
Proof.
  intros Hd Hd' Hne E. rewrite !pad512_padded in E by done.
  apply Hne, padded_inj; [done|done|congruence].
Qed.

Lemma pad512_injective_witness : pad512 [x00] ≠ pad512 [].
Proof.
  apply pad512_injective; [vm_compute; reflexivity|vm_compute; reflexivity|discriminate].
Defined.
